(** * A reverse proxy with round-robin balancing and token-bucket rate limiting

    Shallow embedding of the Go packages [balancer], [ratelimiter] and [proxy].
    Machine integers are integers of [Z] with their wrap-around written out,
    [float64] is IEEE 754 binary64 as specified by [SpecFloat], Go maps are
    finite maps, and pointers to buckets are locations into a store. *)

From Stdlib Require Import ZArith Lia List String Ascii Bool Permutation DecimalString.
From Stdlib Require Import Floats.SpecFloat.
From stdpp Require Import base option list strings gmap.

Local Open Scope Z_scope.

(** ** Machine integers *)

Definition wrap32 (z : Z) : Z := z mod 2 ^ 32.

Definition min_int : Z := - 2 ^ 63.
Definition max_int : Z := 2 ^ 63 - 1.

(** Two's complement reduction of an integer to Go's 64-bit [int]. *)
Definition wrap_int (z : Z) : Z := (z + 2 ^ 63) mod 2 ^ 64 - 2 ^ 63.

(** A computation that either returns or stops with a run-time panic. *)
Inductive Outcome (A : Type) : Type :=
| Ret (a : A)
| Panic.
Arguments Ret {A} a.
Arguments Panic {A}.

(** ** Package balancer *)

Module Balancer.

(** [Address] is the backend URL in its [String()] rendering, the only way in
    which the code compares addresses; [IsAlive] is the atomic flag. *)
Record Backend : Type := { Address : string; IsAlive : bool }.

(** [currentIndex] is the [uint32] cursor. A [*Backend] is rendered as the
    position of the backend in [backends]: the slice is never resized after
    construction. *)
Record RoundRobinLoadBalancer : Type :=
  { backends : list Backend; currentIndex : Z }.

Definition set_cursor (lb : RoundRobinLoadBalancer) (c : Z) :=
  {| backends := backends lb; currentIndex := c |}.

(** The body of the [for attempt := 0; attempt < total; attempt++] loop of
    [NextAvailableBackend]; [attempts] counts the iterations that are left.
    [atomic.AddUint32] returns the incremented cursor, [uint32(total)]
    truncates the length, and [%] panics on a zero divisor. *)
Fixpoint attempt_loop (attempts : nat) (total : Z) (lb : RoundRobinLoadBalancer)
  : Outcome (option nat) * RoundRobinLoadBalancer :=
  match attempts with
  | O => (Ret None, lb)
  | S rest =>
      let cursor := wrap32 (currentIndex lb + 1) in
      let lb' := set_cursor lb cursor in
      if wrap32 total =? 0 then (Panic, lb')
      else
        let index := Z.to_nat (cursor mod wrap32 total) in
        match backends lb !! index with
        | None => (Panic, lb')
        | Some candidate =>
            if IsAlive candidate then (Ret (Some index), lb')
            else attempt_loop rest total lb'
        end
  end.

Definition NextAvailableBackend (lb : RoundRobinLoadBalancer)
  : Outcome (option nat) * RoundRobinLoadBalancer :=
  let total := length (backends lb) in
  attempt_loop total (Z.of_nat total) lb.

(** [n] sequential calls of [NextAvailableBackend], with their results. *)
Fixpoint selections (n : nat) (lb : RoundRobinLoadBalancer)
  : list (Outcome (option nat)) * RoundRobinLoadBalancer :=
  match n with
  | O => ([], lb)
  | S k =>
      let '(r, lb1) := NextAvailableBackend lb in
      let '(rs, lb2) := selections k lb1 in
      (r :: rs, lb2)
  end.

Definition mark_dead (b : Backend) : Backend :=
  {| Address := Address b; IsAlive := false |}.

(** The [range] loop of [MarkBackendUnhealthy]: it stores [false] in the
    first backend whose address renders as [target] and returns. *)
Fixpoint mark_loop (bs : list Backend) (target : string) : list Backend :=
  match bs with
  | [] => []
  | backend :: rest =>
      if String.eqb (Address backend) target then mark_dead backend :: rest
      else backend :: mark_loop rest target
  end.

Definition MarkBackendUnhealthy (lb : RoundRobinLoadBalancer) (target : string)
  : RoundRobinLoadBalancer :=
  {| backends := mark_loop (backends lb) target;
     currentIndex := currentIndex lb |}.

Definition all_alive (lb : RoundRobinLoadBalancer) : Prop :=
  Forall (fun b => IsAlive b = true) (backends lb).

Definition none_alive (lb : RoundRobinLoadBalancer) : Prop :=
  Forall (fun b => IsAlive b = false) (backends lb).

(** Three live backends and a cursor two steps before the end of [uint32]. *)
Definition pool_at_wrap : RoundRobinLoadBalancer :=
  {| backends := [ {| Address := "http://s1:8081"; IsAlive := true |};
                   {| Address := "http://s2:8082"; IsAlive := true |};
                   {| Address := "http://s3:8083"; IsAlive := true |} ];
     currentIndex := 2 ^ 32 - 2 |}.

(** A pool of [2 ^ 32] backends that are all down. *)
Definition pool_of_uint32_size : RoundRobinLoadBalancer :=
  {| backends := replicate (Z.to_nat (2 ^ 32))
                   {| Address := "http://s1:8081"; IsAlive := false |};
     currentIndex := 0 |}.

(** Two backends, the second one down. *)
Definition pool_one_down : RoundRobinLoadBalancer :=
  {| backends := [ {| Address := "http://s1:8081"; IsAlive := true |};
                   {| Address := "http://s2:8082"; IsAlive := false |} ];
     currentIndex := 7 |}.

(** Whether the backend at a position is up, and the positions of the pool
    in the order in which a call starting at the current cursor examines
    them. *)
Definition alive_at (lb : RoundRobinLoadBalancer) (i : nat) : bool :=
  match backends lb !! i with
  | Some b => IsAlive b
  | None => false
  end.

Definition rotation (lb : RoundRobinLoadBalancer) : list nat :=
  map (fun j : nat =>
         Z.to_nat ((currentIndex lb + Z.of_nat j) mod Z.of_nat (length (backends lb))))
      (seq 1 (length (backends lb))).

(** [NewRoundRobinLoadBalancer]: the loop appends one live backend for every
    URL that parses and skips the others; the cursor starts at zero. [parse]
    stands for [url.Parse] followed by the rendering of the result, and gives
    [None] where [url.Parse] returns an error. *)
Fixpoint register_backends (parse : string -> option string) (backendURLs : list string)
  (registered : list Backend) : list Backend :=
  match backendURLs with
  | [] => registered
  | rawURL :: rest =>
      match parse rawURL with
      | None => register_backends parse rest registered
      | Some parsedURL =>
          register_backends parse rest
            (registered ++ [{| Address := parsedURL; IsAlive := true |}])
      end
  end.

Definition NewRoundRobinLoadBalancer (parse : string -> option string)
  (backendURLs : list string) : RoundRobinLoadBalancer :=
  {| backends := register_backends parse backendURLs []; currentIndex := 0 |}.

(** The verdict of one probe: [err == nil && response.StatusCode == 200];
    [None] is a failed request. *)
Definition isHealthy (response : option Z) : bool :=
  match response with
  | Some statusCode => statusCode =? 200
  | None => false
  end.

Definition store_alive (i : nat) (v : bool) (lb : RoundRobinLoadBalancer)
  : RoundRobinLoadBalancer :=
  {| backends := alter (fun b => {| Address := Address b; IsAlive := v |}) i (backends lb);
     currentIndex := currentIndex lb |}.

(** The goroutine that [runHealthCheckLoop] starts for the backend at
    position [i]: one request to the health URL and one store of the verdict.
    [get i url] is the outcome of that request. *)
Definition check_backend (get : nat -> string -> option Z) (i : nat)
  (lb : RoundRobinLoadBalancer) : RoundRobinLoadBalancer :=
  match backends lb !! i with
  | Some b => store_alive i (isHealthy (get i (Address b ++ "/health")%string)) lb
  | None => lb
  end.

(** One tick of the health check: the goroutines of all backends, finishing
    in the order [order]. *)
Definition health_cycle (get : nat -> string -> option Z) (order : list nat)
  (lb : RoundRobinLoadBalancer) : RoundRobinLoadBalancer :=
  fold_left (fun l i => check_backend get i l) order lb.

(** A backend after its probe of the tick. *)
Definition probed (get : nat -> string -> option Z) (i : nat) (b : Backend) : Backend :=
  {| Address := Address b; IsAlive := isHealthy (get i (Address b ++ "/health")%string) |}.

(** A sample value of [parse] for the examples. It agrees with [url.Parse]
    on the strings used there: a string that starts with a colon has no
    scheme and is rejected, and a URL of the form [http://host:port] is
    rendered as it is. *)
Definition parse_sample (rawURL : string) : option string :=
  match rawURL with
  | String c _ => if Ascii.eqb c ":"%char then None else Some rawURL
  | EmptyString => Some rawURL
  end.

End Balancer.

(** ** float64 and time *)

Module Float64.

(** IEEE 754 binary64: 53 bits of precision, infinities at exponent 1024. *)
Definition prec : Z := 53.
Definition emax : Z := 1024.

Definition float64 : Type := spec_float.

(** [float64(n)] for an integer [n]: rounding to nearest, ties to even. *)
Definition of_int (n : Z) : float64 := binary_normalize prec emax n 0 false.

Definition add : float64 -> float64 -> float64 := SFadd prec emax.
Definition mul : float64 -> float64 -> float64 := SFmul prec emax.
Definition div : float64 -> float64 -> float64 := SFdiv prec emax.

(** The integer part of a finite float, the fraction discarded. *)
Definition truncate (s : bool) (m : positive) (e : Z) : Z :=
  let magnitude := if 0 <=? e then Z.pos m * 2 ^ e else Z.pos m / 2 ^ (- e) in
  if s then - magnitude else magnitude.

(** [int(x)] for a float [x]. Go leaves the result open when the value does
    not fit; this is the amd64 result, the smallest [int]. *)
Definition to_int (x : float64) : Z :=
  match x with
  | S754_zero _ => 0
  | S754_finite s m e =>
      let v := truncate s m e in
      if (min_int <=? v) && (v <=? max_int) then v else min_int
  | S754_infinity _ | S754_nan => min_int
  end.

(** *** Vocabulary of the rounding proofs *)

(** The number of binary digits of a mantissa and the exponent of the last
    place of binary64. *)
Definition digits (m : positive) : Z := Z.pos (digits2_pos m).

Definition fexp64 (e : Z) : Z := Z.max (e - 53) (-1074).

(** No round or sticky bit is set: the shifted value is exact. *)
Definition exact (mrs : shr_record) : Prop :=
  shr_r mrs = false /\ shr_s mrs = false.

(** [mrs'] is [mrs] shifted right by [n] places. *)
Definition shifted (n : Z) (mrs mrs' : shr_record) : Prop :=
  shr_m mrs' = shr_m mrs / 2 ^ n
  /\ (exact mrs' <-> exact mrs /\ shr_m mrs = shr_m mrs' * 2 ^ n).

Definition canonical (m : positive) (e : Z) : Prop := fexp64 (digits m + e) = e.

(** One unit in the last place is kept free above an inexact value. *)
Definition slack (l : location) : Z :=
  match l with loc_Exact => 0 | loc_Inexact _ => 1 end.

(** A canonical positive float between [2 ^ a] and [2 ^ b]. *)
Definition between (a b : Z) (x : float64) : Prop :=
  exists (m : positive) (e : Z),
    x = S754_finite false m e /\ canonical m e /\ 2 ^ (a - e) <= Z.pos m <= 2 ^ (b - e).

(** A float that is [+0] or lies between two powers of two. *)
Definition upto (a b : Z) (x : float64) : Prop :=
  x = S754_zero false \/ between a b x.

(** The float [x] is the integer [z], held without rounding. *)
Definition whole (z : Z) (x : float64) : Prop :=
  (z = 0 /\ x = S754_zero false)
  \/ exists (m : positive) (e : Z),
       x = S754_finite false m e /\ canonical m e /\ e <= 0 /\ Z.pos m = z * 2 ^ (- e).

(** A float that is not above zero: a zero, a negative number or NaN. *)
Definition nonpos (x : float64) : Prop :=
  match x with
  | S754_finite false _ _ | S754_infinity false => False
  | _ => True
  end.

(** A float that is [+0] or a positive number. *)
Definition nonneg (x : float64) : Prop :=
  match x with
  | S754_zero false | S754_finite false _ _ => True
  | _ => False
  end.

End Float64.

Module Time.

(** An instant is a reading of the monotonic clock in nanoseconds, a
    [Duration] is a 64-bit count of nanoseconds. *)
Definition Time : Type := Z.
Definition Duration : Type := Z.

Definition Second : Duration := 1000000000.
Definition Minute : Duration := 60 * Second.

(** [t.Sub(u)]: the difference, saturated to the range of [Duration]. *)
Definition Sub (t u : Time) : Duration :=
  if t - u <? min_int then min_int
  else if max_int <? t - u then max_int
  else t - u.

(** [d.Seconds()], with Go's truncating [/] and [%]. *)
Definition Seconds (d : Duration) : Float64.float64 :=
  let sec := Z.quot d Second in
  let nsec := Z.rem d Second in
  Float64.add (Float64.of_int sec)
              (Float64.div (Float64.of_int nsec) (Float64.of_int 1000000000)).

End Time.

(** ** Package ratelimiter: the bucket *)

Module Bucket.

Record TokenBucket : Type :=
  { Capacity : Z; Tokens : Z; RefillRate : Z;
    lastRefill : Time.Time; lastSeen : Time.Time }.

(** [now] is the reading of [time.Now()] taken by the constructor. *)
Definition NewTokenBucket (capacity refillRate : Z) (now : Time.Time) : TokenBucket :=
  {| Capacity := capacity; Tokens := capacity; RefillRate := refillRate;
     lastRefill := now; lastSeen := now |}.

Definition min (a b : Z) : Z := if a <? b then a else b.

Definition tokensToAdd (tb : TokenBucket) (now : Time.Time) : Z :=
  let elapsed := Time.Seconds (Time.Sub now (lastRefill tb)) in
  Float64.to_int (Float64.mul elapsed (Float64.of_int (RefillRate tb))).

Definition refill (now : Time.Time) (tb : TokenBucket) : TokenBucket :=
  if tokensToAdd tb now >? 0 then
    {| Capacity := Capacity tb;
       Tokens := min (Capacity tb) (wrap_int (Tokens tb + tokensToAdd tb now));
       RefillRate := RefillRate tb;
       lastRefill := now;
       lastSeen := lastSeen tb |}
  else tb.

Definition set_lastSeen (t : Time.Time) (tb : TokenBucket) : TokenBucket :=
  {| Capacity := Capacity tb; Tokens := Tokens tb; RefillRate := RefillRate tb;
     lastRefill := lastRefill tb; lastSeen := t |}.

Definition set_Tokens (n : Z) (tb : TokenBucket) : TokenBucket :=
  {| Capacity := Capacity tb; Tokens := n; RefillRate := RefillRate tb;
     lastRefill := lastRefill tb; lastSeen := lastSeen tb |}.

(** [Allow] runs under the bucket's mutex; [now] is the clock reading of
    [refill] and [seen] the later one stored in [lastSeen]. *)
Definition Allow (now seen : Time.Time) (tb : TokenBucket) : bool * TokenBucket :=
  let tb1 := set_lastSeen seen (refill now tb) in
  if Tokens tb1 >? 0 then (true, set_Tokens (wrap_int (Tokens tb1 - 1)) tb1)
  else (false, tb1).

(** A run of calls of [Allow], one pair of clock readings per call. *)
Fixpoint allow_run (clock : list (Time.Time * Time.Time)) (tb : TokenBucket)
  : list bool * TokenBucket :=
  match clock with
  | [] => ([], tb)
  | (now, seen) :: rest =>
      let '(ok, tb1) := Allow now seen tb in
      let '(oks, tb2) := allow_run rest tb1 in
      (ok :: oks, tb2)
  end.

(** The refill rule in the words of the specification, over exact integers:
    [floor (elapsed * refillRate)] for [elapsed] in seconds is the quotient
    of nanoseconds times rate by [10 ^ 9]. *)
Definition spec_tokensToAdd (tb : TokenBucket) (now : Time.Time) : Z :=
  (now - lastRefill tb) * RefillRate tb / 1000000000.

Definition spec_refill (now : Time.Time) (tb : TokenBucket) : TokenBucket :=
  if spec_tokensToAdd tb now >? 0 then
    {| Capacity := Capacity tb;
       Tokens := Z.min (Capacity tb) (Tokens tb + spec_tokensToAdd tb now);
       RefillRate := RefillRate tb;
       lastRefill := now;
       lastSeen := lastSeen tb |}
  else tb.

(** The bucket invariant of the data model. *)
Definition within_capacity (tb : TokenBucket) : Prop :=
  0 <= Tokens tb <= Capacity tb.

(** An empty bucket of 100 tokens per second, last refilled at instant 0. *)
Definition drained_bucket : TokenBucket :=
  {| Capacity := 100; Tokens := 0; RefillRate := 100; lastRefill := 0; lastSeen := 0 |}.

(** A bucket whose refill rate is the largest odd integer a float holds
    exactly. *)
Definition fast_bucket : TokenBucket := NewTokenBucket 2000 (2 ^ 53 - 1) 0.

End Bucket.

(** ** Package ratelimiter: the registry *)

Module RateLimiter.

Record ClientLimit : Type := { Capacity : Z; RefillRate : Z }.

(** A [*TokenBucket] is an address in the store of allocated buckets. *)
Definition loc : Type := nat.

Record RateLimiter : Type :=
  { buckets : gmap string loc;
    clientLimits : gmap string ClientLimit;
    defaultCapacity : Z;
    defaultRefillRate : Z }.

(** The limiter together with the buckets it has allocated; [next] is the
    first address not yet in use. *)
Record State : Type :=
  { limiter : RateLimiter;
    store : loc -> Bucket.TokenBucket;
    next : loc }.

Definition NewRateLimiter (capacity refillRate : Z) : RateLimiter :=
  {| buckets := ∅; clientLimits := ∅;
     defaultCapacity := capacity; defaultRefillRate := refillRate |}.

Definition empty_store : loc -> Bucket.TokenBucket :=
  fun _ => Bucket.NewTokenBucket 0 0 0.

Definition initial (capacity refillRate : Z) : State :=
  {| limiter := NewRateLimiter capacity refillRate; store := empty_store; next := 0%nat |}.

Definition set_buckets (m : gmap string loc) (rl : RateLimiter) : RateLimiter :=
  {| buckets := m; clientLimits := clientLimits rl;
     defaultCapacity := defaultCapacity rl; defaultRefillRate := defaultRefillRate rl |}.

Definition SetClientLimit (clientID : string) (limit : ClientLimit) (st : State) : State :=
  {| limiter := {| buckets := buckets (limiter st);
                   clientLimits := <[clientID := limit]> (clientLimits (limiter st));
                   defaultCapacity := defaultCapacity (limiter st);
                   defaultRefillRate := defaultRefillRate (limiter st) |};
     store := store st; next := next st |}.

Definition update (l : loc) (tb : Bucket.TokenBucket) (h : loc -> Bucket.TokenBucket)
  : loc -> Bucket.TokenBucket :=
  fun l' => if Nat.eqb l' l then tb else h l'.

(** The limit a new bucket of [clientID] is created with. *)
Definition limit_for (clientID : string) (rl : RateLimiter) : ClientLimit :=
  match clientLimits rl !! clientID with
  | Some limit => limit
  | None => {| Capacity := defaultCapacity rl; RefillRate := defaultRefillRate rl |}
  end.

(** [getBucket], first critical section (under [RLock]): the lookup. *)
Definition find_bucket (clientID : string) (st : State) : option loc :=
  buckets (limiter st) !! clientID.

(** [getBucket], second critical section (under [Lock]), entered when the
    lookup found nothing: a bucket is allocated and stored in the map, without
    a second look at the map. [created] is the clock reading of
    [NewTokenBucket]. *)
Definition create_bucket (clientID : string) (created : Time.Time) (st : State)
  : loc * State :=
  let limit := limit_for clientID (limiter st) in
  let bucket := Bucket.NewTokenBucket (Capacity limit) (RefillRate limit) created in
  (next st,
   {| limiter := set_buckets (<[clientID := next st]> (buckets (limiter st))) (limiter st);
      store := update (next st) bucket (store st);
      next := S (next st) |}).

Definition getBucket (clientID : string) (created : Time.Time) (st : State) : loc * State :=
  match find_bucket clientID st with
  | Some bucket => (bucket, st)
  | None => create_bucket clientID created st
  end.

(** [bucket.Allow()] on the bucket at an address, under the bucket's mutex. *)
Definition allow_at (bucket : loc) (now seen : Time.Time) (st : State) : bool * State :=
  let '(ok, tb) := Bucket.Allow now seen (store st bucket) in
  (ok, {| limiter := limiter st; store := update bucket tb (store st); next := next st |}).

(** [rl.Allow(clientID)] run without interference; [created], [now] and
    [seen] are the clock readings it may take, in this order. *)
Definition Allow (clientID : string) (created now seen : Time.Time) (st : State)
  : bool * State :=
  let '(bucket, st1) := getBucket clientID created st in
  allow_at bucket now seen st1.

(** A run of calls of [rl.Allow] for one client, one triple of clock
    readings ([created], [now], [seen]) per call. *)
Fixpoint allow_run (clientID : string) (clock : list (Time.Time * Time.Time * Time.Time))
  (st : State) : list bool * State :=
  match clock with
  | [] => ([], st)
  | (created, now, seen) :: rest =>
      let '(ok, st1) := Allow clientID created now seen st in
      let '(oks, st2) := allow_run clientID rest st1 in
      (ok :: oks, st2)
  end.

(** The test of the sweep: [now.Sub(lastSeen) > expiration]. *)
Definition expired (st : State) (expiration : Time.Duration) (now : Time.Time) (bucket : loc)
  : bool :=
  Time.Sub now (Bucket.lastSeen (store st bucket)) >? expiration.

(** [Cleanup]: the [range] loop deletes every entry whose bucket is expired. *)
Definition Cleanup (expiration : Time.Duration) (now : Time.Time) (st : State) : State :=
  {| limiter :=
       set_buckets
         (filter (fun entry => expired st expiration now (snd entry) = false)
                 (buckets (limiter st)))
         (limiter st);
     store := store st; next := next st |}.

(** The registry keeps its books: every registered bucket has been
    allocated, and no two clients are registered with the same bucket. *)
Definition registered_ok (st : State) : Prop :=
  (forall (clientID : string) (bucket : loc),
      buckets (limiter st) !! clientID = Some bucket -> (bucket < next st)%nat)
  /\ (forall (clientID other : string) (bucket : loc),
        buckets (limiter st) !! clientID = Some bucket ->
        buckets (limiter st) !! other = Some bucket -> clientID = other).

(** A limiter with defaults (5, 1) and an override (3, 2) for ["client1"],
    after one request of that client at instant 0. *)
Definition one_client : State :=
  snd (Allow "client1" 0 0 0
         (SetClientLimit "client1" {| Capacity := 3; RefillRate := 2 |} (initial 5 1))).

End RateLimiter.

(** ** Concurrent callers of the registry

    Every lock-protected section of [rl.Allow] is one atomic step; the steps
    of different goroutines interleave in any order. All goroutines call
    [Allow] for the same client and every clock reading is the same instant. *)

Module Concurrent.

Import RateLimiter.

(** Where a goroutine stands in [rl.Allow(clientID)]. *)
Inductive Position : Type :=
| AtLookup
| AtCreate
| AtAllow (bucket : loc)
| Done (ok : bool).

Definition step (clientID : string) (t : Time.Time) (p : Position) (st : State)
  : Position * State :=
  match p with
  | AtLookup =>
      match find_bucket clientID st with
      | Some bucket => (AtAllow bucket, st)
      | None => (AtCreate, st)
      end
  | AtCreate =>
      let '(bucket, st1) := create_bucket clientID t st in (AtAllow bucket, st1)
  | AtAllow bucket =>
      let '(ok, st1) := allow_at bucket t t st in (Done ok, st1)
  | Done ok => (Done ok, st)
  end.

(** The goroutine [i] takes its next step. *)
Definition schedule_one (clientID : string) (t : Time.Time) (i : nat)
  (cfg : list Position * State) : list Position * State :=
  match fst cfg !! i with
  | Some p =>
      let '(p', st') := step clientID t p (snd cfg) in (<[i := p']> (fst cfg), st')
  | None => cfg
  end.

Definition run (clientID : string) (t : Time.Time) (schedule : list nat)
  (cfg : list Position * State) : list Position * State :=
  fold_left (fun c i => schedule_one clientID t i c) schedule cfg.

Definition finished (ps : list Position) : Prop :=
  Forall (fun p => exists ok, p = Done ok) ps.

Definition is_done (ok : bool) (p : Position) : bool :=
  match p with
  | Done ok' => Bool.eqb ok ok'
  | _ => false
  end.

(** The number of goroutines whose call returned [true]. *)
Definition granted (ps : list Position) : nat :=
  length (List.filter (is_done true) ps).

Definition rejected (ps : list Position) : nat :=
  length (List.filter (is_done false) ps).

(** A goroutine that will not create a bucket. *)
Definition waiting (bucket : loc) (p : Position) : Prop :=
  p = AtLookup \/ p = AtAllow bucket \/ exists ok, p = Done ok.

(** What every interleaving maintains: the bucket stays registered, nobody
    is about to create another one, and the tokens that are left are the
    capacity less the calls granted so far. *)
Definition consistent (clientID : string) (t : Time.Time) (capacity : Z) (bucket : loc)
  (cfg : list Position * State) : Prop :=
  find_bucket clientID (snd cfg) = Some bucket
  /\ Forall (waiting bucket) (fst cfg)
  /\ Bucket.lastRefill (store (snd cfg) bucket) = t
  /\ 0 <= Bucket.Tokens (store (snd cfg) bucket) <= max_int
  /\ Bucket.Tokens (store (snd cfg) bucket) + Z.of_nat (granted (fst cfg)) = capacity
  /\ ((0 < rejected (fst cfg))%nat -> Bucket.Tokens (store (snd cfg) bucket) = 0).

(** Two goroutines before their first step on a new limiter of capacity 1. *)
Definition two_callers : list Position * State :=
  ([AtLookup; AtLookup], initial 1 1).

End Concurrent.

(** ** Strings, headers and responses of the standard library

    Strings are sequences of bytes. The functions below follow the Go
    library on ASCII text, which is what header values and addresses are. *)

Module HTTP.

Local Open Scope nat_scope.
Local Open Scope string_scope.

(** The white space of [strings.TrimSpace] below U+0080. *)
Definition isSpace (c : ascii) : bool :=
  match nat_of_ascii c with
  | 9 | 10 | 11 | 12 | 13 | 32 => true
  | _ => false
  end.

Fixpoint trimLeft (s : string) : string :=
  match s with
  | EmptyString => EmptyString
  | String c rest => if isSpace c then trimLeft rest else s
  end.

Fixpoint trimRight (s : string) : string :=
  match s with
  | EmptyString => EmptyString
  | String c rest =>
      match trimRight rest with
      | EmptyString => if isSpace c then EmptyString else String c EmptyString
      | kept => String c kept
      end
  end.

Definition TrimSpace (s : string) : string := trimRight (trimLeft s).

(** [strings.Split(s, sep)] for a separator of one byte. *)
Fixpoint Split (s : string) (sep : ascii) : list string :=
  match s with
  | EmptyString => [EmptyString]
  | String c rest =>
      if Ascii.eqb c sep then EmptyString :: Split rest sep
      else match Split rest sep with
           | [] => [String c EmptyString]
           | first :: others => String c first :: others
           end
  end.

Fixpoint IndexByte (s : string) (c : ascii) : option nat :=
  match s with
  | EmptyString => None
  | String a rest =>
      if Ascii.eqb a c then Some 0 else option_map S (IndexByte rest c)
  end.

Fixpoint LastIndexByte (s : string) (c : ascii) : option nat :=
  match s with
  | EmptyString => None
  | String a rest =>
      match LastIndexByte rest c with
      | Some i => Some (S i)
      | None => if Ascii.eqb a c then Some 0 else None
      end
  end.

Definition has_byte (s : string) (c : ascii) : bool :=
  match IndexByte s c with Some _ => true | None => false end.

(** The slices [s[:n]] and [s[n:]]. *)
Definition upto_index (n : nat) (s : string) : string := substring 0 n s.
Definition from_index (n : nat) (s : string) : string := substring n (String.length s - n) s.

Definition starts_with (s : string) (c : ascii) : bool :=
  match s with
  | String a _ => Ascii.eqb a c
  | EmptyString => false
  end.

(** [net.SplitHostPort]; [None] stands for a result with an error. *)
Definition SplitHostPort (hostport : string) : option (string * string) :=
  match LastIndexByte hostport ":" with
  | None => None
  | Some i =>
      let parsed : option (string * nat * nat) :=
        if starts_with hostport "[" then
          match IndexByte hostport "]" with
          | None => None
          | Some close =>
              if Nat.eqb (close + 1) (String.length hostport) then None
              else if Nat.eqb (close + 1) i
                   then Some (substring 1 (close - 1) hostport, 1, close + 1)
                   else None
          end
        else
          let host := upto_index i hostport in
          if has_byte host ":" then None else Some (host, 0, 0) in
      match parsed with
      | None => None
      | Some (host, j, k) =>
          if has_byte (from_index j hostport) "[" then None
          else if has_byte (from_index k hostport) "]" then None
          else Some (host, from_index (i + 1) hostport)
      end
  end.

Definition is_lower (c : ascii) : bool :=
  Nat.leb 97 (nat_of_ascii c) && Nat.leb (nat_of_ascii c) 122.
Definition is_upper (c : ascii) : bool :=
  Nat.leb 65 (nat_of_ascii c) && Nat.leb (nat_of_ascii c) 90.
Definition to_upper (c : ascii) : ascii :=
  if is_lower c then ascii_of_nat (nat_of_ascii c - 32) else c.
Definition to_lower (c : ascii) : ascii :=
  if is_upper c then ascii_of_nat (nat_of_ascii c + 32) else c.

(** [textproto.CanonicalMIMEHeaderKey] on keys made of letters, digits and
    hyphens: a capital at the start and after every hyphen, small letters
    elsewhere. *)
Fixpoint canonical_from (upper : bool) (s : string) : string :=
  match s with
  | EmptyString => EmptyString
  | String c rest =>
      String (if upper then to_upper c else to_lower c)
             (canonical_from (Ascii.eqb c "-") rest)
  end.

Definition CanonicalMIMEHeaderKey (key : string) : string := canonical_from true key.

(** [http.Header], keyed by canonical names as the server stores them. *)
Definition Header : Type := gmap string (list string).

Definition Get (h : Header) (key : string) : string :=
  match h !! CanonicalMIMEHeaderKey key with
  | Some (v :: _) => v
  | _ => EmptyString
  end.

Record Request : Type := { RequestHeader : Header; RemoteAddr : string }.

Record Response : Type :=
  { StatusCode : Z; ResponseHeader : list (string * string); Body : string }.

Definition newline : string := String (ascii_of_nat 10) EmptyString.
Definition quote : string := String (ascii_of_nat 34) EmptyString.

(** [http.Error]: a plain text body, the message followed by a new line. *)
Definition Error (error : string) (code : Z) : Response :=
  {| StatusCode := code;
     ResponseHeader := [("Content-Type", "text/plain; charset=utf-8");
                        ("X-Content-Type-Options", "nosniff")];
     Body := error ++ newline |}.

(** A JSON string literal; of the escapes of [encoding/json] those of the
    quote and of the backslash are rendered. *)
Fixpoint json_escape (s : string) : string :=
  match s with
  | EmptyString => EmptyString
  | String c rest =>
      (if Ascii.eqb c (ascii_of_nat 34) then "\" ++ quote
       else if Ascii.eqb c "\" then "\\"
       else String c EmptyString) ++ json_escape rest
  end.

Definition json_string (s : string) : string := quote ++ json_escape s ++ quote.

Definition json_int (n : Z) : string := NilZero.string_of_int (Z.to_int n).

End HTTP.

(** ** Package proxy and the middleware of package ratelimiter *)

Module Proxy.

Import HTTP.
Local Open Scope string_scope.

(** [extractClientIP] of the rate limiting middleware. *)
Definition extractClientIP (r : Request) : string :=
  let ip := Get (RequestHeader r) "X-Real-IP" in
  let ip := if String.eqb ip "" then Get (RequestHeader r) "X-Forwarded-For" else ip in
  let ip := if String.eqb ip ""
            then match SplitHostPort (RemoteAddr r) with
                 | Some (host, _) => host
                 | None => ""
                 end
            else ip in
  TrimSpace ip.

(** [getClientIP] of the proxy handler. *)
Definition getClientIP (r : Request) : string :=
  let ip := Get (RequestHeader r) "X-Real-IP" in
  if negb (String.eqb ip "") then TrimSpace ip
  else
    let ip := Get (RequestHeader r) "X-Forwarded-For" in
    if negb (String.eqb ip "") then TrimSpace (hd "" (Split ip ","))
    else
      match SplitHostPort (RemoteAddr r) with
      | Some (ip, _) => TrimSpace ip
      | None => TrimSpace ""
      end.

(** The contract [identify] in the words of the specification. *)
Definition identify (r : Request) : string :=
  let trusted := Get (RequestHeader r) "X-Real-IP" in
  if negb (String.eqb trusted "") then TrimSpace trusted
  else
    match RequestHeader r !! CanonicalMIMEHeaderKey "X-Forwarded-For" with
    | Some (forwarded :: _) => TrimSpace (hd "" (Split forwarded ","))
    | _ =>
        match SplitHostPort (RemoteAddr r) with
        | Some (host, _) => TrimSpace host
        | None => ""
        end
    end.

Record errorResponse : Type := { Code : Z; Message : string }.

(** [json.NewEncoder(w).Encode(e)]: the object on one line. *)
Definition Encode (e : errorResponse) : string :=
  "{" ++ json_string "code" ++ ":" ++ json_int (Code e) ++ ","
      ++ json_string "message" ++ ":" ++ json_string (Message e) ++ "}" ++ newline.

Definition sendJSONError (statusCode : Z) (message : string) : Response :=
  {| StatusCode := statusCode;
     ResponseHeader := [("Content-Type", "application/json")];
     Body := Encode {| Code := statusCode; Message := message |} |}.

(** The error body of the response contract. *)
Definition is_json_error (code : Z) (body : string) : Prop :=
  exists message : string, body = Encode {| Code := code; Message := message |}.

Record ProxyServer : Type :=
  { balancer : Balancer.RoundRobinLoadBalancer;
    rateLimiter : RateLimiter.State }.

(** The transport is a black box: the response of the backend at an address,
    or no response when the attempt fails. *)
Definition Transport : Type := string -> Request -> option Response.

(** [handleProxy]: select, forward, and on a transport error mark the target
    and answer 503. A panic of the selection ends the handler without a
    response. *)
Definition handleProxy (roundTrip : Transport) (r : Request) (p : ProxyServer)
  : Outcome Response * ProxyServer :=
  let clientIP := getClientIP r in
  let '(selected, lb) := Balancer.NextAvailableBackend (balancer p) in
  let p1 := {| balancer := lb; rateLimiter := rateLimiter p |} in
  match selected with
  | Panic => (Panic, p1)
  | Ret None => (Ret (sendJSONError 503 "No available backends"), p1)
  | Ret (Some index) =>
      match Balancer.backends lb !! index with
      | None => (Panic, p1)
      | Some target =>
          match roundTrip (Balancer.Address target) r with
          | Some response => (Ret response, p1)
          | None =>
              (Ret (sendJSONError 503 "Backend unavailable"),
               {| balancer := Balancer.MarkBackendUnhealthy lb (Balancer.Address target);
                  rateLimiter := rateLimiter p |})
          end
      end
  end.

(** [RateLimitMiddleware] around a handler; [created], [now] and [seen] are
    the clock readings of [rl.Allow]. *)
Definition RateLimitMiddleware
  (next : Request -> ProxyServer -> Outcome Response * ProxyServer)
  (created now seen : Time.Time) (r : Request) (p : ProxyServer)
  : Outcome Response * ProxyServer :=
  let clientID := extractClientIP r in
  let '(ok, rl) := RateLimiter.Allow clientID created now seen (rateLimiter p) in
  let p1 := {| balancer := balancer p; rateLimiter := rl |} in
  if negb ok then (Ret (Error "Rate limit exceeded" 429), p1)
  else next r p1.

(** [http.ServeMux] with the single pattern ["/"], as [Start] registers it,
    is a black box of the library: it either answers a request itself and
    does not call the handler (301 for a path that is not clean, 400 for the
    request URI ["*"]), or it dispatches the request to the handler. [None]
    stands for the dispatch, [Some response] for the answer of the mux. *)
Definition ServeMux : Type := Request -> option Response.

Definition dispatch (mux : ServeMux)
  (handler : Request -> ProxyServer -> Outcome Response * ProxyServer)
  (r : Request) (p : ProxyServer) : Outcome Response * ProxyServer :=
  match mux r with
  | Some response => (Ret response, p)
  | None => handler r p
  end.

(** The handler installed by [Start]: every request goes through the
    middleware to the mux, and from the mux to [handleProxy]. *)
Definition ServeHTTP (mux : ServeMux) (roundTrip : Transport) (created now seen : Time.Time)
  (r : Request) (p : ProxyServer) : Outcome Response * ProxyServer :=
  RateLimitMiddleware (dispatch mux (handleProxy roundTrip)) created now seen r p.

(** The configuration as [config.Load] returns it. *)
Record RateLimitSection : Type := { Capacity : Z; RefillRate : Z }.

Record Config : Type :=
  { Port : Z; Backends : list string; RateLimit : RateLimitSection }.

(** [NewProxyServer]: a balancer over the configured backends and a limiter
    with the configured defaults. [parse] is the URL parser handed on to
    [NewRoundRobinLoadBalancer]. *)
Definition NewProxyServer (parse : string -> option string) (cfg : Config) : ProxyServer :=
  {| balancer := Balancer.NewRoundRobinLoadBalancer parse (Backends cfg);
     rateLimiter := RateLimiter.initial (Capacity (RateLimit cfg)) (RefillRate (RateLimit cfg)) |}.

(** [cleanupStaleClients]: at every tick of the ticker one sweep of the
    limiter with a lifetime of five minutes; [ticks] are the clock readings
    of the sweeps in the order of the ticks. *)
Definition cleanupStaleClients (ticks : list Time.Time) (p : ProxyServer) : ProxyServer :=
  fold_left
    (fun (q : ProxyServer) (now : Time.Time) =>
       {| balancer := balancer q;
          rateLimiter := RateLimiter.Cleanup (5 * Time.Minute) now (rateLimiter q) |})
    ticks p.

(** A request that came through two proxies. *)
Definition forwarded_request : Request :=
  {| RequestHeader := {[ "X-Forwarded-For" := ["10.0.0.1, 10.0.0.2"] ]};
     RemoteAddr := "192.168.1.7:51234" |}.

Definition direct_request : Request :=
  {| RequestHeader := ∅; RemoteAddr := "192.168.1.7:51234" |}.

(** A server with three live backends and a limiter of capacity 1. *)
Definition small_server : ProxyServer :=
  {| balancer := Balancer.set_cursor Balancer.pool_at_wrap 0;
     rateLimiter := RateLimiter.initial 1 1 |}.

(** A transport on which every attempt fails, and one on which the backend
    always answers 200. *)
Definition failing_transport : Transport := fun _ _ => None.

Definition echo_transport : Transport :=
  fun address _ => Some {| StatusCode := 200; ResponseHeader := []; Body := address |}.

(** A mux that dispatches every request, as the mux of [Start] does with
    the requests for a clean path. *)
Definition dispatching_mux : ServeMux := fun _ => None.

(** [small_server] after one request of [direct_request] at instant 0. *)
Definition busy_server : ProxyServer :=
  snd (ServeHTTP dispatching_mux echo_transport 0 0 0 direct_request small_server).

End Proxy.

(** * Proofs *)

Module BalancerFacts.
Import Balancer.

Lemma wrap32_small z : 0 <= z < 2 ^ 32 -> wrap32 z = z.
Proof. intros H. unfold wrap32. apply Z.mod_small. exact H. Qed.

Lemma wrap32_add_l a b : wrap32 (wrap32 a + b) = wrap32 (a + b).
Proof. unfold wrap32. apply Zplus_mod_idemp_l. Qed.

Lemma wrap32_range z : 0 <= wrap32 z < 2 ^ 32.
Proof. unfold wrap32. apply Z.mod_pos_bound. lia. Qed.

Lemma lookup_flag (v : bool) (bs : list Backend) (i : nat) :
  Forall (fun b => IsAlive b = v) bs -> (i < length bs)%nat ->
  exists b, bs !! i = Some b /\ IsAlive b = v.
Proof.
  intros Hall Hi. destruct (lookup_lt_is_Some_2 bs i Hi) as [b Hb].
  exists b. split; [exact Hb|].
  exact (Forall_lookup_1 _ _ _ _ Hall Hb).
Qed.

Lemma index_in_range (cursor : Z) (n : nat) :
  (0 < n)%nat -> (Z.to_nat (cursor mod Z.of_nat n) < n)%nat.
Proof.
  intros Hn. assert (0 <= cursor mod Z.of_nat n < Z.of_nat n) by (apply Z.mod_pos_bound; lia).
  lia.
Qed.

(** One call on a pool whose backends are all alive: a single attempt. *)
Lemma next_all_alive lb :
  (0 < length (backends lb))%nat -> Z.of_nat (length (backends lb)) < 2 ^ 32 ->
  all_alive lb ->
  NextAvailableBackend lb =
    (Ret (Some (Z.to_nat (wrap32 (currentIndex lb + 1) mod Z.of_nat (length (backends lb))))),
     set_cursor lb (wrap32 (currentIndex lb + 1))).
Proof.
  intros Hpos Hlt Hall. unfold NextAvailableBackend.
  destruct (length (backends lb)) as [|k] eqn:Hlen; [lia|].
  cbn [attempt_loop]. rewrite wrap32_small by lia.
  destruct (Z.eqb_spec (Z.of_nat (S k)) 0) as [E|_]; [lia|].
  destruct (lookup_flag true (backends lb)
              (Z.to_nat (wrap32 (currentIndex lb + 1) mod Z.of_nat (S k))) Hall)
    as [b [Hb Ha]].
  { rewrite Hlen. apply index_in_range. lia. }
  rewrite Hb, Ha. reflexivity.
Qed.

Lemma selections_all_alive n : forall lb,
  (0 < length (backends lb))%nat -> Z.of_nat (length (backends lb)) < 2 ^ 32 ->
  all_alive lb ->
  fst (selections n lb) =
    map (fun i => Ret (Some (Z.to_nat (wrap32 (currentIndex lb + Z.of_nat i)
                                          mod Z.of_nat (length (backends lb))))))
        (seq 1 n)
  /\ backends (snd (selections n lb)) = backends lb
  /\ ((0 < n)%nat ->
      currentIndex (snd (selections n lb)) = wrap32 (currentIndex lb + Z.of_nat n)).
Proof.
  induction n as [|n IH]; intros lb Hpos Hlt Hall.
  { cbn. repeat split. lia. }
  cbn [selections]. rewrite next_all_alive by assumption.
  specialize (IH (set_cursor lb (wrap32 (currentIndex lb + 1))) Hpos Hlt Hall).
  destruct (selections n (set_cursor lb (wrap32 (currentIndex lb + 1)))) as [rs lb2] eqn:E.
  cbn [fst snd set_cursor backends currentIndex] in *.
  destruct IH as (Hrs & Hbs & Hc). repeat split.
  - cbn [seq map]. change (Z.of_nat 1) with 1. f_equal.
    rewrite Hrs, <- (seq_shift n 1), map_map.
    apply map_ext. intros i. rewrite wrap32_add_l.
    replace (currentIndex lb + 1 + Z.of_nat i) with (currentIndex lb + Z.of_nat (S i)) by lia.
    reflexivity.
  - exact Hbs.
  - intros _. destruct n as [|n].
    + cbn in E. inversion E; subst. reflexivity.
    + rewrite Hc by lia. rewrite wrap32_add_l.
      replace (currentIndex lb + 1 + Z.of_nat (S n)) with (currentIndex lb + Z.of_nat (S (S n))) by lia.
      reflexivity.
Qed.

Lemma reduced_index (c : Z) (n i : nat) :
  (0 < n)%nat -> (1 <= i <= n)%nat ->
  (0 <= c /\ c + Z.of_nat n < 2 ^ 32) \/ 2 ^ 32 mod Z.of_nat n = 0 ->
  wrap32 (c + Z.of_nat i) mod Z.of_nat n = (c + Z.of_nat i) mod Z.of_nat n.
Proof.
  intros Hn Hi [[Hc Hw]|Hd].
  - rewrite wrap32_small by lia. reflexivity.
  - unfold wrap32. apply Z.mod_mod_divide.
    apply Z.mod_divide; [lia|exact Hd].
Qed.

Lemma rotation_injective (c : Z) (n i j : nat) :
  (1 <= i <= n)%nat -> (1 <= j <= n)%nat ->
  Z.to_nat ((c + Z.of_nat i) mod Z.of_nat n) = Z.to_nat ((c + Z.of_nat j) mod Z.of_nat n) ->
  i = j.
Proof.
  intros Hi Hj E.
  assert (Hn : 0 < Z.of_nat n) by lia.
  pose proof (Z.mod_pos_bound (c + Z.of_nat i) _ Hn) as Bi.
  pose proof (Z.mod_pos_bound (c + Z.of_nat j) _ Hn) as Bj.
  assert (E' : (c + Z.of_nat i) mod Z.of_nat n = (c + Z.of_nat j) mod Z.of_nat n) by lia.
  pose proof (Z.div_mod (c + Z.of_nat i) (Z.of_nat n) ltac:(lia)) as Di.
  pose proof (Z.div_mod (c + Z.of_nat j) (Z.of_nat n) ltac:(lia)) as Dj.
  rewrite E' in Di.
  set (q := (c + Z.of_nat i) / Z.of_nat n - (c + Z.of_nat j) / Z.of_nat n).
  assert (Hq : Z.of_nat i - Z.of_nat j = Z.of_nat n * q) by (unfold q; lia).
  assert (q = 0) by nia.
  subst q. nia.
Qed.

Lemma rotation_permutation (c : Z) (n : nat) :
  Permutation (map (fun i => Z.to_nat ((c + Z.of_nat i) mod Z.of_nat n)) (seq 1 n)) (seq 0 n).
Proof.
  destruct n as [|k]; [constructor|]. set (n := S k).
  apply NoDup_Permutation_bis.
  - apply NoDup_ListNoDup.
    apply NoDup_fmap_2_strong; [|apply NoDup_ListNoDup, seq_NoDup].
    intros i j Hi Hj E.
    apply list_elem_of_In, in_seq in Hi. apply list_elem_of_In, in_seq in Hj.
    apply (rotation_injective c n); [lia|lia|exact E].
  - rewrite length_map, !length_seq. lia.
  - intros x Hx. apply in_map_iff in Hx. destruct Hx as (i & <- & _).
    apply in_seq. pose proof (index_in_range (c + Z.of_nat i) n). lia.
Qed.

(** C5, as amended: on a pool of [1 <= N < 2 ^ 32] live backends, [N]
    sequential calls return every backend exactly once, the [k]-th call
    returning position [(c + 1 + k) mod N] for the starting cursor [c], and
    every call advances the cursor by one, provided the 32-bit cursor does not
    wrap around within these calls or [N] divides [2 ^ 32]. *)
Theorem round_robin_coverage (lb : RoundRobinLoadBalancer) (N : nat) (c : Z) :
  N = length (backends lb) -> c = currentIndex lb ->
  (1 <= N)%nat -> Z.of_nat N < 2 ^ 32 -> all_alive lb ->
  (0 <= c /\ c + Z.of_nat N < 2 ^ 32) \/ 2 ^ 32 mod Z.of_nat N = 0 ->
  exists order : list nat,
    fst (selections N lb) = map (fun i => Ret (Some i)) order
    /\ Permutation order (seq 0 N)
    /\ (forall k : nat, (k < N)%nat ->
          order !! k = Some (Z.to_nat ((c + 1 + Z.of_nat k) mod Z.of_nat N)))
    /\ (forall n : nat, (1 <= n <= N)%nat ->
          currentIndex (snd (selections n lb)) = wrap32 (c + Z.of_nat n))
    /\ backends (snd (selections N lb)) = backends lb.
Proof.
  intros HN Hc Hpos Hlt Hall Hwrap. subst N c.
  set (N := length (backends lb)) in *. set (c := currentIndex lb) in *.
  exists (map (fun i => Z.to_nat ((c + Z.of_nat i) mod Z.of_nat N)) (seq 1 N)).
  destruct (selections_all_alive N lb ltac:(fold N; lia) Hlt Hall) as (Hrs & Hbs & _).
  repeat split.
  - rewrite Hrs, map_map. apply map_ext_in. intros i Hi. apply in_seq in Hi.
    fold N c. rewrite reduced_index by (assumption || lia). reflexivity.
  - apply rotation_permutation.
  - intros k Hk. rewrite list_lookup_fmap, lookup_seq_lt by lia. cbn.
    do 3 f_equal. lia.
  - intros n Hn.
    destruct (selections_all_alive n lb ltac:(fold N; lia) Hlt Hall) as (_ & _ & Hcur).
    apply Hcur. lia.
  - exact Hbs.
Qed.

Lemma round_robin_coverage_witness :
  exists order : list nat,
    fst (selections 3 (set_cursor pool_at_wrap 7)) = map (fun i => Ret (Some i)) order
    /\ Permutation order (seq 0 3).
Proof.
  destruct (round_robin_coverage (set_cursor pool_at_wrap 7) 3 7 eq_refl eq_refl)
    as (order & H1 & H2 & _).
  - lia.
  - cbn. lia.
  - repeat constructor.
  - left. cbn. lia.
  - exists order. split; [exact H1|exact H2].
Defined.

(** C5 fails as stated: when the [uint32] cursor wraps around inside the
    three calls, position 0 is returned twice in a row and position 2 is
    skipped. *)
Lemma round_robin_repeats_at_wrap :
  all_alive pool_at_wrap
  /\ fst (selections 3 pool_at_wrap) = [Ret (Some 0%nat); Ret (Some 0%nat); Ret (Some 1%nat)]
  /\ ~ (exists order : list nat,
         fst (selections 3 pool_at_wrap) = map (fun i => Ret (Some i)) order
         /\ Permutation order (seq 0 3)).
Proof.
  split; [repeat constructor|]. split; [vm_compute; reflexivity|].
  intros (order & Hsel & Hperm).
  assert (Hord : order = [0; 0; 1]%nat).
  { vm_compute in Hsel.
    destruct order as [|a [|b [|d [|? ?]]]]; cbn in Hsel; try discriminate.
    inversion Hsel; subst. reflexivity. }
  subst order. apply Permutation_sym, (Permutation_in 2%nat) in Hperm.
  - cbn in Hperm. lia.
  - cbn. lia.
Qed.

(** *** Pools without a live backend *)

Lemma attempts_none_alive (k : nat) : forall lb,
  (k <= length (backends lb))%nat -> Z.of_nat (length (backends lb)) < 2 ^ 32 ->
  none_alive lb ->
  attempt_loop k (Z.of_nat (length (backends lb))) lb =
    (Ret None, Nat.iter k (fun l => set_cursor l (wrap32 (currentIndex l + 1))) lb).
Proof.
  induction k as [|k IH]; intros lb Hk Hlt Hdead; [reflexivity|].
  cbn [attempt_loop]. rewrite wrap32_small by lia.
  destruct (Z.eqb_spec (Z.of_nat (length (backends lb))) 0) as [E|_]; [lia|].
  destruct (lookup_flag false (backends lb)
              (Z.to_nat (wrap32 (currentIndex lb + 1) mod Z.of_nat (length (backends lb)))) Hdead)
    as [b [Hb Ha]].
  { apply index_in_range. lia. }
  rewrite Hb, Ha.
  pose proof (IH (set_cursor lb (wrap32 (currentIndex lb + 1)))) as IH'.
  cbn [set_cursor backends] in IH'. rewrite IH' by (assumption || lia).
  rewrite Nat.iter_succ_r. reflexivity.
Qed.

Lemma iter_cursor_backends (k : nat) lb :
  backends (Nat.iter k (fun l => set_cursor l (wrap32 (currentIndex l + 1))) lb) = backends lb.
Proof. induction k as [|k IH]; [reflexivity|]. cbn. exact IH. Qed.

Lemma next_none_alive lb :
  Z.of_nat (length (backends lb)) < 2 ^ 32 -> none_alive lb ->
  fst (NextAvailableBackend lb) = Ret None
  /\ backends (snd (NextAvailableBackend lb)) = backends lb.
Proof.
  intros Hlt Hdead. unfold NextAvailableBackend.
  rewrite attempts_none_alive by (assumption || lia).
  split; [reflexivity|]. apply iter_cursor_backends.
Qed.

(** C6, as amended: on an empty pool, and on a pool of fewer than [2 ^ 32]
    backends none of which is alive, every call returns nil, whatever the
    cursor; on the empty pool no attempt is made at all, so that no remainder
    is computed and the cursor is left as it was. *)
Theorem none_available (lb : RoundRobinLoadBalancer) :
  Z.of_nat (length (backends lb)) < 2 ^ 32 -> none_alive lb ->
  forall n : nat,
    Forall (fun r => r = Ret None) (fst (selections n lb))
    /\ length (fst (selections n lb)) = n
    /\ (backends lb = [] -> snd (selections n lb) = lb).
Proof.
  intros Hlt Hdead n. revert lb Hlt Hdead.
  induction n as [|n IH]; intros lb Hlt Hdead.
  { cbn. repeat split. constructor. }
  cbn [selections].
  destruct (next_none_alive lb Hlt Hdead) as [Hr Hb].
  destruct (NextAvailableBackend lb) as [r lb1] eqn:E. cbn [fst snd] in *.
  assert (Hlt1 : Z.of_nat (length (backends lb1)) < 2 ^ 32) by (rewrite Hb; exact Hlt).
  assert (Hdead1 : none_alive lb1) by (unfold none_alive; rewrite Hb; exact Hdead).
  destruct (IH lb1 Hlt1 Hdead1) as (Hall & Hlen & Hsame).
  destruct (selections n lb1) as [rs lb2]. cbn [fst snd] in *.
  repeat split.
  - constructor; assumption.
  - cbn. lia.
  - intros Hnil. unfold NextAvailableBackend in E. rewrite Hnil in E. cbn in E.
    inversion E; subst lb1. apply Hsame. exact Hnil.
Qed.

Lemma none_available_witness :
  fst (selections 2 (MarkBackendUnhealthy (set_cursor pool_one_down 4294967295) "http://s1:8081"))
  = [Ret None; Ret None].
Proof.
  pose proof (none_available
                (MarkBackendUnhealthy (set_cursor pool_one_down 4294967295) "http://s1:8081")) as H.
  destruct (H ltac:(cbn; lia) ltac:(repeat constructor) 2%nat) as (Hall & Hlen & _).
  destruct (fst (selections 2 _)) as [|a [|b [|? ?]]]; try discriminate Hlen.
  inversion Hall as [|? ? Ha Hall']; subst. inversion Hall' as [|? ? Hb _]; subst.
  reflexivity.
Defined.

Lemma attempt_zero_divisor (k : nat) (total : Z) lb :
  (0 < k)%nat -> wrap32 total = 0 -> fst (attempt_loop k total lb) = Panic.
Proof.
  intros Hk Hz. destruct k as [|k]; [lia|].
  cbn [attempt_loop]. rewrite Hz. reflexivity.
Qed.

(** C6 fails as stated on a pool whose size is a multiple of [2 ^ 32]:
    [uint32(total)] is zero and the first attempt divides by it. *)
Lemma none_available_uint32_pool :
  none_alive pool_of_uint32_size
  /\ fst (NextAvailableBackend pool_of_uint32_size) = Panic
  /\ fst (NextAvailableBackend pool_of_uint32_size) <> Ret None.
Proof.
  assert (Hp : fst (NextAvailableBackend pool_of_uint32_size) = Panic).
  { unfold NextAvailableBackend, pool_of_uint32_size. cbn [backends].
    rewrite length_replicate. apply attempt_zero_divisor; [lia|].
    rewrite Z2Nat.id by lia. reflexivity. }
  split; [|split; [exact Hp|rewrite Hp; discriminate]].
  unfold none_alive, pool_of_uint32_size. cbn [backends].
  apply Forall_replicate. reflexivity.
Qed.

(** *** Failure feedback *)

Lemma mark_loop_addresses (bs : list Backend) (X : string) :
  map Address (mark_loop bs X) = map Address bs.
Proof.
  induction bs as [|b bs IH]; [reflexivity|].
  cbn [mark_loop]. destruct (String.eqb (Address b) X); cbn [map]; [reflexivity|].
  rewrite IH. reflexivity.
Qed.

Lemma mark_loop_absent (bs : list Backend) (X : string) :
  (forall b, b ∈ bs -> Address b <> X) -> mark_loop bs X = bs.
Proof.
  induction bs as [|b bs IH]; intros Hno; [reflexivity|].
  cbn [mark_loop]. destruct (String.eqb_spec (Address b) X) as [E|_].
  - exfalso. apply (Hno b); [left|exact E].
  - rewrite IH; [reflexivity|]. intros b' Hb'. apply Hno. right. exact Hb'.
Qed.

Lemma mark_loop_first (bs : list Backend) (X : string) : forall (i : nat) (b : Backend),
  bs !! i = Some b -> Address b = X ->
  (forall (j : nat) (b' : Backend), (j < i)%nat -> bs !! j = Some b' -> Address b' <> X) ->
  mark_loop bs X = <[i := mark_dead b]> bs.
Proof.
  induction bs as [|b0 bs IH]; intros i b Hi HX Hfirst; [discriminate|].
  cbn [mark_loop]. destruct i as [|i].
  - cbn in Hi. inversion Hi; subst b0. rewrite HX, String.eqb_refl. reflexivity.
  - destruct (String.eqb_spec (Address b0) X) as [E|_].
    + exfalso. apply (Hfirst 0%nat b0); [lia|reflexivity|exact E].
    + cbn. f_equal. apply IH; [exact Hi|exact HX|].
      intros j b' Hj Hb'. apply (Hfirst (S j) b'); [lia|exact Hb'].
Qed.

Lemma mark_loop_others (bs : list Backend) (X : string) : forall (i : nat) (b : Backend),
  bs !! i = Some b -> Address b <> X -> mark_loop bs X !! i = Some b.
Proof.
  induction bs as [|b0 bs IH]; intros i b Hi HX; [discriminate|].
  cbn [mark_loop]. destruct (String.eqb_spec (Address b0) X) as [E|_].
  - destruct i as [|i]; [|exact Hi].
    cbn in Hi. inversion Hi; subst b0. contradiction.
  - destruct i as [|i]; [exact Hi|]. cbn. apply IH; assumption.
Qed.

Lemma mark_loop_idempotent (bs : list Backend) (X : string) :
  mark_loop (mark_loop bs X) X = mark_loop bs X.
Proof.
  induction bs as [|b bs IH]; [reflexivity|].
  cbn [mark_loop]. destruct (String.eqb (Address b) X) eqn:E; cbn [mark_loop mark_dead Address].
  - rewrite E. reflexivity.
  - rewrite E, IH. reflexivity.
Qed.

(** C7: [MarkBackendUnhealthy] stores [false] in the flag of the backend whose
    address is the target (the first one in pool order) and touches nothing
    else: the cursor, the sequence of addresses and every backend with
    another address stay as they are; marking twice is marking once; with no
    backend at that address the whole state is unchanged. *)
Theorem mark_unhealthy_frame (lb : RoundRobinLoadBalancer) (X : string) :
  currentIndex (MarkBackendUnhealthy lb X) = currentIndex lb
  /\ map Address (backends (MarkBackendUnhealthy lb X)) = map Address (backends lb)
  /\ (forall (i : nat) (b : Backend),
        backends lb !! i = Some b -> Address b <> X ->
        backends (MarkBackendUnhealthy lb X) !! i = Some b)
  /\ (forall (i : nat) (b : Backend),
        backends lb !! i = Some b -> Address b = X ->
        (forall (j : nat) (b' : Backend),
            (j < i)%nat -> backends lb !! j = Some b' -> Address b' <> X) ->
        backends (MarkBackendUnhealthy lb X) =
          <[i := {| Address := X; IsAlive := false |}]> (backends lb))
  /\ MarkBackendUnhealthy (MarkBackendUnhealthy lb X) X = MarkBackendUnhealthy lb X
  /\ ((forall b, b ∈ backends lb -> Address b <> X) -> MarkBackendUnhealthy lb X = lb).
Proof.
  unfold MarkBackendUnhealthy. cbn [backends currentIndex]. repeat split.
  - apply mark_loop_addresses.
  - intros i b Hi HX. apply mark_loop_others; assumption.
  - intros i b Hi HX Hfirst. rewrite (mark_loop_first _ _ i b Hi HX Hfirst).
    unfold mark_dead. rewrite HX. reflexivity.
  - rewrite mark_loop_idempotent. reflexivity.
  - intros Hno. rewrite mark_loop_absent by exact Hno. destruct lb; reflexivity.
Qed.

Lemma mark_unhealthy_frame_witness :
  backends (MarkBackendUnhealthy pool_at_wrap "http://s2:8082") !! 2%nat
    = Some {| Address := "http://s3:8083"; IsAlive := true |}
  /\ backends (MarkBackendUnhealthy pool_at_wrap "http://s2:8082")
    = <[1%nat := {| Address := "http://s2:8082"; IsAlive := false |}]> (backends pool_at_wrap)
  /\ MarkBackendUnhealthy pool_at_wrap "http://s9:9" = pool_at_wrap.
Proof.
  destruct (mark_unhealthy_frame pool_at_wrap "http://s2:8082") as (_ & _ & Ho & Hf & _).
  destruct (mark_unhealthy_frame pool_at_wrap "http://s9:9") as (_ & _ & _ & _ & _ & Hn).
  split; [|split].
  - apply Ho; [reflexivity|discriminate].
  - apply (Hf 1%nat {| Address := "http://s2:8082"; IsAlive := true |}); [reflexivity|reflexivity|].
    intros [|j] b' Hj Hb'; [|lia]. cbn in Hb'. inversion Hb'; subst. discriminate.
  - apply Hn. intros b Hb. cbn in Hb.
    repeat (apply elem_of_cons in Hb; destruct Hb as [->|Hb]; [discriminate|]).
    apply elem_of_nil in Hb. contradiction.
Defined.

End BalancerFacts.

Module Float64Facts.
Import Float64.

(** *** Digits and powers of two *)

Lemma fexp_fexp64 e : fexp prec emax e = fexp64 e.
Proof. reflexivity. Qed.

Lemma pow2_pos k : 0 <= k -> 0 < 2 ^ k.
Proof. intros. apply Z.pow_pos_nonneg; lia. Qed.

Lemma pow2_nonneg k : 0 <= 2 ^ k.
Proof. apply Z.pow_nonneg. lia. Qed.

Lemma pow2_le j k : j <= k -> 2 ^ j <= 2 ^ k.
Proof.
  intros H. destruct (Z.le_gt_cases 0 j) as [Hj|Hj].
  - apply Z.pow_le_mono_r; lia.
  - rewrite (Z.pow_neg_r 2 j) by lia. apply pow2_nonneg.
Qed.

Lemma pow2_lt_inv j k : 0 <= k -> 2 ^ j < 2 ^ k -> j < k.
Proof.
  intros Hk H. destruct (Z.lt_ge_cases j k) as [|Hge]; [assumption|].
  pose proof (pow2_le k j Hge). lia.
Qed.

Lemma pow2_split j k : 0 <= j -> 0 <= k -> 2 ^ (j + k) = 2 ^ j * 2 ^ k.
Proof. intros. apply Z.pow_add_r; assumption. Qed.

Lemma digits_pos m : 1 <= digits m.
Proof. unfold digits. lia. Qed.

Lemma digits_bounds m : 2 ^ (digits m - 1) <= Z.pos m < 2 ^ digits m.
Proof.
  unfold digits. induction m as [m IH|m IH|]; cbn [digits2_pos].
  - rewrite Pos2Z.inj_succ. set (d := Z.pos (digits2_pos m)) in *.
    assert (1 <= d) by (unfold d; lia). clearbody d.
    replace (Z.succ d - 1) with (Z.succ (d - 1)) by lia.
    rewrite (Z.pow_succ_r 2 d), (Z.pow_succ_r 2 (d - 1)) by lia. lia.
  - rewrite Pos2Z.inj_succ. set (d := Z.pos (digits2_pos m)) in *.
    assert (1 <= d) by (unfold d; lia). clearbody d.
    replace (Z.succ d - 1) with (Z.succ (d - 1)) by lia.
    rewrite (Z.pow_succ_r 2 d), (Z.pow_succ_r 2 (d - 1)) by lia. lia.
  - cbn. lia.
Qed.

Lemma digits_unique m k : 2 ^ (k - 1) <= Z.pos m < 2 ^ k -> digits m = k.
Proof.
  intros [Hlo Hhi]. pose proof (digits_bounds m) as [Dlo Dhi].
  pose proof (digits_pos m).
  assert (0 <= k).
  { destruct (Z.le_gt_cases 0 k); [assumption|]. rewrite Z.pow_neg_r in Hhi; lia. }
  assert (digits m - 1 < k) by (apply pow2_lt_inv; lia).
  assert (k - 1 < digits m) by (apply pow2_lt_inv; lia).
  lia.
Qed.

(** Dividing by a power of two removes that many digits. *)
Lemma digits_shift_right m n q :
  0 <= n < digits m -> Z.pos q = Z.pos m / 2 ^ n -> digits q = digits m - n.
Proof.
  intros Hn Hq. apply digits_unique. rewrite Hq.
  pose proof (digits_bounds m) as [Dlo Dhi]. pose proof (pow2_pos n ltac:(lia)).
  split.
  - apply Z.div_le_lower_bound; [lia|].
    rewrite <- pow2_split by lia. replace (n + (digits m - n - 1)) with (digits m - 1) by lia.
    exact Dlo.
  - apply Z.div_lt_upper_bound; [lia|].
    rewrite <- pow2_split by lia. replace (n + (digits m - n)) with (digits m) by lia.
    exact Dhi.
Qed.

Lemma digits_shift_left m n q :
  0 <= n -> Z.pos q = Z.pos m * 2 ^ n -> digits q = digits m + n.
Proof.
  intros Hn Hq. apply digits_unique. rewrite Hq.
  pose proof (digits_bounds m) as [Dlo Dhi]. pose proof (pow2_pos n ltac:(lia)).
  pose proof (digits_pos m).
  replace (digits m + n - 1) with (digits m - 1 + n) by lia.
  rewrite !pow2_split by lia. nia.
Qed.

(** *** Shifting right with round and sticky bits *)

Lemma loc_exact mrs : loc_of_shr_record mrs = loc_Exact <-> exact mrs.
Proof.
  unfold exact. destruct mrs as [m [|] [|]]; cbn; split; intros H;
    try discriminate; try reflexivity; try (destruct H; discriminate); auto.
Qed.

Lemma record_of_loc m l :
  shr_m (shr_record_of_loc m l) = m
  /\ (exact (shr_record_of_loc m l) <-> l = loc_Exact).
Proof.
  unfold exact. destruct l as [|[| |]]; cbn; (split; [reflexivity|]); split; intros H;
    try discriminate; try (destruct H; discriminate); auto.
Qed.

Lemma half_xI p : Z.pos p~1 / 2 = Z.pos p.
Proof. symmetry. apply (Z.div_unique (Z.pos p~1) 2 (Z.pos p) 1); lia. Qed.

Lemma half_xO p : Z.pos p~0 / 2 = Z.pos p.
Proof. symmetry. apply (Z.div_unique (Z.pos p~0) 2 (Z.pos p) 0); lia. Qed.

Lemma shr_1_spec mrs :
  0 <= shr_m mrs ->
  shr_m (shr_1 mrs) = shr_m mrs / 2
  /\ (exact (shr_1 mrs) <-> exact mrs /\ shr_m mrs = 2 * (shr_m mrs / 2)).
Proof.
  unfold exact. destruct mrs as [m r s]. cbn [shr_m]. intros Hm.
  destruct m as [|[p|p|]|p]; try lia; cbn [shr_1 shr_m shr_r shr_s].
  - split; [reflexivity|]. destruct r, s; cbn; intuition (try discriminate; try lia).
  - rewrite half_xI. split; [reflexivity|].
    destruct r, s; cbn; intuition (try discriminate; try lia).
  - rewrite half_xO. split; [reflexivity|].
    destruct r, s; cbn; intuition (try discriminate; try lia).
  - split; [reflexivity|]. change (1 / 2) with 0.
    destruct r, s; cbn; intuition (try discriminate; try lia).
Qed.

Lemma shifted_trans j k a b c :
  0 <= j -> 0 <= k -> 0 <= shr_m a ->
  shifted j a b -> shifted k b c -> shifted (j + k) a c.
Proof.
  intros Hj Hk Ha [Hb Eb] [Hc Ec]. unfold shifted.
  pose proof (pow2_pos j Hj). pose proof (pow2_pos k Hk).
  rewrite pow2_split by assumption. split.
  - rewrite Hc, Hb. apply Z.div_div; lia.
  - rewrite Ec, Eb. split.
    + intros [[Ea E1] E2]. split; [exact Ea|]. rewrite E1 at 1. rewrite E2 at 1. ring.
    + intros [Ea E]. 
      assert (Hbc : shr_m b = shr_m c * 2 ^ k).
      { rewrite Hb. rewrite E at 1.
        replace (shr_m c * (2 ^ j * 2 ^ k)) with (shr_m c * 2 ^ k * 2 ^ j) by ring.
        rewrite Z.div_mul by lia. reflexivity. }
      split; [split; [exact Ea|]|exact Hbc].
      rewrite E at 1. rewrite Hbc. ring.
Qed.

Lemma shifted_nonneg n a b : 0 <= n -> 0 <= shr_m a -> shifted n a b -> 0 <= shr_m b.
Proof.
  intros Hn Ha [Hb _]. rewrite Hb. apply Z.div_pos; [assumption|apply pow2_pos; assumption].
Qed.

Lemma shr_1_shifted mrs : 0 <= shr_m mrs -> shifted 1 mrs (shr_1 mrs).
Proof.
  intros H. destruct (shr_1_spec mrs H) as [Hm He]. unfold shifted.
  change (2 ^ 1) with 2. split; [exact Hm|]. rewrite He, Hm. intuition lia.
Qed.

Lemma iter_shr_1 (p : positive) : forall mrs,
  0 <= shr_m mrs -> shifted (Z.pos p) mrs (SpecFloat.iter_pos shr_1 p mrs).
Proof.
  induction p as [p IH|p IH|]; intros mrs Hm; cbn [SpecFloat.iter_pos].
  - pose proof (shr_1_shifted mrs Hm) as S1.
    pose proof (shifted_nonneg 1 _ _ Z.le_0_1 Hm S1) as H1.
    pose proof (IH _ H1) as S2.
    pose proof (shifted_nonneg _ _ _ (Pos2Z.is_nonneg p) H1 S2) as H2.
    pose proof (IH _ H2) as S3.
    replace (Z.pos p~1) with (1 + (Z.pos p + Z.pos p)) by lia.
    eapply shifted_trans; [lia|lia|exact Hm|exact S1|].
    eapply shifted_trans; [lia|lia|exact H1|exact S2|exact S3].
  - pose proof (IH _ Hm) as S1.
    pose proof (shifted_nonneg _ _ _ (Pos2Z.is_nonneg p) Hm S1) as H1.
    pose proof (IH _ H1) as S2.
    replace (Z.pos p~0) with (Z.pos p + Z.pos p) by lia.
    eapply shifted_trans; [lia|lia|exact Hm|exact S1|exact S2].
  - apply shr_1_shifted. exact Hm.
Qed.

Lemma shr_fexp_spec (m : positive) (e : Z) (l : location) :
  e <= fexp64 (digits m + e) ->
  exists mrs,
    shr_fexp prec emax (Z.pos m) e l = (mrs, fexp64 (digits m + e))
    /\ shr_m mrs = Z.pos m / 2 ^ (fexp64 (digits m + e) - e)
    /\ (exact mrs <->
        l = loc_Exact /\ Z.pos m = shr_m mrs * 2 ^ (fexp64 (digits m + e) - e)).
Proof.
  intros Hn. unfold shr_fexp. rewrite fexp_fexp64. cbn [Zdigits2]. fold (digits m).
  set (f := fexp64 (digits m + e)) in *.
  destruct (record_of_loc (Z.pos m) l) as [R1 R2].
  unfold shr. destruct (f - e) as [|p|p] eqn:En; try lia.
  - exists (shr_record_of_loc (Z.pos m) l). replace f with e by lia.
    rewrite Z.div_1_r, Z.mul_1_r, R1, R2. intuition.
  - exists (SpecFloat.iter_pos shr_1 p (shr_record_of_loc (Z.pos m) l)).
    destruct (iter_shr_1 p (shr_record_of_loc (Z.pos m) l)) as [Hm He]; [rewrite R1; lia|].
    rewrite R1 in Hm, He. rewrite R2 in He.
    split; [f_equal; lia|]. split; [exact Hm|exact He].
Qed.

Lemma digits_mono m m' : Z.pos m <= Z.pos m' -> digits m <= digits m'.
Proof.
  intros H. pose proof (digits_bounds m) as [Lo _]. pose proof (digits_bounds m') as [_ Hi].
  pose proof (digits_pos m').
  assert (digits m - 1 < digits m') by (apply pow2_lt_inv; lia). lia.
Qed.

(** *** Rounding keeps a value between two powers of two *)

Lemma shift_right_spec (m : positive) (e a b : Z) :
  e <= fexp64 (digits m + e) -> -1074 < digits m + e ->
  2 ^ (a - e) <= Z.pos m <= 2 ^ (b - e) ->
  exists m1 : positive,
    Z.pos m1 = Z.pos m / 2 ^ (fexp64 (digits m + e) - e)
    /\ digits m1 + fexp64 (digits m + e) = digits m + e
    /\ 2 ^ (a - fexp64 (digits m + e)) <= Z.pos m1 <= 2 ^ (b - fexp64 (digits m + e)).
Proof.
  intros Hn Hmin [Hlo Hhi]. set (f := fexp64 (digits m + e)) in *.
  assert (Hf : f < digits m + e) by (unfold f, fexp64; lia).
  pose proof (digits_bounds m) as [Dlo Dhi]. pose proof (digits_pos m) as Dpos.
  pose proof (pow2_pos (f - e) ltac:(lia)) as Hp.
  assert (Hq : 1 <= Z.pos m / 2 ^ (f - e)).
  { apply Z.div_le_lower_bound; [lia|]. rewrite Z.mul_1_r.
    transitivity (2 ^ (digits m - 1)); [apply pow2_le; lia|exact Dlo]. }
  destruct (Z.pos m / 2 ^ (f - e)) as [|m1|m1] eqn:E; try lia.
  exists m1. split; [reflexivity|]. split.
  - rewrite (digits_shift_right m (f - e) m1); [lia|lia|symmetry; exact E].
  - rewrite <- E. split.
    + destruct (Z.le_gt_cases 0 (a - f)) as [Ha|Ha].
      * apply Z.div_le_lower_bound; [lia|].
        rewrite <- pow2_split by lia. replace (f - e + (a - f)) with (a - e) by lia.
        exact Hlo.
      * rewrite Z.pow_neg_r by lia. lia.
    + destruct (Z.le_gt_cases 0 (b - f)) as [Hb|Hb].
      * apply Z.div_le_upper_bound; [lia|].
        rewrite <- pow2_split by lia. replace (f - e + (b - f)) with (b - e) by lia.
        exact Hhi.
      * exfalso. assert (2 ^ (b - e) < 2 ^ (f - e)).
        { destruct (Z.le_gt_cases 0 (b - e)).
          - apply Z.pow_lt_mono_r; lia.
          - rewrite Z.pow_neg_r by lia. lia. }
        rewrite Z.div_small in E by lia. discriminate.
Qed.

Lemma round_nearest_even_spec (m : Z) (l : location) :
  m <= round_nearest_even m l <= m + 1
  /\ (l = loc_Exact -> round_nearest_even m l = m).
Proof.
  destruct l as [|[| |]]; cbn; try (destruct (Z.even m)); split; try lia;
    intros; try discriminate; reflexivity.
Qed.

(** The located value [(m, e, l)] lies between [2 ^ a] and [2 ^ b]; its
    rounding is a canonical finite float between the same two powers. *)
Lemma binary_round_aux_bracket (sx : bool) (m : positive) (e : Z) (l : location) (a b : Z) :
  e <= fexp64 (digits m + e) -> -1074 <= a -> b <= 1023 ->
  2 ^ (a - e) <= Z.pos m -> Z.pos m + slack l <= 2 ^ (b - e) ->
  exists (m' : positive) (e' : Z),
    binary_round_aux prec emax sx (Z.pos m) e l = S754_finite sx m' e'
    /\ canonical m' e'
    /\ 2 ^ (a - e') <= Z.pos m' <= 2 ^ (b - e').
Proof.
  intros Hn Ha Hb Hlo Hhi.
  pose proof (digits_bounds m) as [Dlo Dhi]. pose proof (digits_pos m) as Dpos.
  assert (Hsl : 0 <= slack l) by (destruct l; cbn; lia).
  assert (Hmin : -1074 < digits m + e).
  { destruct (Z.le_gt_cases 0 (a - e)) as [H|H]; [|lia].
    assert (a - e < digits m) by (apply pow2_lt_inv; lia). lia. }
  destruct (shr_fexp_spec m e l Hn) as (mrs & Heq & Hm & Hex).
  destruct (shift_right_spec m e a b Hn Hmin ltac:(lia)) as (m1 & Hm1 & Hd1 & Hlo1 & Hhi1).
  set (f := fexp64 (digits m + e)) in *.
  rewrite <- Hm1 in Hm.
  destruct (round_nearest_even_spec (shr_m mrs) (loc_of_shr_record mrs)) as [[R1 R2] R3].
  remember (round_nearest_even (shr_m mrs) (loc_of_shr_record mrs)) as z2 eqn:Ez2.
  rewrite Hm in R1, R2, R3.
  assert (Hbf : 0 <= b - f).
  { destruct (Z.le_gt_cases 0 (b - f)); [assumption|]. rewrite Z.pow_neg_r in Hhi1; lia. }
  assert (Hhi2 : z2 <= 2 ^ (b - f)).
  { destruct (loc_of_shr_record mrs) eqn:L; [rewrite R3 by reflexivity; exact Hhi1|].
    destruct (Z.eq_dec (Z.pos m1) (2 ^ (b - f))) as [Etop|]; [|lia].
    exfalso.
    assert (Hge : Z.pos m1 * 2 ^ (f - e) <= Z.pos m).
    { rewrite Hm1, Z.mul_comm. apply Z.mul_div_le. apply pow2_pos. lia. }
    rewrite Etop, <- pow2_split in Hge by lia.
    replace (b - f + (f - e)) with (b - e) in Hge by lia.
    assert (El : l = loc_Exact) by (destruct l; [reflexivity|cbn in Hhi; lia]).
    assert (Eq : Z.pos m = shr_m mrs * 2 ^ (f - e)).
    { rewrite Hm, Etop, <- pow2_split by lia.
      replace (b - f + (f - e)) with (b - e) by lia. subst l. cbn in Hhi. lia. }
    assert (Hx : exact mrs) by (apply Hex; split; assumption).
    apply loc_exact in Hx. rewrite L in Hx. discriminate. }
  destruct z2 as [|m2|m2]; try lia.
  assert (Hn2 : f <= fexp64 (digits m2 + f)).
  { pose proof (digits_mono m1 m2 ltac:(lia)).
    assert (f = fexp64 (digits m1 + f)) by (rewrite Hd1; reflexivity).
    unfold fexp64 in *. lia. }
  pose proof (digits_pos m1).
  destruct (shr_fexp_spec m2 f loc_Exact Hn2) as (mrs2 & Heq2 & Hmm2 & _).
  destruct (shift_right_spec m2 f a b Hn2) as (m3 & Hm3 & Hd3 & Hlo3 & Hhi3).
  { pose proof (digits_mono m1 m2 ltac:(lia)). lia. }
  { lia. }
  set (f2 := fexp64 (digits m2 + f)) in *.
  rewrite <- Hm3 in Hmm2.
  exists m3, f2.
  assert (Hcan : canonical m3 f2) by (unfold canonical; rewrite Hd3; reflexivity).
  split; [|split; [exact Hcan|split; assumption]].
  unfold binary_round_aux. rewrite Heq, <- Ez2, Heq2, Hmm2.
  assert (Hfin : f2 <= 971).
  { pose proof (digits_bounds m3) as [D3 _].
    assert (digits m3 - 1 <= b - f2).
    { destruct (Z.le_gt_cases (digits m3 - 1) (b - f2)); [assumption|].
      assert (2 ^ (b - f2) < 2 ^ (digits m3 - 1)).
      { destruct (Z.le_gt_cases 0 (b - f2)).
        - apply Z.pow_lt_mono_r; lia.
        - rewrite Z.pow_neg_r by lia. apply pow2_pos. pose proof (digits_pos m3). lia. }
      lia. }
    unfold canonical, fexp64 in Hcan. lia. }
  change (emax - prec) with 971.
  destruct (Z.leb_spec f2 971); [reflexivity|lia].
Qed.

(** *** Floats between two powers of two *)

Lemma between_weaken a b a' b' x :
  a' <= a -> b <= b' -> between a b x -> between a' b' x.
Proof.
  intros Ha Hb (m & e & -> & Hc & Hlo & Hhi). exists m, e.
  split; [reflexivity|]. split; [exact Hc|]. split.
  - transitivity (2 ^ (a - e)); [apply pow2_le; lia|exact Hlo].
  - transitivity (2 ^ (b - e)); [exact Hhi|apply pow2_le; lia].
Qed.

(** Above the smallest normal number the mantissa has all its 53 digits. *)
Lemma normal_digits a m e :
  -1022 <= a -> canonical m e -> 2 ^ (a - e) <= Z.pos m -> digits m = 53.
Proof.
  intros Ha Hc Hlo. unfold canonical, fexp64 in Hc.
  pose proof (digits_bounds m) as [Dlo Dhi]. pose proof (digits_pos m).
  destruct (Z.eq_dec (digits m) 53) as [|Hne]; [assumption|].
  assert (e = -1074 /\ digits m < 53) as [He Hd] by lia.
  assert (a - e < digits m) by (apply pow2_lt_inv; lia). lia.
Qed.

Lemma pow2_exponent (u k : Z) : 1 <= u -> u <= 2 ^ k -> 0 <= k.
Proof.
  intros Hu H. destruct (Z.le_gt_cases 0 k); [assumption|].
  rewrite Z.pow_neg_r in H; lia.
Qed.

Lemma upper_exponent b m e : Z.pos m <= 2 ^ (b - e) -> 0 <= b - e.
Proof. apply pow2_exponent. lia. Qed.

Lemma pow2_mul_le j k u v :
  1 <= u -> 1 <= v -> 2 ^ j <= u -> 2 ^ k <= v -> 2 ^ (j + k) <= u * v.
Proof.
  intros Hu Hv Hj Hk.
  destruct (Z.le_gt_cases 0 j) as [J|J]; destruct (Z.le_gt_cases 0 k) as [K|K].
  - rewrite pow2_split by lia. pose proof (pow2_pos j J). pose proof (pow2_pos k K). nia.
  - transitivity (2 ^ j); [apply pow2_le; lia|nia].
  - transitivity (2 ^ k); [apply pow2_le; lia|nia].
  - rewrite Z.pow_neg_r by lia. nia.
Qed.

Lemma pow2_mul_ge j k u v :
  1 <= u -> 1 <= v -> u <= 2 ^ j -> v <= 2 ^ k -> u * v <= 2 ^ (j + k).
Proof.
  intros Hu Hv Hj Hk.
  pose proof (pow2_exponent u j Hu Hj). pose proof (pow2_exponent v k Hv Hk).
  rewrite pow2_split by lia. nia.
Qed.

Lemma iter_xO (d : positive) (m : positive) :
  Z.pos (Pos.iter xO m d) = Z.pos m * 2 ^ Z.pos d.
Proof.
  induction d as [|d IH] using Pos.peano_ind.
  - cbn. lia.
  - rewrite Pos.iter_succ, Pos2Z.inj_succ, Z.pow_succ_r by lia.
    change (Z.pos (Pos.iter xO m d)~0) with (2 * Z.pos (Pos.iter xO m d)).
    rewrite IH. ring.
Qed.

Lemma shl_align_spec (m : positive) (e e' : Z) :
  (e' < e /\ snd (shl_align m e e') = e'
           /\ Z.pos (fst (shl_align m e e')) = Z.pos m * 2 ^ (e - e'))
  \/ (e <= e' /\ shl_align m e e' = (m, e)).
Proof.
  unfold shl_align. destruct (e' - e) as [|d|d] eqn:E.
  - right. split; [lia|reflexivity].
  - right. split; [lia|reflexivity].
  - left. cbn [fst snd]. split; [lia|]. split; [reflexivity|].
    rewrite iter_xO. f_equal. f_equal. lia.
Qed.

Lemma binary_round_bracket (sx : bool) (m : positive) (e a b : Z) :
  -1074 <= a -> b <= 1023 -> 2 ^ (a - e) <= Z.pos m <= 2 ^ (b - e) ->
  exists (m' : positive) (e' : Z),
    binary_round prec emax sx m e = S754_finite sx m' e'
    /\ canonical m' e'
    /\ 2 ^ (a - e') <= Z.pos m' <= 2 ^ (b - e').
Proof.
  intros Ha Hb [Hlo Hhi]. unfold binary_round. rewrite fexp_fexp64. fold (digits m).
  set (f := fexp64 (digits m + e)).
  pose proof (upper_exponent _ _ _ Hhi) as Hbe.
  destruct (shl_align_spec m e f) as [(Hlt & Hs & Hf)|(Hle & Heq)].
  - destruct (shl_align m e f) as [mz ez]. cbn [fst snd] in Hs, Hf. subst ez.
    apply binary_round_aux_bracket; try assumption.
    + rewrite (digits_shift_left m (e - f) mz) by (lia || assumption).
      replace (digits m + (e - f) + f) with (digits m + e) by lia. fold f. lia.
    + rewrite Hf. replace (a - f) with (a - e + (e - f)) by lia.
      apply pow2_mul_le; lia.
    + cbn [slack]. rewrite Z.add_0_r, Hf. replace (b - f) with (b - e + (e - f)) by lia.
      apply pow2_mul_ge; lia.
  - rewrite Heq. apply binary_round_aux_bracket; try assumption; cbn [slack]; lia.
Qed.

Lemma of_int_between (z a b : Z) :
  0 <= a -> b <= 1023 -> 2 ^ a <= z <= 2 ^ b -> between a b (of_int z).
Proof.
  intros Ha Hb [Hlo Hhi]. pose proof (pow2_pos a Ha).
  destruct z as [|p|p]; try lia. unfold of_int. cbn [binary_normalize].
  destruct (binary_round_bracket false p 0 a b) as (m & e & Heq & Hc & Hbd);
    [lia|lia|rewrite !Z.sub_0_r; lia|].
  exists m, e. auto.
Qed.

Lemma mul_between (a b a' b' : Z) (x y : float64) :
  -1022 <= a -> -1022 <= a' -> -1074 <= a + a' -> b + b' <= 1023 ->
  between a b x -> between a' b' y -> between (a + a') (b + b') (mul x y).
Proof.
  intros Ha Ha' Hs Hb (mx & ex & -> & Hcx & Hlx & Hhx) (my & ey & -> & Hcy & Hly & Hhy).
  unfold mul. cbn [SFmul xorb].
  pose proof (normal_digits a mx ex Ha Hcx Hlx) as Dx.
  pose proof (normal_digits a' my ey Ha' Hcy Hly) as Dy.
  pose proof (digits_bounds mx) as [Lx _]. pose proof (digits_bounds my) as [Ly _].
  rewrite Dx in Lx. rewrite Dy in Ly. change (53 - 1) with 52 in *.
  destruct (binary_round_aux_bracket false (mx * my) (ex + ey) loc_Exact (a + a') (b + b'))
    as (m & e & Heq & Hc & Hbd).
  - pose proof (digits_bounds (mx * my)) as [_ Hd].
    assert (2 ^ 104 <= Z.pos (mx * my)).
    { rewrite Pos2Z.inj_mul. change 104 with (52 + 52). apply pow2_mul_le; lia. }
    assert (104 < digits (mx * my)) by (apply pow2_lt_inv; [pose proof (digits_pos (mx * my))|]; lia).
    unfold fexp64. lia.
  - assumption.
  - assumption.
  - rewrite Pos2Z.inj_mul. replace (a + a' - (ex + ey)) with ((a - ex) + (a' - ey)) by lia.
    apply pow2_mul_le; lia.
  - cbn [slack]. rewrite Z.add_0_r, Pos2Z.inj_mul.
    replace (b + b' - (ex + ey)) with ((b - ex) + (b' - ey)) by lia.
    apply pow2_mul_ge; lia.
  - exists m, e. auto.
Qed.

Lemma aligned_mantissa (m : positive) (e ez : Z) :
  ez <= e -> Z.pos (fst (shl_align m e ez)) = Z.pos m * 2 ^ (e - ez).
Proof.
  intros H. destruct (shl_align_spec m e ez) as [(_ & _ & Hf)|(Hle & Heq)]; [exact Hf|].
  rewrite Heq. cbn [fst]. replace (e - ez) with 0 by lia. lia.
Qed.

Lemma add_between (a b a' b' : Z) (x y : float64) :
  -1074 <= a -> b <= 1022 -> b' <= b ->
  between a b x -> between a' b' y -> between a (b + 1) (add x y).
Proof.
  intros Ha Hb Hb' (mx & ex & -> & Hcx & Hlx & Hhx) (my & ey & -> & Hcy & Hly & Hhy).
  unfold add. cbn [SFadd cond_Zopp].
  set (ez := Z.min ex ey).
  pose proof (aligned_mantissa mx ex ez ltac:(lia)) as Ux.
  pose proof (aligned_mantissa my ey ez ltac:(lia)) as Uy.
  pose proof (upper_exponent _ _ _ Hhx). pose proof (upper_exponent _ _ _ Hhy).
  pose proof (pow2_pos (ex - ez) ltac:(lia)). pose proof (pow2_pos (ey - ez) ltac:(lia)).
  assert (Lx : 2 ^ (a - ez) <= Z.pos (fst (shl_align mx ex ez))).
  { rewrite Ux. replace (a - ez) with (a - ex + (ex - ez)) by lia. apply pow2_mul_le; lia. }
  assert (Hx : Z.pos (fst (shl_align mx ex ez)) <= 2 ^ (b - ez)).
  { rewrite Ux. replace (b - ez) with (b - ex + (ex - ez)) by lia. apply pow2_mul_ge; lia. }
  assert (Hy : Z.pos (fst (shl_align my ey ez)) <= 2 ^ (b - ez)).
  { rewrite Uy. transitivity (2 ^ (b' - ez)); [|apply pow2_le; lia].
    replace (b' - ez) with (b' - ey + (ey - ez)) by lia. apply pow2_mul_ge; lia. }
  rewrite <- Pos2Z.inj_add. cbn [binary_normalize].
  destruct (binary_round_bracket false
              (fst (shl_align mx ex ez) + fst (shl_align my ey ez)) ez a (b + 1))
    as (m & e & Heq & Hc & Hbd); [lia|lia| |exists m, e; auto].
  rewrite Pos2Z.inj_add. split; [lia|].
  replace (b + 1 - ez) with (Z.succ (b - ez)) by lia.
  rewrite Z.pow_succ_r by lia. lia.
Qed.

Lemma new_location_slack (n r : Z) : slack (new_location n r) = if r =? 0 then 0 else 1.
Proof.
  unfold new_location, new_location_even, new_location_odd.
  destruct (Z.even n); destruct (r =? 0); reflexivity.
Qed.

Lemma div_between (a b a' b' : Z) (x y : float64) :
  -1022 <= a -> -1022 <= a' -> -1021 <= a - b' -> b - a' <= 1023 ->
  between a b x -> between a' b' y -> between (a - b') (b - a') (div x y).
Proof.
  intros Ha Ha' Hlo Hhi (mx & ex & -> & Hcx & Hlx & Hhx) (my & ey & -> & Hcy & Hly & Hhy).
  pose proof (normal_digits a mx ex Ha Hcx Hlx) as Dx.
  pose proof (normal_digits a' my ey Ha' Hcy Hly) as Dy.
  pose proof (digits_bounds mx) as [Lx Ux]. pose proof (digits_bounds my) as [Ly Uy].
  rewrite Dx in Lx, Ux. rewrite Dy in Ly, Uy. change (53 - 1) with 52 in *.
  pose proof (upper_exponent _ _ _ Hhx) as Px. pose proof (upper_exponent _ _ _ Hhy) as Py.
  assert (Ex : a - 52 <= ex).
  { destruct (Z.le_gt_cases 0 (a - ex)); [|lia].
    assert (a - ex < 53) by (apply pow2_lt_inv; lia). lia. }
  assert (Ey : ey <= b' - 52).
  { assert (52 < b' - ey + 1); [|lia]. apply pow2_lt_inv; [lia|].
    rewrite Z.pow_add_r, Z.pow_1_r by lia. lia. }
  unfold div. cbn [SFdiv xorb]. unfold SFdiv_core_binary.
  rewrite fexp_fexp64. cbn [Zdigits2]. fold (digits mx) (digits my). rewrite Dx, Dy.
  replace (53 + ex - (53 + ey)) with (ex - ey) by lia.
  assert (Ef : fexp64 (ex - ey) = ex - ey - 53) by (unfold fexp64; lia).
  rewrite Ef. rewrite Z.min_l by lia.
  replace (ex - ey - (ex - ey - 53)) with 53 by lia.
  change (match 53 with 0 => Z.pos mx | Z.pos _ => Z.shiftl (Z.pos mx) 53 | Z.neg _ => 0 end)
    with (Z.shiftl (Z.pos mx) 53).
  rewrite Z.shiftl_mul_pow2 by lia.
  pose proof (Z_div_mod (Z.pos mx * 2 ^ 53) (Z.pos my) ltac:(lia)) as Hdm.
  destruct (Z.div_eucl (Z.pos mx * 2 ^ 53) (Z.pos my)) as [q r]. destruct Hdm as [Hq Hr].
  assert (Hq52 : 2 ^ 52 <= q) by nia.
  destruct q as [|q|q]; try lia.
  destruct (binary_round_aux_bracket false q (ex - ey - 53) (new_location (Z.pos my) r)
              (a - b') (b - a')) as (m & e & Heq & Hc & Hbd).
  - pose proof (digits_bounds q) as [_ Hd]. pose proof (digits_pos q).
    assert (52 < digits q) by (apply pow2_lt_inv; lia).
    unfold fexp64. lia.
  - lia.
  - lia.
  - destruct (Z.le_gt_cases 0 (a - b' - (ex - ey - 53))) as [K|K];
      [|rewrite Z.pow_neg_r by lia; lia].
    set (k := a - b' - (ex - ey - 53)) in *.
    assert (2 ^ k * Z.pos my <= Z.pos mx * 2 ^ 53); [|nia].
    transitivity (2 ^ (a - ex + 53)).
    + replace (a - ex + 53) with (k + (b' - ey)) by (unfold k; lia).
      rewrite pow2_split by lia. pose proof (pow2_pos k K). nia.
    + apply pow2_mul_le; lia.
  - rewrite new_location_slack.
    set (k := b - a' - (ex - ey - 53)).
    assert (Q53 : a' - ey < 53).
    { destruct (Z.le_gt_cases 0 (a' - ey)); [|lia]. apply pow2_lt_inv; lia. }
    assert (K : (a' - ey < 0 -> b - ex + 53 <= k)
                /\ (0 <= a' - ey -> k + (a' - ey) = b - ex + 53))
      by (unfold k; lia).
    assert (Hk : 0 <= k) by lia. pose proof (pow2_pos k Hk).
    assert (Hmul : Z.pos mx * 2 ^ 53 <= 2 ^ k * Z.pos my).
    { transitivity (2 ^ (b - ex + 53)); [apply pow2_mul_ge; lia|].
      destruct (Z.le_gt_cases 0 (a' - ey)) as [Q|Q].
      - destruct K as [_ K]. rewrite <- K, pow2_split by lia.
        pose proof (pow2_pos (a' - ey) Q). nia.
      - transitivity (2 ^ k); [apply pow2_le; lia|nia]. }
    destruct (Z.eqb_spec r 0); nia.
  - exists m, e. auto.
Qed.

Lemma truncate_between (a b : Z) (m : positive) (e : Z) :
  0 <= b -> 2 ^ (a - e) <= Z.pos m <= 2 ^ (b - e) ->
  0 <= truncate false m e <= 2 ^ b /\ (0 <= a -> 2 ^ a <= truncate false m e).
Proof.
  intros Hb [Hlo Hhi]. unfold truncate.
  pose proof (upper_exponent _ _ _ Hhi) as Hbe.
  destruct (Z.leb_spec 0 e) as [He|He].
  - pose proof (pow2_pos e He). split; [split; [nia|]|intros Ha].
    + replace (2 ^ b) with (2 ^ (b - e + e)) by (f_equal; lia). apply pow2_mul_ge; lia.
    + replace (2 ^ a) with (2 ^ (a - e + e)) by (f_equal; lia). apply pow2_mul_le; lia.
  - pose proof (pow2_pos (- e) ltac:(lia)). split; [split|intros Ha].
    + apply Z.div_pos; lia.
    + apply Z.div_le_upper_bound; [lia|]. rewrite <- pow2_split by lia.
      replace (- e + b) with (b - e) by lia. exact Hhi.
    + apply Z.div_le_lower_bound; [lia|]. rewrite <- pow2_split by lia.
      replace (- e + a) with (a - e) by lia. exact Hlo.
Qed.

Lemma to_int_between (a b : Z) (x : float64) :
  0 <= b <= 62 -> between a b x ->
  0 <= to_int x <= 2 ^ b /\ (0 <= a -> 2 ^ a <= to_int x).
Proof.
  intros Hb (m & e & -> & _ & Hbd). cbn [to_int].
  destruct (truncate_between a b m e ltac:(lia) Hbd) as [[T0 T1] T2].
  assert (2 ^ b <= 2 ^ 62) by (apply pow2_le; lia).
  assert (2 ^ 62 < max_int) by (unfold max_int; lia).
  assert (min_int < 0) by (unfold min_int; lia).
  destruct (Z.leb_spec min_int (truncate false m e)); [|lia].
  destruct (Z.leb_spec (truncate false m e) max_int); [|lia].
  cbn [andb]. auto.
Qed.

Lemma mul_upto (a b a' b' : Z) (x y : float64) :
  -1022 <= a -> -1022 <= a' -> -1074 <= a + a' -> b + b' <= 1023 ->
  upto a b x -> upto a' b' y -> upto (a + a') (b + b') (mul x y).
Proof.
  intros Ha Ha' Hs Hb [->|Hx] [->|Hy].
  - left. reflexivity.
  - left. destruct Hy as (m & e & -> & _). reflexivity.
  - left. destruct Hx as (m & e & -> & _). reflexivity.
  - right. apply mul_between; assumption.
Qed.

Lemma to_int_upto (a b : Z) (x : float64) :
  0 <= b <= 62 -> upto a b x -> 0 <= to_int x <= 2 ^ b.
Proof.
  intros Hb [->|Hx].
  - cbn. split; [lia|apply pow2_nonneg].
  - apply (to_int_between a b x Hb Hx).
Qed.

Lemma of_int_upto (z b : Z) :
  0 <= b <= 1023 -> 0 <= z <= 2 ^ b -> upto 0 b (of_int z).
Proof.
  intros Hb Hz. destruct (Z.eq_dec z 0) as [->|Hne]; [left; reflexivity|].
  right. apply of_int_between; [lia|lia|]. change (2 ^ 0) with 1. lia.
Qed.

(** *** Signs *)

Lemma binary_round_aux_nonpos (m e : Z) (l : location) :
  nonpos (binary_round_aux prec emax true m e l).
Proof.
  unfold binary_round_aux.
  destruct (shr_fexp prec emax m e l) as [mrs1 e1].
  destruct (shr_fexp prec emax _ e1 loc_Exact) as [mrs2 e2].
  destruct (shr_m mrs2); [exact I| |exact I].
  destruct (e2 <=? emax - prec); exact I.
Qed.

Lemma binary_round_nonpos (m : positive) (e : Z) : nonpos (binary_round prec emax true m e).
Proof.
  unfold binary_round. destruct (shl_align m e _) as [mz ez]. apply binary_round_aux_nonpos.
Qed.

Lemma of_int_nonpos (z : Z) : z <= 0 -> nonpos (of_int z).
Proof.
  intros Hz. destruct z as [|p|p]; [exact I|lia|].
  unfold of_int. cbn [binary_normalize]. apply binary_round_nonpos.
Qed.

Lemma of_int_nonneg (z : Z) : 0 <= z <= 2 ^ 1023 -> nonneg (of_int z).
Proof.
  intros Hz. destruct (of_int_upto z 1023 ltac:(lia) Hz) as [->|(m & e & -> & _)]; exact I.
Qed.

Ltac sign_cases :=
  repeat match goal with b : bool |- _ => destruct b end;
  cbn [nonpos nonneg xorb] in *; try contradiction; try exact I.

Lemma div_nonpos (x y : float64) : nonpos x -> nonneg y -> nonpos (div x y).
Proof.
  unfold div. destruct x as [sx|sx| |sx mx ex]; destruct y as [sy|sy| |sy my ey];
    cbn [SFdiv]; intros Hx Hy; sign_cases.
  destruct (SFdiv_core_binary prec emax (Z.pos mx) ex (Z.pos my) ey) as [[mz ez] lz].
  apply binary_round_aux_nonpos.
Qed.

Lemma add_nonpos (x y : float64) : nonpos x -> nonpos y -> nonpos (add x y).
Proof.
  unfold add. destruct x as [sx|sx| |sx mx ex]; destruct y as [sy|sy| |sy my ey];
    cbn [SFadd]; intros Hx Hy; sign_cases.
  cbn [cond_Zopp]. set (ez := Z.min ex ey).
  change (- Z.pos (fst (shl_align mx ex ez)) + - Z.pos (fst (shl_align my ey ez)))
    with (Z.neg (fst (shl_align mx ex ez) + fst (shl_align my ey ez))).
  cbn [binary_normalize]. apply binary_round_nonpos.
Qed.

Lemma mul_nonpos (x y : float64) : nonpos x -> nonneg y -> nonpos (mul x y).
Proof.
  unfold mul. destruct x as [sx|sx| |sx mx ex]; destruct y as [sy|sy| |sy my ey];
    cbn [SFmul]; intros Hx Hy; sign_cases.
  apply binary_round_aux_nonpos.
Qed.

Lemma to_int_nonpos (x : float64) : nonpos x -> to_int x <= 0.
Proof.
  assert (Hmin : min_int <= 0) by (unfold min_int; lia).
  destruct x as [s|s| |s m e]; cbn [to_int]; intros Hx; sign_cases; try lia.
  assert (Hv : truncate true m e <= 0).
  { unfold truncate. destruct (Z.leb_spec 0 e) as [He|He].
    - pose proof (pow2_nonneg e). nia.
    - pose proof (pow2_pos (- e) ltac:(lia)).
      pose proof (Z.div_pos (Z.pos m) (2 ^ (- e)) ltac:(lia) ltac:(lia)). lia. }
  destruct (_ && _); lia.
Qed.

End Float64Facts.

Module TimeFacts.
Import Float64 Float64Facts Time.

Lemma billion_between : between 29 30 (of_int 1000000000).
Proof. apply of_int_between; lia. Qed.

(** The fraction [float64(nsec)/1e9] of [Seconds]. *)
Lemma fraction_upto (nsec : Z) :
  0 <= nsec < 1000000000 -> upto (-30) 1 (div (of_int nsec) (of_int 1000000000)).
Proof.
  intros H. destruct (Z.eq_dec nsec 0) as [->|Hne]; [left; reflexivity|].
  right. change (-30) with (0 - 30). change 1 with (30 - 29) at 1.
  apply div_between; try lia; [|exact billion_between].
  apply of_int_between; [lia|lia|]. change (2 ^ 0) with 1. lia.
Qed.

Lemma add_zero_l (y : float64) : upto (-30) 1 y -> add (S754_zero false) y = y.
Proof. intros [->|(m & e & -> & _)]; reflexivity. Qed.

Lemma add_zero_r (a b : Z) (x : float64) : between a b x -> add x (S754_zero false) = x.
Proof. intros (m & e & -> & _). reflexivity. Qed.

(** [Seconds] of a duration of at least one second. *)
Lemma Seconds_between (d : Duration) :
  1000000000 <= d <= max_int -> between 0 35 (Seconds d).
Proof.
  intros [Hlo Hhi]. unfold max_int in Hhi. unfold Seconds, Second.
  rewrite Z.quot_div_nonneg, Z.rem_mod_nonneg by lia.
  pose proof (Z.mod_pos_bound d 1000000000 ltac:(lia)) as Hn.
  assert (Hs : 2 ^ 0 <= d / 1000000000 <= 2 ^ 34).
  { split.
    - apply Z.div_le_lower_bound; lia.
    - apply Z.div_le_upper_bound; lia. }
  pose proof (of_int_between (d / 1000000000) 0 34 ltac:(lia) ltac:(lia) Hs) as Fs.
  destruct (fraction_upto (d mod 1000000000) Hn) as [Hq|Hq].
  - rewrite Hq, (add_zero_r 0 34) by exact Fs.
    apply (between_weaken 0 34); [lia|lia|exact Fs].
  - change 35 with (34 + 1). apply (add_between 0 34 (-30) 1); try lia; assumption.
Qed.

(** [Seconds] of any duration that is not negative. *)
Lemma Seconds_upto (d : Duration) : 0 <= d <= max_int -> upto (-30) 35 (Seconds d).
Proof.
  intros [Hlo Hhi]. destruct (Z.le_gt_cases 1000000000 d) as [Hd|Hd].
  - right. apply (between_weaken 0 35); [lia|lia|]. apply Seconds_between. lia.
  - unfold Seconds, Second. rewrite Z.quot_small, Z.rem_small by lia.
    change (of_int 0) with (S754_zero false).
    pose proof (fraction_upto d ltac:(lia)) as Hq. rewrite add_zero_l by exact Hq.
    destruct Hq as [Hq|Hq]; [left; exact Hq|right].
    apply (between_weaken (-30) 1); [lia|lia|exact Hq].
Qed.

Lemma Sub_range (t u : Time) : min_int <= Sub t u <= max_int.
Proof.
  unfold Sub, min_int, max_int.
  destruct (Z.ltb_spec (t - u) (- 2 ^ 63)); [lia|].
  destruct (Z.ltb_spec (2 ^ 63 - 1) (t - u)); lia.
Qed.

Lemma Sub_lower (t u : Time) (k : Z) : 0 <= k <= max_int -> k <= t - u -> k <= Sub t u.
Proof.
  unfold Sub, min_int, max_int. intros Hk H.
  destruct (Z.ltb_spec (t - u) (- 2 ^ 63)); [lia|].
  destruct (Z.ltb_spec (2 ^ 63 - 1) (t - u)); lia.
Qed.

Lemma Sub_backwards (t u : Time) : t <= u -> Sub t u <= 0.
Proof.
  unfold Sub, min_int, max_int. intros H.
  destruct (Z.ltb_spec (t - u) (- 2 ^ 63)); [lia|].
  destruct (Z.ltb_spec (2 ^ 63 - 1) (t - u)); lia.
Qed.

(** [Seconds] of a duration that is not positive. *)
Lemma Seconds_nonpos (d : Duration) : d <= 0 -> nonpos (Seconds d).
Proof.
  intros Hd. unfold Seconds, Second.
  assert (Hq : Z.quot d 1000000000 <= 0).
  { rewrite <- (Z.opp_involutive d), Z.quot_opp_l by lia.
    pose proof (Z.quot_pos (- d) 1000000000 ltac:(lia) ltac:(lia)). lia. }
  assert (Hr : Z.rem d 1000000000 <= 0).
  { rewrite <- (Z.opp_involutive d), Z.rem_opp_l by lia.
    pose proof (Z.rem_nonneg (- d) 1000000000 ltac:(lia) ltac:(lia)). lia. }
  apply add_nonpos; [apply of_int_nonpos; exact Hq|].
  apply div_nonpos; [apply of_int_nonpos; exact Hr|].
  apply of_int_nonneg. lia.
Qed.

Lemma Sub_diag (t : Time) : Sub t t = 0.
Proof. unfold Sub. rewrite Z.sub_diag. reflexivity. Qed.

End TimeFacts.

Module BucketFacts.
Import Float64 Float64Facts Time TimeFacts Bucket.

Lemma wrap_int_small (z : Z) : min_int <= z <= max_int -> wrap_int z = z.
Proof.
  unfold wrap_int, min_int, max_int. intros H.
  rewrite Z.mod_small by lia. lia.
Qed.

Lemma min_spec (a b : Z) : min a b = Z.min a b.
Proof. unfold min. destruct (Z.ltb_spec a b); lia. Qed.

(** At least one second at a rate of at least one token per second buys at
    least one token. *)
Lemma tokensToAdd_lower (tb : TokenBucket) (now : Time) :
  1 <= RefillRate tb <= 2 ^ 27 -> 1000000000 <= now - lastRefill tb ->
  1 <= tokensToAdd tb now <= 2 ^ 62.
Proof.
  intros Hr Hd. unfold tokensToAdd.
  pose proof (Sub_range now (lastRefill tb)) as [_ Hhi].
  pose proof (Sub_lower now (lastRefill tb) 1000000000 ltac:(unfold max_int; lia) Hd) as Hlo.
  pose proof (Seconds_between _ (conj Hlo Hhi)) as He.
  assert (Hrate : between 0 27 (of_int (RefillRate tb))).
  { apply of_int_between; [lia|lia|]. change (2 ^ 0) with 1. lia. }
  pose proof (mul_between 0 35 0 27 _ _ ltac:(lia) ltac:(lia) ltac:(lia) ltac:(lia) He Hrate)
    as Hp.
  change (0 + 0) with 0 in Hp. change (35 + 27) with 62 in Hp.
  destruct (to_int_between 0 62 _ ltac:(lia) Hp) as [[_ H1] H2].
  specialize (H2 ltac:(lia)). change (2 ^ 0) with 1 in H2. lia.
Qed.

(** On a clock that does not run backwards a moderate rate never produces
    more than [2 ^ 61] tokens. *)
Lemma tokensToAdd_upper (tb : TokenBucket) (now : Time) :
  0 <= RefillRate tb <= 2 ^ 26 -> lastRefill tb <= now ->
  0 <= tokensToAdd tb now <= 2 ^ 61.
Proof.
  intros Hr Hd. unfold tokensToAdd.
  pose proof (Sub_range now (lastRefill tb)) as [_ Hhi].
  pose proof (Sub_lower now (lastRefill tb) 0 ltac:(unfold max_int; lia) ltac:(lia)) as Hlo.
  pose proof (Seconds_upto _ (conj Hlo Hhi)) as He.
  pose proof (of_int_upto (RefillRate tb) 26 ltac:(lia) Hr) as Hrate.
  pose proof (mul_upto (-30) 35 0 26 _ _ ltac:(lia) ltac:(lia) ltac:(lia) ltac:(lia) He Hrate)
    as Hp.
  change (35 + 26) with 61 in Hp.
  exact (to_int_upto _ 61 _ ltac:(lia) Hp).
Qed.

(** A clock reading before the last refill adds nothing. *)
Lemma tokensToAdd_backwards (tb : TokenBucket) (now : Time) :
  0 <= RefillRate tb <= 2 ^ 26 -> now <= lastRefill tb -> tokensToAdd tb now <= 0.
Proof.
  intros Hr Hd. unfold tokensToAdd. apply to_int_nonpos, mul_nonpos.
  - apply Seconds_nonpos, Sub_backwards, Hd.
  - apply of_int_nonneg. split; [lia|].
    transitivity (2 ^ 26); [lia|apply pow2_le; lia].
Qed.

(** With no time elapsed nothing is added, whatever the rate. *)
Lemma tokensToAdd_same_instant (tb : TokenBucket) :
  tokensToAdd tb (lastRefill tb) <= 0.
Proof.
  unfold tokensToAdd. rewrite Sub_diag.
  change (Seconds 0) with (S754_zero false).
  destruct (of_int (RefillRate tb)) as [s|s| |s m e]; cbn; unfold min_int; lia.
Qed.

Lemma refill_idle (tb : TokenBucket) (now : Time) :
  tokensToAdd tb now <= 0 -> refill now tb = tb.
Proof. intros H. unfold refill. destruct (Z.gtb_spec (tokensToAdd tb now) 0); [lia|reflexivity]. Qed.

Lemma refill_same_instant (tb : TokenBucket) : refill (lastRefill tb) tb = tb.
Proof. apply refill_idle, tokensToAdd_same_instant. Qed.

Lemma refill_adds (tb : TokenBucket) (now : Time) :
  0 < tokensToAdd tb now ->
  refill now tb =
    {| Capacity := Capacity tb;
       Tokens := min (Capacity tb) (wrap_int (Tokens tb + tokensToAdd tb now));
       RefillRate := RefillRate tb;
       lastRefill := now;
       lastSeen := lastSeen tb |}.
Proof. intros H. unfold refill. destruct (Z.gtb_spec (tokensToAdd tb now) 0); [reflexivity|lia]. Qed.

(** Calls of [Allow] at the instant of the last refill. *)
Lemma Allow_same_instant_grants (capacity n rate : Z) (t seen0 seen : Time) :
  0 < n <= max_int ->
  Allow t seen {| Capacity := capacity; Tokens := n; RefillRate := rate;
                  lastRefill := t; lastSeen := seen0 |}
  = (true, {| Capacity := capacity; Tokens := n - 1; RefillRate := rate;
              lastRefill := t; lastSeen := seen |}).
Proof.
  intros Hn. unfold Allow.
  pose proof (refill_same_instant {| Capacity := capacity; Tokens := n; RefillRate := rate;
                                     lastRefill := t; lastSeen := seen0 |}) as Hidle.
  cbn [lastRefill] in Hidle. rewrite Hidle.
  cbn [set_lastSeen Tokens]. destruct (Z.gtb_spec n 0); [|lia].
  rewrite wrap_int_small by (unfold min_int; lia). reflexivity.
Qed.

Lemma Allow_same_instant_rejects (capacity n rate : Z) (t seen0 seen : Time) :
  n <= 0 ->
  Allow t seen {| Capacity := capacity; Tokens := n; RefillRate := rate;
                  lastRefill := t; lastSeen := seen0 |}
  = (false, {| Capacity := capacity; Tokens := n; RefillRate := rate;
               lastRefill := t; lastSeen := seen |}).
Proof.
  intros Hn. unfold Allow.
  pose proof (refill_same_instant {| Capacity := capacity; Tokens := n; RefillRate := rate;
                                     lastRefill := t; lastSeen := seen0 |}) as Hidle.
  cbn [lastRefill] in Hidle. rewrite Hidle.
  cbn [set_lastSeen Tokens]. destruct (Z.gtb_spec n 0); [lia|reflexivity].
Qed.

(** The bucket of the basic limit test: five calls at the instant of
    creation pass, the sixth does not, and a call 1.2 seconds later passes. *)
Lemma bucket_basic_limit (t0 t1 seen : Time) :
  1200000000 <= t1 - t0 ->
  fst (allow_run [(t0, t0); (t0, t0); (t0, t0); (t0, t0); (t0, t0); (t0, t0); (t1, seen)]
                 (NewTokenBucket 5 1 t0))
  = [true; true; true; true; true; false; true].
Proof.
  intros Hwait. unfold NewTokenBucket. cbn [allow_run].
  do 5 (rewrite Allow_same_instant_grants by (unfold max_int; lia)).
  rewrite Allow_same_instant_rejects by lia.
  change (5 - 1 - 1 - 1 - 1 - 1) with 0.
  set (tb := {| Capacity := 5; Tokens := 0; RefillRate := 1;
                lastRefill := t0; lastSeen := t0 |}).
  assert (Hk : 1 <= tokensToAdd tb t1 <= 2 ^ 62).
  { apply tokensToAdd_lower; cbn [RefillRate lastRefill tb]; lia. }
  assert (Hallow : fst (Allow t1 seen tb) = true).
  { unfold Allow. rewrite refill_adds by lia.
    cbn [set_lastSeen Tokens Capacity tb]. rewrite Z.add_0_l.
    rewrite wrap_int_small, min_spec by (unfold min_int, max_int; lia).
    destruct (Z.gtb_spec (Z.min 5 (tokensToAdd tb t1)) 0); [reflexivity|lia]. }
  destruct (Allow t1 seen tb) as [ok tb']. cbn [fst] in *. subst ok. reflexivity.
Qed.

(** C4, as amended: [tokensToAdd] is the integer part of the [float64]
    product of the elapsed seconds and the rate; when it is positive the
    tokens become [min (capacity, tokens + tokensToAdd)], the sum taken in
    64-bit arithmetic, and [lastRefill] becomes [now]; otherwise the bucket is
    left as it is, so that a later check still measures from the old
    [lastRefill]. One second or more at a rate between 1 and [2 ^ 27] always
    adds, and no elapsed time never does. *)
Theorem refill_rule (tb : TokenBucket) (now : Time) :
  tokensToAdd tb now =
    to_int (mul (Seconds (Sub now (lastRefill tb))) (of_int (RefillRate tb)))
  /\ (0 < tokensToAdd tb now ->
      Tokens (refill now tb) = Z.min (Capacity tb) (wrap_int (Tokens tb + tokensToAdd tb now))
      /\ lastRefill (refill now tb) = now
      /\ Capacity (refill now tb) = Capacity tb
      /\ RefillRate (refill now tb) = RefillRate tb
      /\ lastSeen (refill now tb) = lastSeen tb)
  /\ (0 < tokensToAdd tb now -> min_int <= Tokens tb ->
      Tokens tb + tokensToAdd tb now <= max_int ->
      Tokens (refill now tb) = Z.min (Capacity tb) (Tokens tb + tokensToAdd tb now))
  /\ (tokensToAdd tb now <= 0 ->
      refill now tb = tb /\ forall later : Time, refill later (refill now tb) = refill later tb)
  /\ (1 <= RefillRate tb <= 2 ^ 27 -> 1000000000 <= now - lastRefill tb ->
      0 < tokensToAdd tb now)
  /\ (now = lastRefill tb -> refill now tb = tb).
Proof.
  split; [reflexivity|]. split; [|split; [|split; [|split]]].
  - intros Hk. rewrite refill_adds by exact Hk. cbn. rewrite min_spec. auto.
  - intros Hk Hlo Hhi. rewrite refill_adds by exact Hk. cbn.
    rewrite min_spec, wrap_int_small by lia. reflexivity.
  - intros Hk. rewrite refill_idle by exact Hk. auto.
  - intros Hr Hd. pose proof (tokensToAdd_lower tb now Hr Hd). lia.
  - intros ->. apply refill_same_instant.
Qed.

Lemma refill_rule_witness :
  Tokens (refill 290000000 drained_bucket) = 28
  /\ lastRefill (refill 290000000 drained_bucket) = 290000000
  /\ refill 5000000 drained_bucket = drained_bucket
  /\ 0 < tokensToAdd drained_bucket 1000000000.
Proof.
  destruct (refill_rule drained_bucket 290000000) as (_ & Hadd & _).
  destruct (refill_rule drained_bucket 5000000) as (_ & _ & _ & Hidle & _).
  destruct (refill_rule drained_bucket 1000000000) as (_ & _ & _ & _ & Hsec & _).
  destruct (Hadd ltac:(vm_compute; reflexivity)) as (Ht & Hl & _).
  split; [rewrite Ht; vm_compute; reflexivity|].
  split; [exact Hl|]. split.
  - apply Hidle. vm_compute. discriminate.
  - apply Hsec; cbn; lia.
Defined.

(** C4 fails as stated: after 0.29 seconds at 100 tokens per second the code
    adds 28 tokens where [floor (elapsed * refillRate)] is 29. *)
Lemma refill_below_exact_floor :
  tokensToAdd drained_bucket 290000000 = 28
  /\ spec_tokensToAdd drained_bucket 290000000 = 29
  /\ Tokens (refill 290000000 drained_bucket) = 28
  /\ Tokens (spec_refill 290000000 drained_bucket) = 29.
Proof. repeat split; vm_compute; reflexivity. Qed.

(** *** The bucket invariant *)

Lemma Allow_within_capacity (tb : TokenBucket) (now seen : Time) :
  within_capacity tb -> Capacity tb <= max_int ->
  Tokens tb + tokensToAdd tb now <= max_int ->
  within_capacity (snd (Allow now seen tb))
  /\ Capacity (snd (Allow now seen tb)) = Capacity tb
  /\ RefillRate (snd (Allow now seen tb)) = RefillRate tb
  /\ (lastRefill (snd (Allow now seen tb)) = lastRefill tb
      \/ lastRefill (snd (Allow now seen tb)) = now).
Proof.
  unfold within_capacity. intros [H0 Hc] Hcap Hfit.
  assert (Hr : 0 <= Tokens (refill now tb) <= Capacity tb
               /\ Capacity (refill now tb) = Capacity tb
               /\ RefillRate (refill now tb) = RefillRate tb
               /\ (lastRefill (refill now tb) = lastRefill tb
                   \/ lastRefill (refill now tb) = now)).
  { unfold refill. destruct (Z.gtb_spec (tokensToAdd tb now) 0) as [Hk|Hk]; cbn; [|auto].
    rewrite min_spec, wrap_int_small by (unfold min_int; lia). repeat split; auto; lia. }
  destruct Hr as (Ht & Hc1 & Hr1 & Hl1).
  unfold Allow. cbn [set_lastSeen Tokens].
  destruct (Z.gtb_spec (Tokens (refill now tb)) 0) as [Hpos|Hpos]; cbn.
  - rewrite wrap_int_small by (unfold min_int; lia). repeat split; auto; lia.
  - repeat split; auto; lia.
Qed.

Lemma allow_run_within_capacity (clock : list (Time * Time)) :
  forall tb : TokenBucket,
    within_capacity tb -> Capacity tb <= 2 ^ 62 -> 0 <= RefillRate tb <= 2 ^ 26 ->
    within_capacity (snd (allow_run clock tb)).
Proof.
  induction clock as [|[now seen] rest IH]; intros tb Hinv Hcap Hrate; [exact Hinv|].
  cbn [allow_run].
  assert (Hk : tokensToAdd tb now <= 2 ^ 61).
  { destruct (Z.le_gt_cases (lastRefill tb) now) as [Hfwd|Hback].
    - apply tokensToAdd_upper; assumption.
    - pose proof (tokensToAdd_backwards tb now Hrate ltac:(lia)). lia. }
  destruct (Allow_within_capacity tb now seen Hinv) as (Hinv' & Hc' & Hr' & _).
  { unfold max_int. lia. }
  { unfold within_capacity in Hinv. unfold max_int.
    assert (2 ^ 61 + 2 ^ 62 <= 2 ^ 63 - 1) by lia. lia. }
  destruct (Allow now seen tb) as [ok tb1]. cbn [snd] in *.
  specialize (IH tb1 Hinv' ltac:(lia) ltac:(lia)).
  destruct (allow_run rest tb1) as [oks tb2]. exact IH.
Qed.

(** C8, as amended: a bucket created with a capacity that is not negative
    satisfies [0 <= tokens <= capacity]; an admission check preserves this
    whenever the refill sum [tokens + tokensToAdd] stays within the 64-bit
    [int]; that is the case for every sequence of calls and all clock
    readings when the capacity is at most [2 ^ 62] and the rate is between 0
    and [2 ^ 26]. *)
Theorem tokens_within_capacity (capacity refillRate : Z) (t0 : Time) :
  0 <= capacity <= max_int ->
  within_capacity (NewTokenBucket capacity refillRate t0)
  /\ (forall (tb : TokenBucket) (now seen : Time),
        within_capacity tb -> Capacity tb <= max_int ->
        Tokens tb + tokensToAdd tb now <= max_int ->
        within_capacity (snd (Allow now seen tb)))
  /\ (capacity <= 2 ^ 62 -> 0 <= refillRate <= 2 ^ 26 ->
      forall clock : list (Time * Time),
        within_capacity (snd (allow_run clock (NewTokenBucket capacity refillRate t0)))).
Proof.
  intros Hcap. split; [unfold within_capacity; cbn; lia|]. split.
  - intros tb now seen Hinv Hc Hfit. apply Allow_within_capacity; assumption.
  - intros Hc Hr clock.
    apply (allow_run_within_capacity clock); cbn; try assumption.
    unfold within_capacity. cbn. lia.
Qed.

Lemma tokens_within_capacity_witness :
  within_capacity (NewTokenBucket 5 1 0)
  /\ within_capacity
       (snd (allow_run [(0, 0); (700000000, 700000001); (3000000000, 3000000002)]
                       (NewTokenBucket 5 1 0))).
Proof.
  destruct (tokens_within_capacity 5 1 0) as (Hnew & _ & Hrun).
  - unfold max_int. lia.
  - split; [exact Hnew|]. apply Hrun; lia.
Defined.

(** C8 fails as stated: a bucket of capacity 2000 and rate [2 ^ 53 - 1] is
    used once when it is created and once 1024 seconds later; the second
    refill sum [tokens + tokensToAdd] exceeds the 64-bit [int], wraps around
    and leaves a negative token count. *)
Lemma tokens_negative_after_overflow :
  0 <= Capacity fast_bucket
  /\ within_capacity fast_bucket
  /\ tokensToAdd (snd (Allow 0 0 fast_bucket)) 1024000000000 = 2 ^ 63 - 1024
  /\ Tokens (snd (allow_run [(0, 0); (1024000000000, 1024000000000)] fast_bucket))
     = -9223372036854774833
  /\ ~ within_capacity
        (snd (allow_run [(0, 0); (1024000000000, 1024000000000)] fast_bucket)).
Proof.
  assert (E : Tokens (snd (allow_run [(0, 0); (1024000000000, 1024000000000)] fast_bucket))
              = -9223372036854774833) by (vm_compute; reflexivity).
  split; [cbn; lia|]. split; [unfold within_capacity; cbn; lia|].
  split; [vm_compute; reflexivity|]. split; [exact E|].
  unfold within_capacity. rewrite E. lia.
Qed.

End BucketFacts.

Module RateLimiterFacts.
Import RateLimiter.

Lemma update_same (l : loc) (tb : Bucket.TokenBucket) (h : loc -> Bucket.TokenBucket) :
  update l tb h l = tb.
Proof. unfold update. rewrite Nat.eqb_refl. reflexivity. Qed.

Lemma update_other (l l' : loc) (tb : Bucket.TokenBucket) (h : loc -> Bucket.TokenBucket) :
  l' <> l -> update l tb h l' = h l'.
Proof. intros H. unfold update. destruct (Nat.eqb_spec l' l); [contradiction|reflexivity]. Qed.

Lemma Cleanup_lookup (expiration : Time.Duration) (now : Time.Time) (st : State)
  (clientID : string) (bucket : loc) :
  buckets (limiter st) !! clientID = Some bucket ->
  buckets (limiter (Cleanup expiration now st)) !! clientID =
    if expired st expiration now bucket then None else Some bucket.
Proof.
  intros Hb. unfold Cleanup. cbn [limiter set_buckets buckets].
  destruct (expired st expiration now bucket) eqn:E.
  - apply map_lookup_filter_None. right. intros x Hx. cbn [snd].
    rewrite Hb in Hx. inversion Hx; subst x. rewrite E. discriminate.
  - apply map_lookup_filter_Some. split; [exact Hb|exact E].
Qed.

Lemma getBucket_creates (clientID : string) (created : Time.Time) (st : State) :
  buckets (limiter st) !! clientID = None ->
  let limit := limit_for clientID (limiter st) in
  let '(bucket, st') := getBucket clientID created st in
  store st' bucket = Bucket.NewTokenBucket (Capacity limit) (RefillRate limit) created
  /\ buckets (limiter st') !! clientID = Some bucket
  /\ clientLimits (limiter st') = clientLimits (limiter st).
Proof.
  intros Hnone. unfold getBucket, find_bucket. rewrite Hnone. unfold create_bucket.
  cbn [store limiter set_buckets buckets clientLimits].
  rewrite update_same, lookup_insert_eq. auto.
Qed.

(** Calls for a client whose bucket is registered are calls on that bucket. *)
Lemma allow_run_registered (clientID : string)
  (clock : list (Time.Time * Time.Time * Time.Time)) : forall (st : State) (bucket : loc),
  find_bucket clientID st = Some bucket ->
  fst (allow_run clientID clock st)
  = fst (Bucket.allow_run (map (fun r => (snd (fst r), snd r)) clock) (store st bucket)).
Proof.
  induction clock as [|[[created now] seen] rest IH]; intros st bucket Hfind; [reflexivity|].
  cbn [allow_run Bucket.allow_run map fst snd]. unfold Allow, getBucket. rewrite Hfind.
  unfold allow_at. destruct (Bucket.Allow now seen (store st bucket)) as [ok tb].
  specialize (IH {| limiter := limiter st; store := update bucket tb (store st);
                    next := next st |} bucket Hfind).
  cbn [store] in IH. rewrite update_same in IH.
  destruct (allow_run clientID rest _) as [oks st2].
  destruct (Bucket.allow_run _ tb) as [oks' tb2]. cbn [fst] in *. rewrite IH. reflexivity.
Qed.

(** Calls for a client seen for the first time are calls on a new bucket of
    the client's limit. *)
Lemma allow_run_first_sight (clientID : string) (created now seen : Time.Time)
  (clock : list (Time.Time * Time.Time * Time.Time)) (st : State) :
  find_bucket clientID st = None ->
  fst (allow_run clientID ((created, now, seen) :: clock) st)
  = fst (Bucket.allow_run ((now, seen) :: map (fun r => (snd (fst r), snd r)) clock)
           (Bucket.NewTokenBucket (Capacity (limit_for clientID (limiter st)))
                                  (RefillRate (limit_for clientID (limiter st))) created)).
Proof.
  intros Hfind. cbn [allow_run Bucket.allow_run]. unfold Allow, getBucket. rewrite Hfind.
  unfold create_bucket, allow_at. cbn [store]. rewrite update_same.
  destruct (Bucket.Allow now seen _) as [ok tb].
  match goal with |- context [allow_run clientID clock ?s] => set (st1 := s) end.
  pose proof (allow_run_registered clientID clock st1 (next st)) as Hrest.
  unfold find_bucket in Hrest. cbn [st1 limiter set_buckets buckets store] in Hrest.
  rewrite lookup_insert_eq, update_same in Hrest. specialize (Hrest eq_refl).
  destruct (allow_run clientID clock st1) as [oks st2].
  destruct (Bucket.allow_run _ tb) as [oks' tb2]. cbn [fst] in *. rewrite Hrest. reflexivity.
Qed.

(** C3: on a limiter of capacity 5 and rate 1, a client seen for the first
    time is allowed exactly five calls made at one instant and refused the
    sixth; a call 1.2 seconds later or more is allowed again. The same holds
    of the calls on the bucket itself. *)
Theorem basic_limit (clientID : string) (t0 t1 created seen : Time.Time) :
  1200000000 <= t1 - t0 ->
  fst (allow_run clientID
         [(t0, t0, t0); (t0, t0, t0); (t0, t0, t0); (t0, t0, t0); (t0, t0, t0);
          (t0, t0, t0); (created, t1, seen)]
         (initial 5 1))
  = [true; true; true; true; true; false; true]
  /\ fst (Bucket.allow_run
            [(t0, t0); (t0, t0); (t0, t0); (t0, t0); (t0, t0); (t0, t0); (t1, seen)]
            (Bucket.NewTokenBucket 5 1 t0))
     = [true; true; true; true; true; false; true].
Proof.
  intros Hwait. split; [|apply BucketFacts.bucket_basic_limit; exact Hwait].
  rewrite allow_run_first_sight by reflexivity.
  exact (BucketFacts.bucket_basic_limit t0 t1 seen Hwait).
Qed.

Lemma basic_limit_witness :
  fst (allow_run "client1"
         [(0, 0, 0); (0, 0, 0); (0, 0, 0); (0, 0, 0); (0, 0, 0); (0, 0, 0);
          (1200000000, 1200000000, 1200000001)]
         (initial 5 1))
  = [true; true; true; true; true; false; true].
Proof. apply (basic_limit "client1" 0 1200000000 1200000000 1200000001). lia. Defined.

(** C10: the sweep changes the map of buckets and nothing else: overrides,
    defaults and the allocated buckets are as before, and the map only loses
    the entries of expired buckets. For a client without an entry after the
    sweep, the next admission check creates a bucket that is full and carries
    the client's override, or the defaults when no override is registered:
    its capacity and its tokens are the capacity of that limit, its rate is
    the rate of that limit, and both its time stamps are the instant of the
    creation. *)
Theorem cleanup_frame (expiration : Time.Duration) (now : Time.Time) (st : State) :
  clientLimits (limiter (Cleanup expiration now st)) = clientLimits (limiter st)
  /\ defaultCapacity (limiter (Cleanup expiration now st)) = defaultCapacity (limiter st)
  /\ defaultRefillRate (limiter (Cleanup expiration now st)) = defaultRefillRate (limiter st)
  /\ store (Cleanup expiration now st) = store st
  /\ (forall (clientID : string) (bucket : loc),
        buckets (limiter st) !! clientID = Some bucket ->
        buckets (limiter (Cleanup expiration now st)) !! clientID =
          if expired st expiration now bucket then None else Some bucket)
  /\ (forall clientID : string,
        buckets (limiter st) !! clientID = None ->
        buckets (limiter (Cleanup expiration now st)) !! clientID = None)
  /\ (forall (clientID : string) (created later seen : Time.Time),
        buckets (limiter (Cleanup expiration now st)) !! clientID = None ->
        exists (bucket : loc) (st' : State) (limit : ClientLimit),
          getBucket clientID created (Cleanup expiration now st) = (bucket, st')
          /\ Allow clientID created later seen (Cleanup expiration now st)
             = allow_at bucket later seen st'
          /\ limit = default (Build_ClientLimit (defaultCapacity (limiter st))
                                                (defaultRefillRate (limiter st)))
                             (clientLimits (limiter st) !! clientID)
          /\ store st' bucket
             = Bucket.NewTokenBucket (Capacity limit) (RefillRate limit) created
          /\ Bucket.Tokens (store st' bucket) = Bucket.Capacity (store st' bucket)
          /\ buckets (limiter st') !! clientID = Some bucket
          /\ store st' bucket
             = {| Bucket.Capacity := Capacity limit;
                  Bucket.Tokens := Capacity limit;
                  Bucket.RefillRate := RefillRate limit;
                  Bucket.lastRefill := created;
                  Bucket.lastSeen := created |}
          /\ clientLimits (limiter st') = clientLimits (limiter st)
          /\ defaultCapacity (limiter st') = defaultCapacity (limiter st)
          /\ defaultRefillRate (limiter st') = defaultRefillRate (limiter st)).
Proof.
  split; [reflexivity|]. split; [reflexivity|]. split; [reflexivity|]. split; [reflexivity|].
  split; [|split].
  - intros clientID bucket Hb. apply Cleanup_lookup. exact Hb.
  - intros clientID Hnone. unfold Cleanup. cbn [limiter set_buckets buckets].
    apply map_lookup_filter_None. left. exact Hnone.
  - intros clientID created later seen Hnone.
    pose proof (getBucket_creates clientID created _ Hnone) as H.
    unfold Allow.
    assert (Hd : defaultCapacity (limiter (snd (getBucket clientID created
                                                  (Cleanup expiration now st))))
                 = defaultCapacity (limiter st)
                 /\ defaultRefillRate (limiter (snd (getBucket clientID created
                                                       (Cleanup expiration now st))))
                    = defaultRefillRate (limiter st)).
    { unfold getBucket, find_bucket. rewrite Hnone. split; reflexivity. }
    destruct (getBucket clientID created (Cleanup expiration now st)) as [bucket st'].
    cbn [snd] in Hd. destruct Hd as [Hdc Hdr].
    exists bucket, st', (limit_for clientID (limiter st)).
    destruct H as (Hs & Hm & Hcl).
    split; [reflexivity|]. split; [reflexivity|]. split.
    { unfold limit_for. destruct (clientLimits (limiter st) !! clientID); reflexivity. }
    split; [exact Hs|]. split; [rewrite Hs; reflexivity|]. split; [exact Hm|].
    split; [rewrite Hs; reflexivity|]. split; [exact Hcl|]. split; assumption.
Qed.

Lemma cleanup_frame_witness :
  buckets (limiter (Cleanup 300000000000 600000000000 one_client)) !! "client1" = None
  /\ clientLimits (limiter (Cleanup 300000000000 600000000000 one_client)) !! "client1"
     = Some {| Capacity := 3; RefillRate := 2 |}
  /\ exists (bucket : loc) (st' : State),
       getBucket "client1" 600000000007 (Cleanup 300000000000 600000000000 one_client)
       = (bucket, st')
       /\ store st' bucket
          = {| Bucket.Capacity := 3; Bucket.Tokens := 3; Bucket.RefillRate := 2;
               Bucket.lastRefill := 600000000007; Bucket.lastSeen := 600000000007 |}
       /\ clientLimits (limiter st') !! "client1" = Some {| Capacity := 3; RefillRate := 2 |}.
Proof.
  destruct (cleanup_frame 300000000000 600000000000 one_client)
    as (Hlim & _ & _ & _ & Hold & _ & Hnew).
  assert (Hgone : buckets (limiter (Cleanup 300000000000 600000000000 one_client)) !! "client1"
                  = None).
  { rewrite (Hold "client1" 0%nat); [reflexivity|]. vm_compute. reflexivity. }
  split; [exact Hgone|]. split; [rewrite Hlim; vm_compute; reflexivity|].
  destruct (Hnew "client1" 600000000007 600000000007 600000000007 Hgone)
    as (bucket & st' & limit & Hget & _ & Hl & _ & _ & _ & Hs & Hcl & _).
  exists bucket, st'. split; [exact Hget|]. split.
  - rewrite Hs, Hl. vm_compute. reflexivity.
  - rewrite Hcl. vm_compute. reflexivity.
Defined.

End RateLimiterFacts.

Module ConcurrentFacts.
Import RateLimiter Concurrent RateLimiterFacts.

(** C9, the failing schedule: two goroutines call [Allow] for a client that
    has no bucket yet, on a limiter of capacity 1 with no time elapsing; both
    do the lookup before either creates the bucket, each then creates and
    stores a bucket of its own, and both calls are granted. *)
Theorem first_sight_grants_twice :
  fst (run "client1" 0 [0; 1; 0; 1; 0; 1]%nat two_callers) = [Done true; Done true]
  /\ granted (fst (run "client1" 0 [0; 1; 0; 1; 0; 1]%nat two_callers)) = 2%nat
  /\ (Z.of_nat (granted (fst (run "client1" 0 [0; 1; 0; 1; 0; 1]%nat two_callers)))
      > Z.min 2 1).
Proof. repeat split. Qed.

(** *** Callers of a client whose bucket is already registered *)

Lemma count_insert (f : Position -> bool) (ps : list Position) : forall (i : nat) (p p' : Position),
  ps !! i = Some p ->
  (length (List.filter f (<[i := p']> ps)) + (if f p then 1 else 0)
   = length (List.filter f ps) + (if f p' then 1 else 0))%nat.
Proof.
  induction ps as [|q ps IH]; intros i p p' Hi; [discriminate|].
  destruct i as [|i]; cbn in Hi |- *.
  - inversion Hi; subst q. destruct (f p), (f p'); cbn; lia.
  - specialize (IH i p p' Hi). destruct (f q), (f p), (f p'); cbn in *;
      first [exact IH | f_equal; exact IH].
Qed.

Section RegisteredBucket.

Variable clientID : string.
Variable t : Time.Time.
Variable capacity : Z.
Variable bucket : loc.

Lemma Allow_now (tb : Bucket.TokenBucket) :
  Bucket.lastRefill tb = t -> 0 <= Bucket.Tokens tb <= max_int ->
  let '(ok, tb') := Bucket.Allow t t tb in
  Bucket.lastRefill tb' = t
  /\ (ok = true -> 0 < Bucket.Tokens tb /\ Bucket.Tokens tb' = Bucket.Tokens tb - 1)
  /\ (ok = false -> Bucket.Tokens tb = 0 /\ Bucket.Tokens tb' = 0).
Proof.
  intros Hl Hr. unfold Bucket.Allow. subst t.
  rewrite BucketFacts.refill_same_instant. cbn [Bucket.set_lastSeen Bucket.Tokens].
  destruct (Z.gtb_spec (Bucket.Tokens tb) 0) as [Hp|Hp]; cbn.
  - rewrite BucketFacts.wrap_int_small by (unfold min_int; lia).
    split; [reflexivity|]. split; intros E; [lia|discriminate E].
  - split; [reflexivity|]. split; intros E; [discriminate E|lia].
Qed.

Lemma schedule_one_consistent (i : nat) (cfg : list Position * State) :
  consistent clientID t capacity bucket cfg ->
  consistent clientID t capacity bucket (schedule_one clientID t i cfg).
Proof.
  destruct cfg as [ps st]. unfold consistent, schedule_one. cbn [fst snd].
  intros (Hfind & Hwait & Hlast & Hrange & Hsum & Hrej).
  destruct (ps !! i) as [p|] eqn:Hi; cbn [fst snd]; [|auto 10].
  pose proof (Forall_lookup_1 _ _ _ _ Hwait Hi) as Hp.
  pose proof (count_insert (is_done true) ps i p) as Cadm.
  pose proof (count_insert (is_done false) ps i p) as Crej.
  fold (granted ps) in Cadm. fold (rejected ps) in Crej.
  destruct Hp as [->|[->|[ok ->]]]; cbn [step].
  - rewrite Hfind. cbn [fst snd].
    specialize (Cadm (AtAllow bucket) Hi). specialize (Crej (AtAllow bucket) Hi).
    cbn in Cadm, Crej. unfold granted, rejected in *.
    split; [exact Hfind|]. split.
    { apply Forall_insert; [exact Hwait|]. right. left. reflexivity. }
    split; [exact Hlast|]. split; [exact Hrange|]. split; [lia|].
    intros Hr. apply Hrej. lia.
  - unfold allow_at.
    pose proof (Allow_now (store st bucket) Hlast Hrange) as Hallow.
    destruct (Bucket.Allow t t (store st bucket)) as [ok tb'].
    destruct Hallow as (Hl' & Htrue & Hfalse).
    cbn [fst snd store limiter]. rewrite update_same.
    specialize (Cadm (Done ok) Hi). specialize (Crej (Done ok) Hi).
    cbn in Cadm, Crej. unfold granted, rejected in *.
    split; [exact Hfind|]. split.
    { apply Forall_insert; [exact Hwait|]. right. right. exists ok. reflexivity. }
    split; [exact Hl'|].
    destruct ok; cbn in Cadm, Crej.
    + destruct (Htrue eq_refl) as [Hpos Htok].
      split; [lia|]. split; [lia|]. intros Hr.
      assert (H0 : Bucket.Tokens (store st bucket) = 0) by (apply Hrej; lia). lia.
    + destruct (Hfalse eq_refl) as [Hzero Htok].
      split; [lia|]. split; [lia|]. intros _. exact Htok.
  - rewrite list_insert_id by exact Hi. auto 10.
Qed.

Lemma run_consistent (schedule : list nat) : forall cfg : list Position * State,
  consistent clientID t capacity bucket cfg ->
  consistent clientID t capacity bucket (run clientID t schedule cfg).
Proof.
  unfold run. induction schedule as [|i rest IH]; intros cfg H; [exact H|].
  cbn [fold_left]. apply IH, schedule_one_consistent, H.
Qed.

Lemma run_length (schedule : list nat) : forall cfg : list Position * State,
  length (fst (run clientID t schedule cfg)) = length (fst cfg).
Proof.
  unfold run. induction schedule as [|i rest IH]; intros cfg; [reflexivity|].
  cbn [fold_left]. rewrite IH. unfold schedule_one.
  destruct (fst cfg !! i) as [p|]; [|reflexivity].
  destruct (step clientID t p (snd cfg)). cbn [fst]. apply length_insert.
Qed.

Lemma done_partition (ps : list Position) :
  finished ps -> (granted ps + rejected ps = length ps)%nat.
Proof.
  unfold finished, granted, rejected. induction 1 as [|p ps [ok ->] _ IH]; [reflexivity|].
  destruct ok; cbn; lia.
Qed.

Lemma granted_le_length (ps : list Position) : (granted ps <= length ps)%nat.
Proof. unfold granted. apply filter_length_le. Qed.

End RegisteredBucket.

(** Once the bucket of the client is registered, full and just created, [N]
    concurrent calls allow at most [min (N, C)] requests at any point of any
    interleaving, and exactly [min (N, C)] when all calls have returned. *)
Lemma registered_bucket_linearizable
  (clientID : string) (t : Time.Time) (capacity refillRate : Z) (bucket : loc)
  (st : State) (N : nat) (schedule : list nat) :
  0 <= capacity <= max_int ->
  find_bucket clientID st = Some bucket ->
  store st bucket = Bucket.NewTokenBucket capacity refillRate t ->
  let ps := fst (run clientID t schedule (replicate N AtLookup, st)) in
  Z.of_nat (granted ps) <= Z.min (Z.of_nat N) capacity
  /\ (finished ps -> Z.of_nat (granted ps) = Z.min (Z.of_nat N) capacity).
Proof.
  intros Hcap Hfind Hstore ps.
  assert (Hinit : consistent clientID t capacity bucket (replicate N AtLookup, st)).
  { unfold consistent. cbn [fst snd]. rewrite Hstore. cbn.
    assert (Hz : forall ok, List.filter (is_done ok) (replicate N AtLookup) = []).
    { intros ok. induction N as [|n IH]; [reflexivity|exact IH]. }
    unfold granted, rejected. rewrite !Hz. cbn.
    repeat split; try assumption; try lia.
    apply Forall_replicate. left. reflexivity. }
  pose proof (run_consistent clientID t capacity bucket schedule _ Hinit)
    as (_ & _ & _ & Hrange & Hsum & Hrej).
  pose proof (run_length clientID t schedule (replicate N AtLookup, st)) as Hlen.
  cbn [fst] in Hlen. rewrite length_replicate in Hlen.
  fold ps in Hrange, Hsum, Hrej, Hlen.
  pose proof (granted_le_length ps) as Hle.
  split; [lia|]. intros Hfin.
  pose proof (done_partition ps Hfin) as Hpart.
  destruct (rejected ps) as [|r] eqn:Er; [lia|].
  specialize (Hrej ltac:(lia)). lia.
Qed.

End ConcurrentFacts.

Module ProxyFacts.
Import HTTP Proxy.
Local Open Scope string_scope.

(** *** Client identity *)

Lemma Split_without_separator (s : string) (sep : ascii) :
  has_byte s sep = false -> Split s sep = [s].
Proof.
  unfold has_byte. induction s as [|c rest IH]; intros H; [reflexivity|].
  cbn [Split IndexByte] in *. destruct (Ascii.eqb c sep); [discriminate|].
  rewrite IH; [reflexivity|]. destruct (IndexByte rest sep); [discriminate|reflexivity].
Qed.

(** The handler's [getClientIP] follows the precedence of the contract,
    except on a forwarded-for header that is present and empty. *)
Lemma getClientIP_identify (r : Request) :
  (forall others, RequestHeader r !! CanonicalMIMEHeaderKey "X-Forwarded-For"
                  <> Some ("" :: others)) ->
  getClientIP r = identify r.
Proof.
  intros Hpresent. unfold getClientIP, identify.
  destruct (negb (String.eqb (Get (RequestHeader r) "X-Real-IP") "")); [reflexivity|].
  unfold Get at 1 2.
  destruct (RequestHeader r !! CanonicalMIMEHeaderKey "X-Forwarded-For") as [[|v vs]|] eqn:E;
    try (cbn; destruct (SplitHostPort (RemoteAddr r)) as [[host port]|]; reflexivity).
  destruct (String.eqb_spec v "") as [->|Hne]; [|reflexivity].
  exfalso. exact (Hpresent vs eq_refl).
Qed.

(** The middleware's [extractClientIP] agrees with [getClientIP] whenever the
    forwarded-for header is not consulted or holds a single entry. *)
Lemma extractClientIP_getClientIP (r : Request) :
  Get (RequestHeader r) "X-Real-IP" <> ""
  \/ has_byte (Get (RequestHeader r) "X-Forwarded-For") "," = false ->
  extractClientIP r = getClientIP r.
Proof.
  intros H. unfold extractClientIP, getClientIP.
  destruct (String.eqb_spec (Get (RequestHeader r) "X-Real-IP") "") as [E|Hne]; cbn [negb].
  - destruct H as [H|H]; [contradiction|].
    destruct (String.eqb_spec (Get (RequestHeader r) "X-Forwarded-For") "") as [E'|Hne'];
      cbn [negb].
    + destruct (SplitHostPort (RemoteAddr r)) as [[host port]|]; reflexivity.
    + rewrite Split_without_separator by exact H. reflexivity.
  - destruct (String.eqb_spec (Get (RequestHeader r) "X-Real-IP") ""); [contradiction|].
    reflexivity.
Qed.

(** C1, the failing input: for a request that carries a forwarded-for list
    the middleware identifies the client by the whole list, where the
    contract and the handler's [getClientIP] take its first entry. *)
Theorem middleware_identity_keeps_list :
  extractClientIP forwarded_request = "10.0.0.1, 10.0.0.2"
  /\ identify forwarded_request = "10.0.0.1"
  /\ getClientIP forwarded_request = "10.0.0.1"
  /\ extractClientIP forwarded_request <> identify forwarded_request.
Proof. repeat split; try (vm_compute; reflexivity). vm_compute. discriminate. Qed.

(** *** Responses on failure *)

Lemma Encode_starts_with_brace (e : errorResponse) : starts_with (Encode e) "{" = true.
Proof. reflexivity. Qed.

Lemma rate_limit_body_not_json (code : Z) :
  ~ is_json_error code (Body (Error "Rate limit exceeded" 429)).
Proof.
  intros [message H].
  assert (E : starts_with (Body (Error "Rate limit exceeded" 429)) "{" = true)
    by (rewrite H; apply Encode_starts_with_brace).
  vm_compute in E. discriminate.
Qed.

(** A request that the limiter rejects is answered by [http.Error]. *)
Lemma rejected_by_limiter (mux : ServeMux) (roundTrip : Transport)
  (created now seen : Time.Time) (r : Request) (p : ProxyServer) :
  fst (RateLimiter.Allow (extractClientIP r) created now seen (rateLimiter p)) = false ->
  fst (ServeHTTP mux roundTrip created now seen r p) = Ret (Error "Rate limit exceeded" 429).
Proof.
  intros H. unfold ServeHTTP, RateLimitMiddleware.
  destruct (RateLimiter.Allow (extractClientIP r) created now seen (rateLimiter p)) as [ok rl].
  cbn [fst] in H. subst ok. reflexivity.
Qed.

(** A request that the limiter allows and that finds no backend, or whose
    forwarding fails, is answered 503 with the JSON error object; in the
    second case the target is marked first. *)
Lemma unavailable_is_json (roundTrip : Transport) (r : Request) (p : ProxyServer) :
  match Balancer.NextAvailableBackend (balancer p) with
  | (Ret None, lb) =>
      handleProxy roundTrip r p
      = (Ret (sendJSONError 503 "No available backends"),
         {| balancer := lb; rateLimiter := rateLimiter p |})
  | (Ret (Some index), lb) =>
      forall target, Balancer.backends lb !! index = Some target ->
      roundTrip (Balancer.Address target) r = None ->
      handleProxy roundTrip r p
      = (Ret (sendJSONError 503 "Backend unavailable"),
         {| balancer := Balancer.MarkBackendUnhealthy lb (Balancer.Address target);
            rateLimiter := rateLimiter p |})
  | (Panic, _) => True
  end
  /\ forall message, StatusCode (sendJSONError 503 message) = 503
                     /\ is_json_error 503 (Body (sendJSONError 503 message)).
Proof.
  split.
  - unfold handleProxy.
    destruct (Balancer.NextAvailableBackend (balancer p)) as [[[index|]|] lb]; [|reflexivity|exact I].
    intros target Ht Hrt. rewrite Ht, Hrt. reflexivity.
  - intros message. split; [reflexivity|]. exists message. reflexivity.
Qed.

(** C2, the failing input: the second request of a client at the same
    instant, on a limiter of capacity 1, is answered 429 with the plain text
    of [http.Error], which is not the JSON error object, whatever the mux
    would do with the request; a request that the mux dispatches and whose
    forwarding fails is answered 503 with the JSON error object. *)
Theorem rate_limit_rejection_is_plain_text :
  (forall mux : ServeMux,
      fst (ServeHTTP mux echo_transport 0 0 0 direct_request busy_server)
      = Ret {| StatusCode := 429;
               ResponseHeader := [("Content-Type", "text/plain; charset=utf-8");
                                  ("X-Content-Type-Options", "nosniff")];
               Body := "Rate limit exceeded" ++ newline |})
  /\ (forall code : Z,
        ~ is_json_error code (Body (Error "Rate limit exceeded" 429)))
  /\ (forall mux : ServeMux,
        mux direct_request = None ->
        fst (ServeHTTP mux failing_transport 0 0 0 direct_request small_server)
        = Ret (sendJSONError 503 "Backend unavailable")).
Proof.
  split; [|split; [exact rate_limit_body_not_json|]].
  - intros mux. apply rejected_by_limiter. vm_compute. reflexivity.
  - intros mux Hmux. unfold ServeHTTP, RateLimitMiddleware.
    destruct (RateLimiter.Allow (extractClientIP direct_request) 0 0 0 (rateLimiter small_server))
      as [ok rl] eqn:E.
    assert (Hok : ok = true).
    { change ok with (fst (ok, rl)). rewrite <- E. vm_compute. reflexivity. }
    subst ok. cbn [negb]. unfold dispatch. rewrite Hmux. vm_compute. reflexivity.
Qed.

Lemma rate_limit_rejection_is_plain_text_witness :
  fst (ServeHTTP dispatching_mux failing_transport 0 0 0 direct_request small_server)
  = Ret (sendJSONError 503 "Backend unavailable")
  /\ fst (ServeHTTP dispatching_mux echo_transport 0 0 0 direct_request busy_server)
     = Ret (Error "Rate limit exceeded" 429).
Proof.
  destruct rate_limit_rejection_is_plain_text as (H429 & _ & H503).
  split; [apply H503; reflexivity|apply H429].
Defined.

End ProxyFacts.

Module SelectionFacts.
Import Balancer BalancerFacts.

(** What the attempts of one call establish; the [j]-th attempt examines the
    position [wrap32 (c + j) mod uint32 (total)] for the starting cursor [c]. *)
Lemma attempt_loop_spec (k : nat) (total : Z) : forall lb : RoundRobinLoadBalancer,
  match attempt_loop k total lb with
  | (Ret (Some i), lb') =>
      backends lb' = backends lb
      /\ (exists b, backends lb !! i = Some b /\ IsAlive b = true)
      /\ exists j : nat, (1 <= j <= k)%nat
           /\ i = Z.to_nat (wrap32 (currentIndex lb + Z.of_nat j) mod wrap32 total)
           /\ currentIndex lb' = wrap32 (currentIndex lb + Z.of_nat j)
  | (Ret None, lb') =>
      backends lb' = backends lb
      /\ (forall j : nat, (1 <= j <= k)%nat ->
            exists b, backends lb !! Z.to_nat (wrap32 (currentIndex lb + Z.of_nat j)
                                                mod wrap32 total) = Some b
                      /\ IsAlive b = false)
      /\ (k = 0%nat -> lb' = lb)
      /\ ((0 < k)%nat -> currentIndex lb' = wrap32 (currentIndex lb + Z.of_nat k))
  | (Panic, lb') =>
      backends lb' = backends lb
      /\ (wrap32 total = 0
          \/ exists j : nat,
               backends lb !! Z.to_nat (wrap32 (currentIndex lb + Z.of_nat j) mod wrap32 total)
               = None)
  end.
Proof.
  induction k as [|k IH]; intros lb.
  { cbn [attempt_loop]. split; [reflexivity|]. split; [intros j Hj; lia|]. split; [auto|lia]. }
  cbn [attempt_loop]. destruct (Z.eqb_spec (wrap32 total) 0) as [Ez|Ez]; [split; [reflexivity|auto]|].
  destruct (backends lb !! Z.to_nat (wrap32 (currentIndex lb + 1) mod wrap32 total))
    as [candidate|] eqn:Hc.
  2:{ split; [reflexivity|]. right. exists 1%nat. exact Hc. }
  destruct (IsAlive candidate) eqn:Ha.
  - cbn [set_cursor backends currentIndex]. split; [reflexivity|]. split; [eauto|].
    exists 1%nat. change (Z.of_nat 1) with 1. split; [lia|]. split; reflexivity.
  - specialize (IH (set_cursor lb (wrap32 (currentIndex lb + 1)))).
    destruct (attempt_loop k total (set_cursor lb (wrap32 (currentIndex lb + 1))))
      as [[[i|]|] lb'] eqn:E; cbn [set_cursor backends currentIndex] in IH.
    + destruct IH as (Hb & Hal & j & Hj & Hi & Hcur). split; [exact Hb|]. split; [exact Hal|].
      exists (S j). rewrite wrap32_add_l in Hi, Hcur.
      replace (currentIndex lb + Z.of_nat (S j)) with (currentIndex lb + 1 + Z.of_nat j) by lia.
      split; [lia|]. split; assumption.
    + destruct IH as (Hb & Hdead & Hz & Hcur). split; [exact Hb|]. split; [|split].
      * intros j Hj. destruct (Nat.eq_dec j 1%nat) as [Hj1|Hne].
        { subst j. exists candidate. change (Z.of_nat 1) with 1. split; [exact Hc|exact Ha]. }
        destruct (Hdead (j - 1)%nat ltac:(lia)) as (b & Hb1 & Hb2).
        exists b. split; [|exact Hb2]. rewrite wrap32_add_l in Hb1.
        replace (currentIndex lb + Z.of_nat j) with (currentIndex lb + 1 + Z.of_nat (j - 1)) by lia.
        exact Hb1.
      * intros Hk. lia.
      * intros _. destruct k as [|k].
        { rewrite (Hz eq_refl). cbn [set_cursor currentIndex]. reflexivity. }
        rewrite Hcur by lia. rewrite wrap32_add_l.
        replace (currentIndex lb + 1 + Z.of_nat (S k)) with (currentIndex lb + Z.of_nat (S (S k))) by lia.
        reflexivity.
    + destruct IH as [Hb [Hz|[j Hj]]]; (split; [exact Hb|]); [left; exact Hz|].
      right. exists (S j). rewrite wrap32_add_l in Hj.
      replace (currentIndex lb + Z.of_nat (S j)) with (currentIndex lb + 1 + Z.of_nat j) by lia.
      exact Hj.
Qed.

(** A selection returns only a backend that is in the pool and alive, after
    at most as many cursor increments as the pool has backends, and never
    changes the pool itself. *)
Theorem selected_is_alive (lb : RoundRobinLoadBalancer) :
  backends (snd (NextAvailableBackend lb)) = backends lb
  /\ forall i : nat,
       fst (NextAvailableBackend lb) = Ret (Some i) ->
       (exists b, backends lb !! i = Some b /\ IsAlive b = true)
       /\ exists j : nat, (1 <= j <= length (backends lb))%nat
            /\ currentIndex (snd (NextAvailableBackend lb))
               = wrap32 (currentIndex lb + Z.of_nat j).
Proof.
  unfold NextAvailableBackend.
  pose proof (attempt_loop_spec (length (backends lb)) (Z.of_nat (length (backends lb))) lb) as H.
  destruct (attempt_loop _ _ lb) as [[[i|]|] lb']; cbn [fst snd].
  - destruct H as (Hb & Hal & j & Hj & _ & Hcur). split; [exact Hb|].
    intros i' E. inversion E; subst i'. split; [exact Hal|]. exists j. auto.
  - destruct H as (Hb & _). split; [exact Hb|]. intros i E. discriminate E.
  - destruct H as (Hb & _). split; [exact Hb|]. intros i E. discriminate E.
Qed.

Lemma selected_is_alive_witness :
  exists b, backends pool_one_down !! 0%nat = Some b /\ IsAlive b = true.
Proof.
  destruct (selected_is_alive pool_one_down) as [_ H].
  destruct (H 0%nat) as [Hal _]; [vm_compute; reflexivity|exact Hal].
Defined.

(** When some backend is alive, the pool has fewer than [2 ^ 32] backends and
    the cursor does not wrap around within the call (or the pool size divides
    [2 ^ 32]), a selection finds a live backend: it returns neither nil nor
    panics. *)
Theorem finds_live_backend (lb : RoundRobinLoadBalancer) (p : nat) (b : Backend) :
  Z.of_nat (length (backends lb)) < 2 ^ 32 ->
  (0 <= currentIndex lb /\ currentIndex lb + Z.of_nat (length (backends lb)) < 2 ^ 32)
  \/ 2 ^ 32 mod Z.of_nat (length (backends lb)) = 0 ->
  backends lb !! p = Some b -> IsAlive b = true ->
  exists (i : nat) (b' : Backend),
    fst (NextAvailableBackend lb) = Ret (Some i)
    /\ backends lb !! i = Some b' /\ IsAlive b' = true.
Proof.
  intros Hlt Hwrap Hp Hb.
  assert (Hpos : (0 < length (backends lb))%nat).
  { apply lookup_lt_Some in Hp. lia. }
  unfold NextAvailableBackend.
  pose proof (attempt_loop_spec (length (backends lb)) (Z.of_nat (length (backends lb))) lb) as H.
  rewrite wrap32_small in H by lia.
  destruct (attempt_loop _ _ lb) as [[[i|]|] lb'] eqn:E; cbn [fst].
  - destruct H as (_ & (b' & Hb1 & Hb2) & _). exists i, b'. auto.
  - exfalso. destruct H as (_ & Hdead & _).
    pose proof (rotation_permutation (currentIndex lb) (length (backends lb))) as Hperm.
    assert (Hin : In p (seq 0 (length (backends lb)))).
    { apply in_seq. apply lookup_lt_Some in Hp. lia. }
    apply (Permutation_in _ (Permutation_sym Hperm)) in Hin.
    apply in_map_iff in Hin. destruct Hin as (j & Hj & Hjr). apply in_seq in Hjr.
    destruct (Hdead j ltac:(lia)) as (b' & Hb1 & Hb2).
    rewrite reduced_index in Hb1 by (assumption || lia).
    rewrite Hj, Hp in Hb1. inversion Hb1; subst b'. congruence.
  - exfalso. destruct H as (_ & [Hz|[j Hj]]); [lia|].
    pose proof (index_in_range (wrap32 (currentIndex lb + Z.of_nat j)) _ Hpos) as Hr.
    apply lookup_lt_is_Some_2 in Hr. destruct Hr as [c Hc]. congruence.
Qed.

Lemma finds_live_backend_witness :
  exists (i : nat) (b' : Backend),
    fst (NextAvailableBackend pool_one_down) = Ret (Some i)
    /\ backends pool_one_down !! i = Some b' /\ IsAlive b' = true.
Proof.
  apply (finds_live_backend pool_one_down 0%nat {| Address := "http://s1:8081"; IsAlive := true |});
    [cbn; lia|left; cbn; lia|reflexivity|reflexivity].
Defined.

Lemma mark_loop_alive (X : string) (bs : list Backend) : forall (i : nat) (b : Backend),
  NoDup (map Address bs) -> mark_loop bs X !! i = Some b -> IsAlive b = true ->
  Address b <> X /\ bs !! i = Some b.
Proof.
  induction bs as [|b0 bs IH]; intros i b Hnd Hi Ha; [discriminate|].
  cbn [map] in Hnd. apply NoDup_cons in Hnd. destruct Hnd as [Hnotin Hnd].
  cbn [mark_loop] in Hi. destruct (String.eqb_spec (Address b0) X) as [E|E].
  - destruct i as [|i]; cbn in Hi.
    + inversion Hi; subst b. cbn in Ha. discriminate.
    + split; [|exact Hi]. intros Hb. apply Hnotin. rewrite E, <- Hb.
      apply list_elem_of_In, in_map, list_elem_of_In. eapply list_elem_of_lookup_2. exact Hi.
  - destruct i as [|i]; cbn in Hi.
    + inversion Hi; subst b. split; [exact E|reflexivity].
    + apply IH; assumption.
Qed.

(** After a backend has been marked unhealthy, a selection does not return a
    backend of that address, provided no two backends of the pool share an
    address; what it returns is a backend that was alive before. *)
Theorem marked_backend_not_selected (lb : RoundRobinLoadBalancer) (X : string) (i : nat) :
  NoDup (map Address (backends lb)) ->
  fst (NextAvailableBackend (MarkBackendUnhealthy lb X)) = Ret (Some i) ->
  exists b, backends lb !! i = Some b /\ IsAlive b = true /\ Address b <> X.
Proof.
  intros Hnd Hsel. unfold NextAvailableBackend in Hsel.
  pose proof (attempt_loop_spec (length (backends (MarkBackendUnhealthy lb X)))
                (Z.of_nat (length (backends (MarkBackendUnhealthy lb X))))
                (MarkBackendUnhealthy lb X)) as H.
  destruct (attempt_loop _ _ (MarkBackendUnhealthy lb X)) as [[[i'|]|] lb'];
    cbn [fst] in Hsel; try discriminate Hsel.
  inversion Hsel; subst i'. destruct H as (_ & (b & Hb & Ha) & _).
  cbn [MarkBackendUnhealthy backends] in Hb.
  destruct (mark_loop_alive X (backends lb) i b Hnd Hb Ha) as [Hne Hlk].
  exists b. auto.
Qed.

Lemma marked_backend_not_selected_witness :
  exists b, backends pool_at_wrap !! 0%nat = Some b /\ IsAlive b = true
            /\ Address b <> "http://s2:8082"%string.
Proof.
  apply (marked_backend_not_selected pool_at_wrap "http://s2:8082" 0%nat).
  - cbn. repeat (apply NoDup_cons; split; [intros Hin;
      repeat (apply elem_of_cons in Hin; destruct Hin as [Hin|Hin]; [discriminate Hin|]);
      apply elem_of_nil in Hin; exact Hin|]). apply NoDup_nil. exact I.
  - vm_compute. reflexivity.
Defined.

(** *** Construction *)

Lemma register_backends_spec (parse : string -> option string) (urls : list string) :
  forall registered : list Backend,
    register_backends parse urls registered
    = registered ++ map (fun u => {| Address := u; IsAlive := true |}) (omap parse urls).
Proof.
  induction urls as [|u urls IH]; intros registered; cbn [register_backends omap].
  - rewrite app_nil_r. reflexivity.
  - unfold omap, list_omap in *. fold (@omap list _ _ _ parse urls) in *.
    destruct (parse u) as [v|]; rewrite IH; [|reflexivity].
    rewrite <- app_assoc. reflexivity.
Qed.




(** *** Health probes *)

Lemma check_backend_lookup (get : nat -> string -> option Z) (i j : nat)
  (lb : RoundRobinLoadBalancer) :
  backends (check_backend get i lb) !! j
  = if decide (j = i) then probed get i <$> backends lb !! j else backends lb !! j.
Proof.
  unfold check_backend. destruct (backends lb !! i) as [b|] eqn:Hi.
  - cbn [store_alive backends]. destruct (decide (j = i)) as [->|Hne].
    + rewrite list_lookup_alter_eq, Hi. reflexivity.
    + rewrite list_lookup_alter_ne by congruence. reflexivity.
  - destruct (decide (j = i)) as [->|Hne]; [rewrite Hi|]; reflexivity.
Qed.

Lemma check_backend_cursor (get : nat -> string -> option Z) (i : nat)
  (lb : RoundRobinLoadBalancer) :
  currentIndex (check_backend get i lb) = currentIndex lb.
Proof. unfold check_backend. destruct (backends lb !! i); reflexivity. Qed.

Lemma health_cycle_lookup (get : nat -> string -> option Z) (order : list nat) :
  forall (lb : RoundRobinLoadBalancer) (j : nat),
    backends (health_cycle get order lb) !! j
    = (if decide (j ∈ order) then probed get j <$> backends lb !! j else backends lb !! j)
    /\ currentIndex (health_cycle get order lb) = currentIndex lb.
Proof.
  unfold health_cycle.
  induction order as [|i rest IH]; intros lb j; cbn [fold_left].
  - split; [|reflexivity]. destruct (decide (j ∈ [])) as [H|_]; [|reflexivity].
    apply elem_of_nil in H. contradiction.
  - destruct (IH (check_backend get i lb) j) as [Hl Hc]. rewrite Hl, Hc.
    split; [|apply check_backend_cursor]. rewrite check_backend_lookup.
    destruct (decide (j ∈ rest)) as [Hr|Hr]; destruct (decide (j = i)) as [->|Hne].
    + rewrite decide_True by (left). destruct (backends lb !! i); reflexivity.
    + rewrite decide_True by (right; exact Hr). reflexivity.
    + rewrite decide_True by (left). reflexivity.
    + rewrite decide_False; [reflexivity|]. intros H. apply elem_of_cons in H.
      destruct H; contradiction.
Qed.

(** One tick of the health check leaves every backend alive exactly when its
    own probe returned status 200 without an error, whatever the flags were
    before and in whatever order the probes finish; addresses and cursor are
    untouched. *)
Theorem health_cycle_result (get : nat -> string -> option Z) (order : list nat)
  (lb : RoundRobinLoadBalancer) :
  Permutation order (seq 0 (length (backends lb))) ->
  health_cycle get order lb
  = {| backends := imap (probed get) (backends lb); currentIndex := currentIndex lb |}.
Proof.
  intros Hperm.
  assert (Hb : backends (health_cycle get order lb) = imap (probed get) (backends lb)).
  { apply list_eq. intros j. destruct (health_cycle_lookup get order lb j) as [Hl _].
    rewrite Hl, list_lookup_imap.
    destruct (decide (j ∈ order)) as [Hin|Hnot]; [reflexivity|].
    destruct (backends lb !! j) as [b|] eqn:Hj; [|reflexivity].
    exfalso. apply Hnot. apply list_elem_of_In.
    apply (Permutation_in _ (Permutation_sym Hperm)). apply in_seq.
    apply lookup_lt_Some in Hj. lia. }
  destruct (health_cycle_lookup get order lb 0%nat) as [_ Hc].
  destruct (health_cycle get order lb) as [bs c]. cbn [backends currentIndex] in *.
  subst. reflexivity.
Qed.

Lemma health_cycle_result_witness :
  health_cycle (fun i _ => if Nat.eqb i 0 then Some 503 else Some 200) [1; 0]%nat pool_one_down
  = {| backends := [ {| Address := "http://s1:8081"; IsAlive := false |};
                     {| Address := "http://s2:8082"; IsAlive := true |} ];
       currentIndex := 7 |}.
Proof.
  rewrite (health_cycle_result _ [1; 0]%nat pool_one_down); [reflexivity|].
  cbn. apply perm_swap.
Defined.

End SelectionFacts.

Module RegistryFacts.
Import RateLimiter RateLimiterFacts.

Lemma initial_registered_ok (capacity refillRate : Z) : registered_ok (initial capacity refillRate).
Proof.
  split; cbn; intros clientID; intros; rewrite lookup_empty in *; discriminate.
Qed.

Lemma getBucket_registered_ok (clientID : string) (created : Time.Time) (st : State) :
  registered_ok st ->
  registered_ok (snd (getBucket clientID created st))
  /\ buckets (limiter (snd (getBucket clientID created st))) !! clientID
     = Some (fst (getBucket clientID created st))
  /\ (fst (getBucket clientID created st) < next (snd (getBucket clientID created st)))%nat.
Proof.
  intros [Halloc Hinj]. unfold getBucket, find_bucket.
  destruct (buckets (limiter st) !! clientID) as [bucket|] eqn:Hfind; cbn [fst snd].
  - split; [split; assumption|]. split; [exact Hfind|]. apply (Halloc clientID). exact Hfind.
  - unfold create_bucket, registered_ok. cbn [fst snd limiter set_buckets buckets next].
    split; [split|].
    + intros id l Hl. destruct (decide (clientID = id)) as [->|Hne].
      * rewrite lookup_insert_eq in Hl. inversion Hl. lia.
      * rewrite lookup_insert_ne in Hl by exact Hne. pose proof (Halloc id l Hl). lia.
    + intros id1 id2 l H1 H2.
      destruct (decide (clientID = id1)) as [E1|N1]; destruct (decide (clientID = id2)) as [E2|N2].
      * congruence.
      * subst id1. rewrite lookup_insert_eq in H1. rewrite lookup_insert_ne in H2 by exact N2.
        inversion H1; subst l. pose proof (Halloc id2 _ H2). lia.
      * subst id2. rewrite lookup_insert_eq in H2. rewrite lookup_insert_ne in H1 by exact N1.
        inversion H2; subst l. pose proof (Halloc id1 _ H1). lia.
      * rewrite lookup_insert_ne in H1 by exact N1. rewrite lookup_insert_ne in H2 by exact N2.
        exact (Hinj id1 id2 l H1 H2).
    + split; [apply lookup_insert_eq|lia].
Qed.

Lemma allow_at_limiter (bucket : loc) (now seen : Time.Time) (st : State) :
  limiter (snd (allow_at bucket now seen st)) = limiter st
  /\ next (snd (allow_at bucket now seen st)) = next st
  /\ store (snd (allow_at bucket now seen st))
     = update bucket (snd (Bucket.Allow now seen (store st bucket))) (store st)
  /\ fst (allow_at bucket now seen st) = fst (Bucket.Allow now seen (store st bucket)).
Proof.
  unfold allow_at. destruct (Bucket.Allow now seen (store st bucket)) as [ok tb]. auto.
Qed.

Lemma Allow_registered_ok (clientID : string) (created now seen : Time.Time) (st : State) :
  registered_ok st -> registered_ok (snd (Allow clientID created now seen st)).
Proof.
  intros Hok. unfold Allow.
  destruct (getBucket_registered_ok clientID created st Hok) as ([Halloc Hinj] & _).
  destruct (getBucket clientID created st) as [bucket st1]. cbn [fst snd] in *.
  destruct (allow_at_limiter bucket now seen st1) as (Hl & Hn & _).
  unfold registered_ok. rewrite Hl, Hn. split; assumption.
Qed.

Lemma Cleanup_registered_ok (expiration : Time.Duration) (now : Time.Time) (st : State) :
  registered_ok st -> registered_ok (Cleanup expiration now st).
Proof.
  intros [Halloc Hinj]. unfold registered_ok, Cleanup. cbn [limiter set_buckets buckets next].
  split.
  - intros id l Hl. apply map_lookup_filter_Some in Hl. apply (Halloc id l), Hl.
  - intros id1 id2 l H1 H2. apply map_lookup_filter_Some in H1, H2.
    exact (Hinj id1 id2 l (proj1 H1) (proj1 H2)).
Qed.

(** The registry invariant: a new limiter satisfies it, and admission checks,
    overrides and sweeps keep it. Every registered bucket has been allocated
    and no two clients ever share a bucket. *)
Theorem registry_invariant (capacity refillRate : Z) :
  registered_ok (initial capacity refillRate)
  /\ forall st : State, registered_ok st ->
       (forall (clientID : string) (created now seen : Time.Time),
           registered_ok (snd (Allow clientID created now seen st)))
       /\ (forall (clientID : string) (limit : ClientLimit),
             registered_ok (SetClientLimit clientID limit st))
       /\ (forall (expiration : Time.Duration) (now : Time.Time),
             registered_ok (Cleanup expiration now st)).
Proof.
  split; [apply initial_registered_ok|]. intros st Hok. split; [|split].
  - intros. apply Allow_registered_ok. exact Hok.
  - intros. exact Hok.
  - intros. apply Cleanup_registered_ok. exact Hok.
Qed.

Lemma registry_invariant_witness : registered_ok (Cleanup 300000000000 600000000000 one_client).
Proof.
  destruct (registry_invariant 5 1) as [H0 Hstep].
  destruct (Hstep (SetClientLimit "client1" {| Capacity := 3; RefillRate := 2 |} (initial 5 1)))
    as (Hallow & _).
  { destruct (Hstep (initial 5 1) H0) as (_ & Hset & _). apply Hset. }
  destruct (Hstep one_client (Hallow "client1" 0 0 0)) as (_ & _ & Hclean).
  apply Hclean.
Defined.

(** What a client can observe of the registry: its bucket, if it has one, and
    the limit a new bucket would get. *)
Lemma Allow_for_other_client (A B : string) (created now seen : Time.Time) (st : State) :
  registered_ok st -> A <> B ->
  find_bucket B (snd (Allow A created now seen st)) = find_bucket B st
  /\ (forall bucket, find_bucket B st = Some bucket ->
        store (snd (Allow A created now seen st)) bucket = store st bucket)
  /\ limit_for B (limiter (snd (Allow A created now seen st))) = limit_for B (limiter st).
Proof.
  intros [Halloc Hinj] Hne. unfold Allow, getBucket, find_bucket.
  destruct (buckets (limiter st) !! A) as [bucketA|] eqn:HA.
  - destruct (allow_at_limiter bucketA now seen st) as (Hl & _ & Hs & _).
    rewrite Hl, Hs. split; [reflexivity|]. split; [|reflexivity].
    intros bucket HB. apply update_other. intros ->. apply Hne. exact (Hinj A B bucketA HA HB).
  - unfold create_bucket.
    match goal with |- context [allow_at _ _ _ ?s] => set (st1 := s) end.
    destruct (allow_at_limiter (next st) now seen st1) as (Hl & _ & Hs & _).
    rewrite Hl, Hs. cbn [st1 limiter set_buckets buckets store clientLimits].
    split; [apply lookup_insert_ne; exact Hne|]. split; [|reflexivity].
    intros bucket HB. pose proof (Halloc B bucket HB).
    rewrite !update_other by lia. reflexivity.
Qed.

Lemma Allow_result_of_view (B : string) (created now seen : Time.Time) (st st' : State) :
  find_bucket B st' = find_bucket B st ->
  (forall bucket, find_bucket B st = Some bucket -> store st' bucket = store st bucket) ->
  limit_for B (limiter st') = limit_for B (limiter st) ->
  fst (Allow B created now seen st') = fst (Allow B created now seen st).
Proof.
  intros Hfind Hstore Hlimit. unfold Allow, getBucket. rewrite Hfind.
  destruct (find_bucket B st) as [bucket|] eqn:HB.
  - destruct (allow_at_limiter bucket now seen st') as (_ & _ & _ & ->).
    destruct (allow_at_limiter bucket now seen st) as (_ & _ & _ & ->).
    rewrite (Hstore bucket eq_refl). reflexivity.
  - unfold create_bucket. rewrite Hlimit.
    match goal with |- fst (allow_at ?l _ _ ?s) = _ =>
      destruct (allow_at_limiter l now seen s) as (_ & _ & _ & ->) end.
    match goal with |- _ = fst (allow_at ?l _ _ ?s) =>
      destruct (allow_at_limiter l now seen s) as (_ & _ & _ & ->) end.
    cbn [store]. rewrite !update_same. reflexivity.
Qed.

(** Clients do not affect each other: whatever another client has requested
    in between, and whenever, the outcome of a client's own admission check is
    the same as without those requests. *)
Theorem clients_do_not_interfere (A B : string)
  (clock : list (Time.Time * Time.Time * Time.Time)) (created now seen : Time.Time)
  (st : State) :
  registered_ok st -> A <> B ->
  fst (Allow B created now seen (snd (allow_run A clock st)))
  = fst (Allow B created now seen st).
Proof.
  intros Hok Hne. apply Allow_result_of_view.
  - revert st Hok. induction clock as [|[[c n] s] rest IH]; intros st Hok; [reflexivity|].
    cbn [allow_run].
    destruct (Allow_for_other_client A B c n s st Hok Hne) as (Hf & _).
    pose proof (Allow_registered_ok A c n s st Hok) as Hok1.
    destruct (Allow A c n s st) as [ok st1]. cbn [snd] in *.
    specialize (IH st1 Hok1). destruct (allow_run A rest st1) as [oks st2]. cbn [snd] in *.
    congruence.
  - revert st Hok. induction clock as [|[[c n] s] rest IH]; intros st Hok bucket HB; [reflexivity|].
    cbn [allow_run].
    destruct (Allow_for_other_client A B c n s st Hok Hne) as (Hf & Hs & _).
    pose proof (Allow_registered_ok A c n s st Hok) as Hok1.
    destruct (Allow A c n s st) as [ok st1]. cbn [snd] in *.
    specialize (IH st1 Hok1 bucket). destruct (allow_run A rest st1) as [oks st2]. cbn [snd] in *.
    rewrite IH by congruence. apply Hs. exact HB.
  - revert st Hok. induction clock as [|[[c n] s] rest IH]; intros st Hok; [reflexivity|].
    cbn [allow_run].
    destruct (Allow_for_other_client A B c n s st Hok Hne) as (_ & _ & Hl).
    pose proof (Allow_registered_ok A c n s st Hok) as Hok1.
    destruct (Allow A c n s st) as [ok st1]. cbn [snd] in *.
    specialize (IH st1 Hok1). destruct (allow_run A rest st1) as [oks st2]. cbn [snd] in *.
    congruence.
Qed.

Lemma clients_do_not_interfere_witness :
  fst (Allow "client2" 5 5 5
         (snd (allow_run "client1" [(0, 0, 0); (1, 1, 1); (2, 2, 2); (3, 3, 3)] (initial 3 1))))
  = true.
Proof.
  rewrite (clients_do_not_interfere "client1" "client2" _ 5 5 5 (initial 3 1)
             (initial_registered_ok 3 1)); [vm_compute; reflexivity|discriminate].
Defined.

End RegistryFacts.

Module BurstFacts.
Import Float64 Float64Facts Time TimeFacts Bucket BucketFacts.

(** A rate of zero adds nothing, whatever the clock says. *)
Lemma tokensToAdd_zero_rate (tb : TokenBucket) (now : Time) :
  RefillRate tb = 0 -> tokensToAdd tb now <= 0.
Proof.
  intros Hr. unfold tokensToAdd. rewrite Hr. change (of_int 0) with (S754_zero false).
  destruct (Seconds (Sub now (lastRefill tb))) as [s|s| |s m e]; cbn; unfold min_int; lia.
Qed.

(** The refill looks at the rate and at the instant of the last refill only. *)
Lemma tokensToAdd_ext (tb tb' : TokenBucket) (now : Time) :
  lastRefill tb' = lastRefill tb -> RefillRate tb' = RefillRate tb ->
  tokensToAdd tb' now = tokensToAdd tb now.
Proof. intros Hl Hr. unfold tokensToAdd. rewrite Hl, Hr. reflexivity. Qed.

Lemma Allow_idle (tb : TokenBucket) (now seen : Time) :
  tokensToAdd tb now <= 0 -> 0 <= Tokens tb <= max_int ->
  fst (Allow now seen tb) = (0 <? Tokens tb)
  /\ Tokens (snd (Allow now seen tb)) = Z.max 0 (Tokens tb - 1)
  /\ lastRefill (snd (Allow now seen tb)) = lastRefill tb
  /\ RefillRate (snd (Allow now seen tb)) = RefillRate tb.
Proof.
  intros Hidle Hr. unfold Allow. rewrite refill_idle by exact Hidle.
  cbn [set_lastSeen Tokens]. destruct (Z.gtb_spec (Tokens tb) 0) as [Hp|Hp]; cbn.
  - rewrite wrap_int_small by (unfold min_int; lia).
    destruct (Z.ltb_spec 0 (Tokens tb)); [|lia]. repeat split; lia.
  - destruct (Z.ltb_spec 0 (Tokens tb)); [lia|]. repeat split; lia.
Qed.

Lemma allow_run_idle (clock : list (Time * Time)) : forall tb : TokenBucket,
  Forall (fun r => tokensToAdd tb (fst r) <= 0) clock -> 0 <= Tokens tb <= max_int ->
  fst (allow_run clock tb)
  = replicate (Nat.min (Z.to_nat (Tokens tb)) (length clock)) true
    ++ replicate (length clock - Z.to_nat (Tokens tb)) false.
Proof.
  induction clock as [|[now seen] rest IH]; intros tb Hidle Hr.
  { cbn. rewrite Nat.min_0_r. reflexivity. }
  apply Forall_cons in Hidle. destruct Hidle as [Hnow Hrest]. cbn [fst] in Hnow.
  destruct (Allow_idle tb now seen Hnow Hr) as (Hok & Htok & Hl & Hrate).
  cbn [allow_run]. destruct (Allow now seen tb) as [ok tb1]. cbn [fst snd] in *.
  assert (Hrest1 : Forall (fun r => tokensToAdd tb1 (fst r) <= 0) rest).
  { eapply Forall_impl; [exact Hrest|]. intros r Hrk. cbn beta in *.
    rewrite (tokensToAdd_ext tb tb1) by assumption. exact Hrk. }
  specialize (IH tb1 Hrest1 ltac:(lia)).
  destruct (allow_run rest tb1) as [oks tb2]. cbn [fst] in *. rewrite IH, Hok, Htok.
  cbn [length]. destruct (Z.ltb_spec 0 (Tokens tb)) as [Hp|Hp].
  - replace (Z.to_nat (Tokens tb)) with (S (Z.to_nat (Z.max 0 (Tokens tb - 1)))) by lia.
    reflexivity.
  - replace (Z.to_nat (Tokens tb)) with 0%nat by lia.
    replace (Z.to_nat (Z.max 0 (Tokens tb - 1))) with 0%nat by lia.
    cbn. rewrite Nat.sub_0_r. reflexivity.
Qed.

(** Without a refill a bucket is a counter: when the rate is zero, or when
    no clock reading lies after the last refill, a bucket holding [n] tokens
    grants exactly the first [n] calls of a run and rejects all later ones. *)
Theorem burst_then_reject (tb : TokenBucket) (clock : list (Time * Time)) :
  0 <= Tokens tb <= max_int ->
  RefillRate tb = 0
  \/ (0 <= RefillRate tb <= 2 ^ 26 /\ Forall (fun r => fst r <= lastRefill tb) clock) ->
  fst (allow_run clock tb)
  = replicate (Nat.min (Z.to_nat (Tokens tb)) (length clock)) true
    ++ replicate (length clock - Z.to_nat (Tokens tb)) false.
Proof.
  intros Hr Hidle. apply allow_run_idle; [|exact Hr].
  destruct Hidle as [Hzero|[Hrate Hback]].
  - apply Forall_forall. intros r _. apply tokensToAdd_zero_rate, Hzero.
  - eapply Forall_impl; [exact Hback|]. intros r Hrk. cbn beta in *.
    apply tokensToAdd_backwards; assumption.
Qed.

Lemma burst_then_reject_witness :
  fst (allow_run [(5000000000, 5000000000); (6000000000, 6000000000);
                  (7000000000, 7000000001)] (NewTokenBucket 2 0 0))
  = [true; true; false].
Proof.
  apply (burst_then_reject (NewTokenBucket 2 0 0)
           [(5000000000, 5000000000); (6000000000, 6000000000); (7000000000, 7000000001)]).
  - cbn. unfold max_int. lia.
  - left. reflexivity.
Defined.

Lemma Allow_below_capacity (tb : TokenBucket) (now seen : Time) :
  Capacity tb <= max_int -> Tokens tb <= Capacity tb ->
  Tokens (snd (Allow now seen tb)) <= Capacity tb
  /\ Capacity (snd (Allow now seen tb)) = Capacity tb
  /\ (Capacity tb <= 0 -> fst (Allow now seen tb) = false).
Proof.
  intros Hcap Hle.
  assert (Hr : Tokens (refill now tb) <= Capacity tb /\ Capacity (refill now tb) = Capacity tb).
  { unfold refill. destruct (Z.gtb_spec (tokensToAdd tb now) 0); cbn; [|auto].
    rewrite min_spec. split; [lia|reflexivity]. }
  destruct Hr as [Ht Hc]. unfold Allow. cbn [set_lastSeen Tokens].
  destruct (Z.gtb_spec (Tokens (refill now tb)) 0) as [Hp|Hp]; cbn.
  - rewrite wrap_int_small by (unfold min_int; lia). repeat split; lia.
  - repeat split; auto.
Qed.

(** The capacity is a ceiling in every circumstance: whatever the rate and
    the clock readings, and even when the refill sum wraps around, a bucket
    never holds more tokens than its capacity; a bucket whose capacity is
    zero or negative rejects every call. *)
Theorem capacity_is_a_ceiling (tb : TokenBucket) (clock : list (Time * Time)) :
  Capacity tb <= max_int -> Tokens tb <= Capacity tb ->
  Tokens (snd (allow_run clock tb)) <= Capacity tb
  /\ (Capacity tb <= 0 -> fst (allow_run clock tb) = replicate (length clock) false).
Proof.
  revert tb. induction clock as [|[now seen] rest IH]; intros tb Hcap Hle.
  { cbn. auto. }
  destruct (Allow_below_capacity tb now seen Hcap Hle) as (Ht & Hc & Hrej).
  cbn [allow_run]. destruct (Allow now seen tb) as [ok tb1]. cbn [fst snd] in *.
  specialize (IH tb1). rewrite Hc in IH. specialize (IH Hcap Ht).
  destruct (allow_run rest tb1) as [oks tb2]. cbn [fst snd] in *.
  destruct IH as [IH1 IH2]. split; [exact IH1|].
  intros H0. rewrite (Hrej H0), (IH2 H0). reflexivity.
Qed.

Lemma capacity_is_a_ceiling_witness :
  Tokens (snd (allow_run [(0, 0); (1024000000000, 1024000000000)] fast_bucket)) <= 2000
  /\ fst (allow_run [(0, 0); (9000000000, 9000000000)] (NewTokenBucket 0 7 0)) = [false; false].
Proof.
  split.
  - apply (capacity_is_a_ceiling fast_bucket); cbn; unfold max_int; lia.
  - apply (capacity_is_a_ceiling (NewTokenBucket 0 7 0)
             [(0, 0); (9000000000, 9000000000)]); cbn; unfold max_int; lia.
Defined.

(** A bucket that holds a token grants the call, whatever the clock. *)
Lemma Allow_with_token (tb : TokenBucket) (now seen : Time) :
  1 <= Tokens tb <= Capacity tb -> Capacity tb <= 2 ^ 62 -> 0 <= RefillRate tb <= 2 ^ 26 ->
  fst (Allow now seen tb) = true.
Proof.
  intros Ht Hc Hr.
  assert (Hk : tokensToAdd tb now <= 2 ^ 61).
  { destruct (Z.le_gt_cases (lastRefill tb) now) as [Hfwd|Hback].
    - apply tokensToAdd_upper; assumption.
    - pose proof (tokensToAdd_backwards tb now Hr ltac:(lia)). lia. }
  assert (Hpos : 1 <= Tokens (refill now tb)).
  { unfold refill. destruct (Z.gtb_spec (tokensToAdd tb now) 0); cbn; [|lia].
    rewrite min_spec, wrap_int_small; [lia|].
    unfold min_int, max_int. assert (2 ^ 61 + 2 ^ 62 <= 2 ^ 63 - 1) by lia. lia. }
  unfold Allow. cbn [set_lastSeen Tokens].
  destruct (Z.gtb_spec (Tokens (refill now tb)) 0); [reflexivity|lia].
Qed.

Lemma Allow_spends_one (tb : TokenBucket) (now seen : Time) :
  1 <= Tokens tb <= Capacity tb -> Capacity tb <= 2 ^ 62 -> 0 <= RefillRate tb <= 2 ^ 26 ->
  fst (Allow now seen tb) = true
  /\ Tokens tb - 1 <= Tokens (snd (Allow now seen tb)) <= Capacity tb
  /\ Capacity (snd (Allow now seen tb)) = Capacity tb
  /\ RefillRate (snd (Allow now seen tb)) = RefillRate tb.
Proof.
  intros Ht Hc Hr.
  assert (Hk : tokensToAdd tb now <= 2 ^ 61).
  { destruct (Z.le_gt_cases (lastRefill tb) now) as [Hfwd|Hback].
    - apply tokensToAdd_upper; assumption.
    - pose proof (tokensToAdd_backwards tb now Hr ltac:(lia)). lia. }
  assert (Hre : Tokens tb <= Tokens (refill now tb) <= Capacity tb
                /\ Capacity (refill now tb) = Capacity tb
                /\ RefillRate (refill now tb) = RefillRate tb).
  { unfold refill. destruct (Z.gtb_spec (tokensToAdd tb now) 0); cbn; [|lia].
    rewrite min_spec, wrap_int_small; [lia|].
    unfold min_int, max_int. assert (2 ^ 61 + 2 ^ 62 <= 2 ^ 63 - 1) by lia. lia. }
  destruct Hre as (Hb & Hcap & Hrate).
  unfold Allow. cbn [set_lastSeen Tokens].
  destruct (Z.gtb_spec (Tokens (refill now tb)) 0); [|lia]. cbn.
  rewrite wrap_int_small by (unfold min_int, max_int; lia). repeat split; lia.
Qed.

Lemma allow_run_burst (clock : list (Time * Time)) : forall tb : TokenBucket,
  Z.of_nat (length clock) <= Tokens tb <= Capacity tb -> Capacity tb <= 2 ^ 62 ->
  0 <= RefillRate tb <= 2 ^ 26 ->
  fst (allow_run clock tb) = replicate (length clock) true.
Proof.
  induction clock as [|[now seen] rest IH]; intros tb Ht Hc Hr; [reflexivity|].
  cbn [length] in Ht.
  destruct (Allow_spends_one tb now seen ltac:(lia) Hc Hr) as (Hok & Htok & Hcap & Hrate).
  cbn [allow_run]. destruct (Allow now seen tb) as [ok tb1]. cbn [fst snd] in *.
  specialize (IH tb1 ltac:(lia) ltac:(lia) ltac:(lia)).
  destruct (allow_run rest tb1) as [oks tb2]. cbn [fst] in *. subst ok oks. reflexivity.
Qed.

End BurstFacts.

Module LimitFacts.
Import RateLimiter RateLimiterFacts RegistryFacts.

(** The burst a client is entitled to: from the request that creates its
    bucket on, a client with a limit of [C] tokens (at most [2 ^ 62], at a
    rate between 0 and [2 ^ 26]) has its first [C] requests granted, whatever
    the clock readings are and whatever other clients did before. *)
Theorem burst_capacity_granted (clientID : string) (created now seen : Time.Time)
  (clock : list (Time.Time * Time.Time * Time.Time)) (st : State) :
  find_bucket clientID st = None ->
  1 + Z.of_nat (length clock) <= Capacity (limit_for clientID (limiter st)) <= 2 ^ 62 ->
  0 <= RefillRate (limit_for clientID (limiter st)) <= 2 ^ 26 ->
  fst (allow_run clientID ((created, now, seen) :: clock) st)
  = replicate (S (length clock)) true.
Proof.
  intros Hnew Hcap Hrate.
  rewrite (allow_run_first_sight clientID created now seen clock st Hnew).
  rewrite (BurstFacts.allow_run_burst
             ((now, seen) :: map (fun r => (snd (fst r), snd r)) clock));
    cbn [length Bucket.NewTokenBucket Bucket.Tokens Bucket.Capacity Bucket.RefillRate];
    rewrite ?length_map; try lia. reflexivity.
Qed.

Lemma burst_capacity_granted_witness :
  fst (allow_run "client1" [(10, 20, 30); (40, 50, 60); (5000000000, 5000000001, 5000000002)]
         (initial 3 1))
  = [true; true; true]
  /\ fst (allow_run "client2" [(70, 80, 90)]
           (snd (allow_run "client1"
                   [(10, 20, 30); (40, 50, 60); (5000000000, 5000000001, 5000000002)]
                   (initial 3 1))))
     = [true].
Proof.
  split.
  - apply (burst_capacity_granted "client1" 10 20 30
             [(40, 50, 60); (5000000000, 5000000001, 5000000002)] (initial 3 1));
      [reflexivity| |]; vm_compute; split; discriminate.
  - apply (burst_capacity_granted "client2" 70 80 90 []
             (snd (allow_run "client1"
                     [(10, 20, 30); (40, 50, 60); (5000000000, 5000000001, 5000000002)]
                     (initial 3 1))));
      [vm_compute; reflexivity| |]; vm_compute; split; discriminate.
Defined.

(** The bucket that [getBucket] creates is the one the constructor returns
    for the limit of the client. *)
Lemma getBucket_new_bucket (clientID : string) (created : Time.Time) (st : State) :
  find_bucket clientID st = None ->
  store (snd (getBucket clientID created st)) (fst (getBucket clientID created st))
  = Bucket.NewTokenBucket (Capacity (limit_for clientID (limiter st)))
                          (RefillRate (limit_for clientID (limiter st))) created.
Proof.
  intros Hnew. unfold getBucket. rewrite Hnew. unfold create_bucket. cbn [fst snd store].
  rewrite update_same. reflexivity.
Qed.

(** The first decision for a client without a bucket, from its limit. *)
Lemma Allow_new_client (clientID : string) (created now seen : Time.Time) (st : State) :
  find_bucket clientID st = None ->
  fst (Allow clientID created now seen st)
  = fst (Bucket.Allow now seen
           (Bucket.NewTokenBucket (Capacity (limit_for clientID (limiter st)))
                                  (RefillRate (limit_for clientID (limiter st))) created))
  /\ (1 <= Capacity (limit_for clientID (limiter st)) <= 2 ^ 62 ->
      0 <= RefillRate (limit_for clientID (limiter st)) <= 2 ^ 26 ->
      fst (Allow clientID created now seen st) = true)
  /\ (Capacity (limit_for clientID (limiter st)) <= 0 ->
      fst (Allow clientID created now seen st) = false).
Proof.
  intros Hnew.
  pose proof (allow_run_first_sight clientID created now seen [] st Hnew) as H.
  cbn [allow_run Bucket.allow_run map] in H.
  destruct (Allow clientID created now seen st) as [ok st1].
  match type of H with context [Bucket.Allow now seen ?b] =>
    pose proof (BurstFacts.Allow_with_token b now seen) as Hyes;
    pose proof (BurstFacts.Allow_below_capacity b now seen) as Hno;
    destruct (Bucket.Allow now seen b) as [ok' tb] end.
  cbn [fst snd Bucket.NewTokenBucket Bucket.Tokens Bucket.Capacity Bucket.RefillRate]
    in Hyes, Hno, H.
  cbn [fst]. inversion H; subst ok'. split; [reflexivity|]. split.
  - intros Hc Hr. apply Hyes; lia.
  - intros Hc. apply Hno; [unfold max_int; lia|lia|exact Hc].
Qed.

(** An override is read when a bucket is created and at no other time. For a
    client that has no bucket, the bucket created by its next request has the
    capacity, the tokens and the rate of the override, so that the request is
    granted when the override holds at least one token (at most [2 ^ 62], at
    a rate between 0 and [2 ^ 26]) and rejected when its capacity is zero or
    less. The override leaves the bucket of a client that has one as it is,
    it has no effect on other clients, and of two overrides for one client
    the later one stands. *)
Theorem override_read_at_creation (clientID : string) (limit : ClientLimit) (st : State) :
  (forall created now seen : Time.Time,
      find_bucket clientID st = None ->
      let overridden := SetClientLimit clientID limit st in
      store (snd (getBucket clientID created overridden))
            (fst (getBucket clientID created overridden))
      = {| Bucket.Capacity := Capacity limit;
           Bucket.Tokens := Capacity limit;
           Bucket.RefillRate := RefillRate limit;
           Bucket.lastRefill := created;
           Bucket.lastSeen := created |}
      /\ fst (Allow clientID created now seen overridden)
         = fst (Bucket.Allow now seen
                  {| Bucket.Capacity := Capacity limit;
                     Bucket.Tokens := Capacity limit;
                     Bucket.RefillRate := RefillRate limit;
                     Bucket.lastRefill := created;
                     Bucket.lastSeen := created |})
      /\ (1 <= Capacity limit <= 2 ^ 62 -> 0 <= RefillRate limit <= 2 ^ 26 ->
          fst (Allow clientID created now seen overridden) = true)
      /\ (Capacity limit <= 0 -> fst (Allow clientID created now seen overridden) = false))
  /\ (forall created now seen : Time.Time,
        find_bucket clientID st <> None ->
        fst (Allow clientID created now seen (SetClientLimit clientID limit st))
        = fst (Allow clientID created now seen st))
  /\ (forall (other : string) (created now seen : Time.Time),
        other <> clientID ->
        fst (Allow other created now seen (SetClientLimit clientID limit st))
        = fst (Allow other created now seen st))
  /\ (forall earlier : ClientLimit,
        SetClientLimit clientID limit (SetClientLimit clientID earlier st)
        = SetClientLimit clientID limit st).
Proof.
  split; [|split; [|split]].
  - intros created now seen Hnew overridden.
    assert (Hl : limit_for clientID (limiter overridden) = limit).
    { unfold overridden, limit_for, SetClientLimit. cbn [limiter clientLimits].
      rewrite lookup_insert_eq. reflexivity. }
    pose proof (getBucket_new_bucket clientID created overridden Hnew) as Hb.
    pose proof (Allow_new_client clientID created now seen overridden Hnew) as Ha.
    rewrite Hl in Hb, Ha. split; [exact Hb|exact Ha].
  - intros created now seen Hold.
    unfold Allow, getBucket, find_bucket in *. cbn [SetClientLimit limiter buckets].
    destruct (buckets (limiter st) !! clientID) as [bucket|]; [|contradiction].
    destruct (allow_at_limiter bucket now seen (SetClientLimit clientID limit st))
      as (_ & _ & _ & ->).
    destruct (allow_at_limiter bucket now seen st) as (_ & _ & _ & ->). reflexivity.
  - intros other created now seen Hne. apply Allow_result_of_view.
    + reflexivity.
    + reflexivity.
    + unfold limit_for, SetClientLimit. cbn [limiter clientLimits defaultCapacity defaultRefillRate].
      rewrite lookup_insert_ne by congruence. reflexivity.
  - intros earlier. unfold SetClientLimit. cbn [limiter buckets clientLimits store next
      defaultCapacity defaultRefillRate]. rewrite insert_insert_eq. reflexivity.
Qed.

Lemma override_read_at_creation_witness :
  fst (Allow "client1" 0 9000000000 9000000000
         (SetClientLimit "client1" {| Capacity := 3; RefillRate := 0 |} (initial 0 5)))
  = true
  /\ fst (Allow "client1" 0 9000000000 9000000000
           (SetClientLimit "client1" {| Capacity := 0; RefillRate := 3 |} (initial 5 1)))
     = false
  /\ store (snd (getBucket "client1" 7
                   (SetClientLimit "client1" {| Capacity := 3; RefillRate := 2 |}
                      (initial 5 1)))) 0%nat
     = {| Bucket.Capacity := 3; Bucket.Tokens := 3; Bucket.RefillRate := 2;
          Bucket.lastRefill := 7; Bucket.lastSeen := 7 |}
  /\ fst (Allow "client1" 0 0 0
           (SetClientLimit "client1" {| Capacity := 0; RefillRate := 0 |} one_client))
     = fst (Allow "client1" 0 0 0 one_client).
Proof.
  destruct (override_read_at_creation "client1" {| Capacity := 3; RefillRate := 0 |}
              (initial 0 5)) as (Hyes & _).
  destruct (override_read_at_creation "client1" {| Capacity := 0; RefillRate := 3 |}
              (initial 5 1)) as (Hno & _).
  destruct (override_read_at_creation "client1" {| Capacity := 3; RefillRate := 2 |}
              (initial 5 1)) as (Hnew & _).
  destruct (override_read_at_creation "client1" {| Capacity := 0; RefillRate := 0 |}
              one_client) as (_ & Hold & _).
  split; [|split; [|split]].
  - destruct (Hyes 0 9000000000 9000000000 eq_refl) as (_ & _ & H & _).
    apply H; cbn; lia.
  - destruct (Hno 0 9000000000 9000000000 eq_refl) as (_ & _ & _ & H).
    apply H. cbn. lia.
  - destruct (Hnew 7 7 7 eq_refl) as (H & _). exact H.
  - apply Hold. discriminate.
Defined.

(** What an admission check leaves behind for its client. *)
Lemma Allow_registers (clientID : string) (created now seen : Time.Time) (st : State) :
  exists bucket : loc,
    find_bucket clientID (snd (Allow clientID created now seen st)) = Some bucket
    /\ Bucket.lastSeen (store (snd (Allow clientID created now seen st)) bucket) = seen.
Proof.
  unfold Allow.
  assert (Hseen : forall tb, Bucket.lastSeen (snd (Bucket.Allow now seen tb)) = seen).
  { intros tb. unfold Bucket.Allow.
    destruct (Bucket.Tokens (Bucket.set_lastSeen seen (Bucket.refill now tb)) >? 0);
      reflexivity. }
  assert (Hat : forall bucket st1, find_bucket clientID st1 = Some bucket ->
    find_bucket clientID (snd (allow_at bucket now seen st1)) = Some bucket
    /\ Bucket.lastSeen (store (snd (allow_at bucket now seen st1)) bucket) = seen).
  { intros bucket st1 Hf. destruct (allow_at_limiter bucket now seen st1) as (Hl & _ & Hs & _).
    unfold find_bucket in *. rewrite Hl, Hs, update_same. split; [exact Hf|apply Hseen]. }
  unfold getBucket. destruct (find_bucket clientID st) as [bucket|] eqn:Hf.
  - exists bucket. apply Hat. exact Hf.
  - unfold create_bucket. exists (next st). apply Hat.
    unfold find_bucket. cbn [limiter set_buckets buckets]. apply lookup_insert_eq.
Qed.

(** A sweep and the client that was just served: if the sweep comes no later
    than [expiration] after the client's last request, the client keeps its
    bucket and its next request is decided as if there had been no sweep;
    if it comes later, the client is forgotten, and its next request creates
    a bucket whose capacity and tokens are the capacity of the client's limit
    and whose rate is the rate of that limit, the limit being the client's
    override or, without one, the defaults: the request is granted when the
    limit holds at least one token (at most [2 ^ 62], at a rate between 0 and
    [2 ^ 26]), however few tokens the old bucket had left. *)
Theorem sweep_after_request (clientID : string) (created now seen : Time.Time)
  (expiration : Time.Duration) (tick created' now' seen' : Time.Time) (st : State) :
  let served := snd (Allow clientID created now seen st) in
  let swept := Cleanup expiration tick served in
  let limit := default {| Capacity := defaultCapacity (limiter st);
                          RefillRate := defaultRefillRate (limiter st) |}
                       (clientLimits (limiter st) !! clientID) in
  (Time.Sub tick seen <= expiration ->
   find_bucket clientID swept = find_bucket clientID served
   /\ find_bucket clientID swept <> None
   /\ fst (Allow clientID created' now' seen' swept)
      = fst (Allow clientID created' now' seen' served))
  /\ (Time.Sub tick seen > expiration ->
      find_bucket clientID swept = None
      /\ store (snd (getBucket clientID created' swept)) (fst (getBucket clientID created' swept))
         = {| Bucket.Capacity := Capacity limit;
              Bucket.Tokens := Capacity limit;
              Bucket.RefillRate := RefillRate limit;
              Bucket.lastRefill := created';
              Bucket.lastSeen := created' |}
      /\ fst (Allow clientID created' now' seen' swept)
         = fst (Bucket.Allow now' seen'
                  {| Bucket.Capacity := Capacity limit;
                     Bucket.Tokens := Capacity limit;
                     Bucket.RefillRate := RefillRate limit;
                     Bucket.lastRefill := created';
                     Bucket.lastSeen := created' |})
      /\ (1 <= Capacity limit <= 2 ^ 62 -> 0 <= RefillRate limit <= 2 ^ 26 ->
          fst (Allow clientID created' now' seen' swept) = true)
      /\ (Capacity limit <= 0 -> fst (Allow clientID created' now' seen' swept) = false)).
Proof.
  intros served swept limit.
  destruct (Allow_registers clientID created now seen st) as (bucket & Hf & Hseen).
  fold served in Hf, Hseen.
  pose proof (Cleanup_lookup expiration tick served clientID bucket Hf) as Hsweep.
  unfold expired in Hsweep. rewrite Hseen in Hsweep. split.
  - intros Hrecent. destruct (Z.gtb_spec (Time.Sub tick seen) expiration) as [Hgt|_]; [lia|].
    assert (Hsame : find_bucket clientID swept = find_bucket clientID served).
    { unfold find_bucket in *. unfold swept. rewrite Hsweep, Hf. reflexivity. }
    split; [exact Hsame|]. split; [rewrite Hsame, Hf; discriminate|].
    apply Allow_result_of_view; [exact Hsame|reflexivity|reflexivity].
  - intros Hgone. destruct (Z.gtb_spec (Time.Sub tick seen) expiration) as [_|Hle]; [|lia].
    fold swept in Hsweep. change (find_bucket clientID swept = None) in Hsweep.
    assert (Hl : limit_for clientID (limiter swept) = limit).
    { transitivity (limit_for clientID (limiter st)).
      2:{ unfold limit, limit_for. destruct (clientLimits (limiter st) !! clientID); reflexivity. }
      unfold swept, limit_for, Cleanup. cbn [limiter set_buckets clientLimits
        defaultCapacity defaultRefillRate]. unfold served, Allow, getBucket.
      destruct (find_bucket clientID st) as [b|].
      - destruct (allow_at_limiter b now seen st) as (-> & _). reflexivity.
      - unfold create_bucket.
        match goal with |- context [allow_at ?l now seen ?s] =>
          destruct (allow_at_limiter l now seen s) as (-> & _) end.
        reflexivity. }
    pose proof (getBucket_new_bucket clientID created' swept Hsweep) as Hb.
    pose proof (Allow_new_client clientID created' now' seen' swept Hsweep) as Ha.
    rewrite Hl in Hb, Ha. split; [exact Hsweep|]. split; [exact Hb|exact Ha].
Qed.

Lemma sweep_after_request_witness :
  fst (Allow "client1" 700000000000 700000000000 700000000000
         (Cleanup 300000000000 600000000000 (snd (Allow "client1" 0 0 0 (initial 1 0)))))
  = true
  /\ store (snd (getBucket "client1" 700000000000
                   (Cleanup 300000000000 600000000000
                      (snd (Allow "client1" 0 0 0 (initial 1 0)))))) 1%nat
     = {| Bucket.Capacity := 1; Bucket.Tokens := 1; Bucket.RefillRate := 0;
          Bucket.lastRefill := 700000000000; Bucket.lastSeen := 700000000000 |}
  /\ fst (Allow "client1" 700000000000 700000000000 700000000000
           (Cleanup 300000000000 200000000000 (snd (Allow "client1" 0 0 0 (initial 1 0)))))
     = false.
Proof.
  pose proof (sweep_after_request "client1" 0 0 0 300000000000 600000000000
                700000000000 700000000000 700000000000 (initial 1 0)) as [_ Hdrop].
  pose proof (sweep_after_request "client1" 0 0 0 300000000000 200000000000
                700000000000 700000000000 700000000000 (initial 1 0)) as [Hkeep _].
  split; [|split].
  - destruct Hdrop as (_ & _ & _ & H & _); [vm_compute; reflexivity|].
    apply H; vm_compute; split; discriminate.
  - destruct Hdrop as (_ & H & _); [vm_compute; reflexivity|]. exact H.
  - destruct Hkeep as (_ & _ & H); [vm_compute; discriminate|].
    rewrite H. vm_compute. reflexivity.
Defined.

(** Sweeps remove and never add, and they compose: the clients left by two
    sweeps are those left by both, in either order, and a sweep repeated at
    the same instant removes nothing more. *)
Theorem sweeps_compose (e1 e2 : Time.Duration) (t1 t2 : Time.Time) (st : State) :
  (forall (clientID : string) (bucket : loc),
      find_bucket clientID (Cleanup e2 t2 (Cleanup e1 t1 st)) = Some bucket
      <-> find_bucket clientID st = Some bucket
          /\ Time.Sub t1 (Bucket.lastSeen (store st bucket)) <= e1
          /\ Time.Sub t2 (Bucket.lastSeen (store st bucket)) <= e2)
  /\ Cleanup e2 t2 (Cleanup e1 t1 st) = Cleanup e1 t1 (Cleanup e2 t2 st)
  /\ Cleanup e1 t1 (Cleanup e1 t1 st) = Cleanup e1 t1 st.
Proof.
  assert (Hlook : forall e t s clientID bucket,
    find_bucket clientID (Cleanup e t s) = Some bucket
    <-> find_bucket clientID s = Some bucket
        /\ Time.Sub t (Bucket.lastSeen (store s bucket)) <= e).
  { intros e t s clientID bucket. unfold find_bucket, Cleanup.
    cbn [limiter set_buckets buckets]. rewrite map_lookup_filter_Some. cbn [snd].
    unfold expired. destruct (Z.gtb_spec (Time.Sub t (Bucket.lastSeen (store s bucket))) e);
      split; intros [H1 H2]; split; auto; try lia; discriminate. }
  assert (Heq : forall s s' : State,
    buckets (limiter s) = buckets (limiter s') -> clientLimits (limiter s) = clientLimits (limiter s') ->
    defaultCapacity (limiter s) = defaultCapacity (limiter s') ->
    defaultRefillRate (limiter s) = defaultRefillRate (limiter s') ->
    store s = store s' -> next s = next s' -> s = s').
  { intros [[b c dc dr] s n] [[b' c' dc' dr'] s' n']. cbn. intros; subst. reflexivity. }
  split; [|split].
  - intros clientID bucket. rewrite Hlook, Hlook. cbn [Cleanup store]. tauto.
  - apply Heq; try reflexivity. apply map_eq. intros clientID. apply option_eq. intros bucket.
    fold (find_bucket clientID (Cleanup e2 t2 (Cleanup e1 t1 st))).
    fold (find_bucket clientID (Cleanup e1 t1 (Cleanup e2 t2 st))).
    rewrite !Hlook. cbn [Cleanup store]. tauto.
  - apply Heq; try reflexivity. apply map_eq. intros clientID. apply option_eq. intros bucket.
    fold (find_bucket clientID (Cleanup e1 t1 (Cleanup e1 t1 st))).
    fold (find_bucket clientID (Cleanup e1 t1 st)).
    rewrite !Hlook. cbn [Cleanup store]. tauto.
Qed.

End LimitFacts.

Module ServerFacts.
Import Balancer BalancerFacts SelectionFacts HTTP Proxy.

Lemma selection_keeps_pool (lb : RoundRobinLoadBalancer) :
  backends (snd (NextAvailableBackend lb)) = backends lb.
Proof.
  unfold NextAvailableBackend.
  pose proof (attempt_loop_spec (length (backends lb)) (Z.of_nat (length (backends lb))) lb) as H.
  destruct (attempt_loop _ _ lb) as [[[i|]|] lb']; cbn [snd]; apply H.
Qed.

Lemma selection_alive (lb lb' : RoundRobinLoadBalancer) (i : nat) :
  NextAvailableBackend lb = (Ret (Some i), lb') ->
  exists b, backends lb' !! i = Some b /\ IsAlive b = true.
Proof.
  unfold NextAvailableBackend. intros E.
  pose proof (attempt_loop_spec (length (backends lb)) (Z.of_nat (length (backends lb))) lb) as H.
  rewrite E in H. destruct H as (Hb & Hal & _). rewrite Hb. exact Hal.
Qed.

Lemma mark_loop_dead (X : string) (bs : list Backend) : forall (i : nat) (b : Backend),
  bs !! i = Some b -> IsAlive b = false ->
  exists b', mark_loop bs X !! i = Some b' /\ IsAlive b' = false.
Proof.
  induction bs as [|b0 bs IH]; intros i b Hi Hd; [discriminate|].
  cbn [mark_loop]. destruct (String.eqb (Address b0) X).
  - destruct i as [|i]; cbn in Hi |- *.
    + exists (mark_dead b0). split; reflexivity.
    + exists b. split; assumption.
  - destruct i as [|i]; cbn in Hi |- *.
    + inversion Hi; subst b0. exists b. split; [reflexivity|exact Hd].
    + apply (IH i b); assumption.
Qed.

Lemma handleProxy_pool (roundTrip : Transport) (r : Request) (p : ProxyServer) :
  rateLimiter (snd (handleProxy roundTrip r p)) = rateLimiter p
  /\ (backends (balancer (snd (handleProxy roundTrip r p))) = backends (balancer p)
      \/ exists X, backends (balancer (snd (handleProxy roundTrip r p)))
                   = mark_loop (backends (balancer p)) X).
Proof.
  unfold handleProxy. pose proof (selection_keeps_pool (balancer p)) as Hk.
  destruct (NextAvailableBackend (balancer p)) as [[[i|]|] lb]; cbn [snd] in *;
    try (split; [reflexivity|left; exact Hk]).
  destruct (backends lb !! i) as [target|]; [|split; [reflexivity|left; exact Hk]].
  destruct (roundTrip (Address target) r); cbn [snd balancer rateLimiter];
    [split; [reflexivity|left; exact Hk]|].
  split; [reflexivity|]. right. exists (Address target).
  cbn [MarkBackendUnhealthy backends]. rewrite Hk. reflexivity.
Qed.

(** What serving a request can and cannot change, whatever the mux does
    with it. The limiter is charged exactly once, for the identifier of the
    middleware, whatever happens to the request afterwards; the addresses of
    the pool stay as they are and a backend that is down is never brought
    back by a request; a request that the limiter rejects is answered 429 and
    does not reach the balancer. *)
Theorem request_frame (mux : ServeMux) (roundTrip : Transport) (created now seen : Time.Time)
  (r : Request) (p : ProxyServer) :
  let served := ServeHTTP mux roundTrip created now seen r p in
  let verdict := RateLimiter.Allow (extractClientIP r) created now seen (rateLimiter p) in
  rateLimiter (snd served) = snd verdict
  /\ map Address (backends (balancer (snd served))) = map Address (backends (balancer p))
  /\ (forall (i : nat) (b : Backend),
        backends (balancer p) !! i = Some b -> IsAlive b = false ->
        exists b', backends (balancer (snd served)) !! i = Some b' /\ IsAlive b' = false)
  /\ (fst verdict = false ->
      fst served = Ret (Error "Rate limit exceeded" 429) /\ balancer (snd served) = balancer p).
Proof.
  cbv zeta. unfold ServeHTTP, RateLimitMiddleware.
  destruct (RateLimiter.Allow (extractClientIP r) created now seen (rateLimiter p)) as [ok rl].
  destruct ok; cbn [negb fst snd].
  - unfold dispatch. destruct (mux r) as [response|]; cbn [snd balancer rateLimiter].
    { split; [reflexivity|]. split; [reflexivity|]. split; [eauto|]. intros H. discriminate H. }
    pose proof (handleProxy_pool roundTrip r {| balancer := balancer p; rateLimiter := rl |})
      as [Hl Hp]. cbn [balancer rateLimiter] in Hl, Hp.
    split; [exact Hl|]. split; [|split].
    + destruct Hp as [->|[X ->]]; [reflexivity|apply mark_loop_addresses].
    + intros i b Hi Hd. destruct Hp as [->|[X ->]]; [eauto|].
      apply (mark_loop_dead X _ i b); assumption.
    + intros H. discriminate H.
  - split; [reflexivity|]. split; [reflexivity|]. split; [eauto|]. auto.
Qed.

Lemma request_frame_witness :
  fst (ServeHTTP dispatching_mux echo_transport 0 0 0 direct_request busy_server)
  = Ret (Error "Rate limit exceeded" 429)
  /\ balancer (snd (ServeHTTP dispatching_mux echo_transport 0 0 0 direct_request busy_server))
     = balancer busy_server.
Proof.
  destruct (request_frame dispatching_mux echo_transport 0 0 0 direct_request busy_server)
    as (_ & _ & _ & H).
  apply H. vm_compute. reflexivity.
Defined.

(** A backend whose forwarding failed is out of the rotation: the request is
    answered 503, exactly that backend is marked as down, and the handling of
    the next request does not depend on what a call to that backend would
    give. The addresses of the pool are assumed distinct. *)
Theorem failed_backend_is_avoided (roundTrip : Transport) (r : Request) (p : ProxyServer)
  (i : nat) (target : Backend) :
  NoDup (map Address (backends (balancer p))) ->
  fst (NextAvailableBackend (balancer p)) = Ret (Some i) ->
  backends (balancer p) !! i = Some target ->
  roundTrip (Address target) r = None ->
  fst (handleProxy roundTrip r p) = Ret (sendJSONError 503 "Backend unavailable")
  /\ backends (balancer (snd (handleProxy roundTrip r p)))
     = <[i := mark_dead target]> (backends (balancer p))
  /\ forall (first second : Transport) (r' : Request),
       (forall address : string,
           address <> Address target -> first address r' = second address r') ->
       handleProxy first r' (snd (handleProxy roundTrip r p))
       = handleProxy second r' (snd (handleProxy roundTrip r p)).
Proof.
  intros Hnd Hsel Hi Hfail. unfold handleProxy at 1 2 4 6.
  pose proof (selection_keeps_pool (balancer p)) as Hk.
  destruct (NextAvailableBackend (balancer p)) as [sel lb]. cbn [fst snd] in Hsel, Hk. subst sel.
  rewrite Hk, Hi, Hfail. cbn [fst snd balancer]. split; [reflexivity|]. split.
  - cbn [MarkBackendUnhealthy backends]. rewrite Hk.
    apply (mark_loop_first _ _ i target Hi eq_refl).
    intros j b' Hj Hb' Heq.
    assert (Hij : j = i); [|lia].
    apply (NoDup_lookup (map Address (backends (balancer p))) j i (Address target)); [exact Hnd| |].
    + rewrite list_lookup_fmap, Hb'. cbn. congruence.
    + rewrite list_lookup_fmap, Hi. reflexivity.
  - intros first second r' Hagree. unfold handleProxy. cbn [balancer rateLimiter].
    pose proof (selection_keeps_pool (MarkBackendUnhealthy lb (Address target))) as Hk2.
    pose proof (selection_alive (MarkBackendUnhealthy lb (Address target))) as Hal.
    destruct (NextAvailableBackend (MarkBackendUnhealthy lb (Address target)))
      as [[[j|]|] lb2]; try reflexivity.
    cbn [snd] in Hk2. destruct (Hal lb2 j eq_refl) as (b & Hb & Ha). rewrite Hb.
    rewrite Hk2 in Hb. cbn [MarkBackendUnhealthy backends] in Hb. rewrite Hk in Hb.
    destruct (mark_loop_alive (Address target) (backends (balancer p)) j b Hnd Hb Ha)
      as [Hne _].
    rewrite (Hagree (Address b) Hne). reflexivity.
Qed.

Lemma failed_backend_is_avoided_witness :
  backends (balancer (snd (handleProxy failing_transport direct_request small_server)))
  = [ {| Address := "http://s1:8081"; IsAlive := true |};
      {| Address := "http://s2:8082"; IsAlive := false |};
      {| Address := "http://s3:8083"; IsAlive := true |} ].
Proof.
  destruct (failed_backend_is_avoided failing_transport direct_request small_server 1%nat
              {| Address := "http://s2:8082"; IsAlive := true |}) as (_ & H & _).
  - cbn. repeat (apply NoDup_cons; split; [intros Hin;
      repeat (apply elem_of_cons in Hin; destruct Hin as [Hin|Hin]; [discriminate Hin|]);
      apply elem_of_nil in Hin; exact Hin|]). apply NoDup_nil. exact I.
  - vm_compute. reflexivity.
  - reflexivity.
  - reflexivity.
  - rewrite H. reflexivity.
Defined.

(** The first request to a new server, whose limit is a capacity between 1
    and [2 ^ 62] at a rate between 0 and [2 ^ 26] and which has fewer than
    [2 ^ 32] backends. The request passes the limiter. If the mux answers it
    itself, that answer is the response. If the mux dispatches it, it goes to
    the backend at position [1 mod N] of the [N] backends whose URLs parse,
    the second backend when there are two or more: the response is the one
    the forwarding to that backend yields, a failed attempt gives 503, and so
    does a configuration without a usable backend. With a capacity of zero
    or less the request is rejected with 429 instead. *)
Theorem first_request_is_forwarded (parse : string -> option string) (cfg : Config)
  (mux : ServeMux) (roundTrip : Transport) (created now seen : Time.Time) (r : Request) :
  Z.of_nat (length (omap parse (Backends cfg))) < 2 ^ 32 ->
  (1 <= Capacity (RateLimit cfg) <= 2 ^ 62 ->
   0 <= RefillRate (RateLimit cfg) <= 2 ^ 26 ->
   fst (ServeHTTP mux roundTrip created now seen r (NewProxyServer parse cfg))
   = match mux r with
     | Some response => Ret response
     | None =>
         match omap parse (Backends cfg) !! (1 mod length (omap parse (Backends cfg)))%nat with
         | Some address =>
             match roundTrip address r with
             | Some response => Ret response
             | None => Ret (sendJSONError 503 "Backend unavailable")
             end
         | None => Ret (sendJSONError 503 "No available backends")
         end
     end)
  /\ (Capacity (RateLimit cfg) <= 0 ->
      fst (ServeHTTP mux roundTrip created now seen r (NewProxyServer parse cfg))
      = Ret (Error "Rate limit exceeded" 429)).
Proof.
  intros Hlen.
  assert (Hnew : RateLimiter.find_bucket (extractClientIP r)
                   (RateLimiter.initial (Capacity (RateLimit cfg)) (RefillRate (RateLimit cfg)))
                 = None) by apply lookup_empty.
  destruct (LimitFacts.Allow_new_client (extractClientIP r) created now seen _ Hnew)
    as (_ & Hyes & Hno).
  unfold RateLimiter.limit_for in Hyes, Hno.
  cbn [RateLimiter.initial RateLimiter.limiter RateLimiter.NewRateLimiter
       RateLimiter.clientLimits RateLimiter.defaultCapacity RateLimiter.defaultRefillRate]
    in Hyes, Hno.
  rewrite lookup_empty in Hyes, Hno.
  cbn [RateLimiter.Capacity RateLimiter.RefillRate] in Hyes, Hno.
  unfold ServeHTTP, RateLimitMiddleware, NewProxyServer. cbn [rateLimiter balancer].
  split.
  2:{ intros Hc. specialize (Hno Hc).
      destruct (RateLimiter.Allow _ _ _ _ _) as [ok rl]. cbn [fst] in Hno. subst ok.
      reflexivity. }
  intros Hcap Hrate. specialize (Hyes Hcap Hrate).
  destruct (RateLimiter.Allow _ _ _ _ _) as [ok rl]. cbn [fst] in Hyes. subst ok. cbn [negb].
  unfold dispatch. destruct (mux r) as [response|]; [reflexivity|].
  unfold handleProxy. cbn [balancer rateLimiter].
  set (lb := NewRoundRobinLoadBalancer parse (Backends cfg)).
  assert (Hbs : backends lb
                = map (fun u => {| Address := u; IsAlive := true |}) (omap parse (Backends cfg))).
  { unfold lb, NewRoundRobinLoadBalancer. cbn [backends]. apply register_backends_spec. }
  assert (HN : length (backends lb) = length (omap parse (Backends cfg))).
  { rewrite Hbs. apply length_map. }
  destruct (omap parse (Backends cfg)) as [|u us] eqn:Eu.
  - unfold NextAvailableBackend. rewrite HN. reflexivity.
  - assert (Hall : all_alive lb).
    { unfold all_alive. rewrite Hbs. apply Forall_forall. intros b Hb.
      apply list_elem_of_fmap in Hb. destruct Hb as (a & -> & _). reflexivity. }
    rewrite (next_all_alive lb) by (rewrite ?HN; cbn [length] in *; try lia; exact Hall).
    cbn [set_cursor backends]. rewrite HN. unfold lb at 1. cbn [NewRoundRobinLoadBalancer currentIndex].
    change (wrap32 (0 + 1)) with 1.
    replace (Z.to_nat (1 mod Z.of_nat (length (u :: us)))) with (1 mod length (u :: us))%nat.
    2:{ rewrite <- (Nat2Z.id (1 mod length (u :: us))%nat). f_equal.
        rewrite Nat2Z.inj_mod. reflexivity. }
    rewrite Hbs, list_lookup_fmap.
    destruct ((u :: us) !! (1 mod length (u :: us))%nat) as [address|] eqn:Ha; cbn.
    + destruct (roundTrip address r); reflexivity.
    + exfalso. apply lookup_ge_None in Ha.
      pose proof (Nat.mod_upper_bound 1 (length (u :: us))). cbn [length] in *. lia.
Qed.

Lemma first_request_is_forwarded_witness :
  fst (ServeHTTP dispatching_mux echo_transport 5 6 7 direct_request
         (NewProxyServer parse_sample
            {| Port := 8080; Backends := ["http://s1:8081"; ":8082"; "http://s3:8083"]%string;
               RateLimit := {| Capacity := 1; RefillRate := 1 |} |}))
  = Ret {| StatusCode := 200; ResponseHeader := []; Body := "http://s3:8083" |}
  /\ fst (ServeHTTP dispatching_mux echo_transport 5 6 7 direct_request
           (NewProxyServer parse_sample
              {| Port := 8080; Backends := ["http://s1:8081"; ":8082"; "http://s3:8083"]%string;
                 RateLimit := {| Capacity := 0; RefillRate := 1 |} |}))
     = Ret (Error "Rate limit exceeded" 429).
Proof.
  split.
  - destruct (first_request_is_forwarded parse_sample
                {| Port := 8080; Backends := ["http://s1:8081"; ":8082"; "http://s3:8083"]%string;
                   RateLimit := {| Capacity := 1; RefillRate := 1 |} |}
                dispatching_mux echo_transport 5 6 7 direct_request) as [H _];
      [vm_compute; reflexivity|].
    rewrite H; [reflexivity| |]; vm_compute; split; discriminate.
  - destruct (first_request_is_forwarded parse_sample
                {| Port := 8080; Backends := ["http://s1:8081"; ":8082"; "http://s3:8083"]%string;
                   RateLimit := {| Capacity := 0; RefillRate := 1 |} |}
                dispatching_mux echo_transport 5 6 7 direct_request) as [_ H];
      [vm_compute; reflexivity|].
    apply H. vm_compute. discriminate.
Defined.

Lemma cleanupStaleClients_cons (tick : Time.Time) (ticks : list Time.Time) (p : ProxyServer) :
  cleanupStaleClients (tick :: ticks) p
  = cleanupStaleClients ticks
      {| balancer := balancer p;
         rateLimiter := RateLimiter.Cleanup (5 * Time.Minute) tick (rateLimiter p) |}.
Proof. reflexivity. Qed.

(** The janitor of the proxy: through any number of ticks it touches neither
    the balancer nor the buckets themselves nor the limits, and a client is
    still registered afterwards exactly when at every tick its last request
    lay at most five minutes back. *)
Theorem stale_clients_swept (ticks : list Time.Time) (p : ProxyServer) :
  balancer (cleanupStaleClients ticks p) = balancer p
  /\ RateLimiter.store (rateLimiter (cleanupStaleClients ticks p))
     = RateLimiter.store (rateLimiter p)
  /\ RateLimiter.clientLimits (RateLimiter.limiter (rateLimiter (cleanupStaleClients ticks p)))
     = RateLimiter.clientLimits (RateLimiter.limiter (rateLimiter p))
  /\ forall (clientID : string) (bucket : RateLimiter.loc),
       RateLimiter.find_bucket clientID (rateLimiter (cleanupStaleClients ticks p)) = Some bucket
       <-> RateLimiter.find_bucket clientID (rateLimiter p) = Some bucket
           /\ Forall (fun tick =>
                        Time.Sub tick (Bucket.lastSeen (RateLimiter.store (rateLimiter p) bucket))
                        <= 300000000000) ticks.
Proof.
  revert p. induction ticks as [|tick ticks IH]; intros p.
  { cbn. repeat split; auto. intros [H _]. exact H. }
  rewrite cleanupStaleClients_cons.
  destruct (IH {| balancer := balancer p;
                  rateLimiter := RateLimiter.Cleanup (5 * Time.Minute) tick (rateLimiter p) |})
    as (Hb & Hs & Hl & Hf).
  cbn [balancer rateLimiter] in Hb, Hs, Hl, Hf.
  split; [exact Hb|]. split; [exact Hs|]. split; [exact Hl|].
  intros clientID bucket. rewrite Hf. cbn [RateLimiter.Cleanup RateLimiter.store].
  rewrite Forall_cons.
  assert (Hone : RateLimiter.find_bucket clientID
                   (RateLimiter.Cleanup (5 * Time.Minute) tick (rateLimiter p)) = Some bucket
                 <-> RateLimiter.find_bucket clientID (rateLimiter p) = Some bucket
                     /\ Time.Sub tick (Bucket.lastSeen (RateLimiter.store (rateLimiter p) bucket))
                        <= 300000000000).
  { unfold RateLimiter.find_bucket, RateLimiter.Cleanup.
    cbn [RateLimiter.limiter RateLimiter.set_buckets RateLimiter.buckets].
    rewrite map_lookup_filter_Some. cbn [snd]. unfold RateLimiter.expired.
    change (5 * Time.Minute) with 300000000000.
    destruct (Z.gtb_spec (Time.Sub tick (Bucket.lastSeen (RateLimiter.store (rateLimiter p) bucket)))
                300000000000); split; intros [H1 H2]; split; auto; try lia; discriminate. }
  rewrite Hone. tauto.
Qed.

(** The two identity functions of the repository agree on a request. *)
Lemma identity_functions_agree_witness :
  extractClientIP direct_request = getClientIP direct_request.
Proof.
  apply ProxyFacts.extractClientIP_getClientIP. right. vm_compute. reflexivity.
Defined.

End ServerFacts.

Module InterleavingFacts.
Import RateLimiter Concurrent.

Lemma registered_bucket_linearizable_witness :
  Z.of_nat (granted (fst (run "client1" 0 [0; 1; 0; 1; 0; 1]%nat
                           (replicate 2 AtLookup, snd (getBucket "client1" 0 (initial 1 1))))))
  <= Z.min 2 1.
Proof.
  apply (ConcurrentFacts.registered_bucket_linearizable "client1" 0 1 1 0%nat
           (snd (getBucket "client1" 0 (initial 1 1))) 2 [0; 1; 0; 1; 0; 1]%nat).
  - unfold max_int. lia.
  - reflexivity.
  - reflexivity.
Defined.

End InterleavingFacts.

Module ExactFacts.
Import Float64 Float64Facts Time TimeFacts Bucket BucketFacts.

(** A mantissa whose discarded digits are all zero is rounded to itself. *)
Lemma binary_round_aux_exact (sx : bool) (m q : positive) (e : Z) :
  e <= fexp64 (digits m + e) -> fexp64 (digits m + e) <= 971 ->
  Z.pos m = Z.pos q * 2 ^ (fexp64 (digits m + e) - e) ->
  binary_round_aux prec emax sx (Z.pos m) e loc_Exact
  = S754_finite sx q (fexp64 (digits m + e))
  /\ canonical q (fexp64 (digits m + e)).
Proof.
  intros Hn Hfin Hdiv. set (f := fexp64 (digits m + e)) in *.
  pose proof (pow2_pos (f - e) ltac:(lia)) as Hp.
  assert (Hquot : Z.pos m / 2 ^ (f - e) = Z.pos q) by (rewrite Hdiv; apply Z.div_mul; lia).
  assert (Hdq : digits q + f = digits m + e).
  { rewrite (digits_shift_left q (f - e) m) by (lia || exact Hdiv). lia. }
  destruct (shr_fexp_spec m e loc_Exact Hn) as (mrs & Heq & Hm & Hex). fold f in Heq, Hm, Hex.
  rewrite Hquot in Hm.
  assert (Hx : exact mrs) by (apply Hex; split; [reflexivity|rewrite Hm; exact Hdiv]).
  apply loc_exact in Hx.
  assert (Hn2 : f <= fexp64 (digits q + f)) by (rewrite Hdq; fold f; lia).
  destruct (shr_fexp_spec q f loc_Exact Hn2) as (mrs2 & Heq2 & Hm2 & _).
  rewrite Hdq in Heq2, Hm2. fold f in Heq2, Hm2.
  rewrite Z.sub_diag, Z.pow_0_r, Z.div_1_r in Hm2.
  split.
  - unfold binary_round_aux. rewrite Heq, Hx, Hm.
    change (round_nearest_even (Z.pos q) loc_Exact) with (Z.pos q).
    rewrite Heq2, Hm2. change (emax - prec) with 971.
    destruct (Z.leb_spec f 971); [reflexivity|lia].
  - unfold canonical. rewrite Hdq. reflexivity.
Qed.

(** An integer below [2 ^ 53] is converted without rounding. *)
Lemma of_int_whole (z : Z) : 0 <= z < 2 ^ 53 -> whole z (of_int z).
Proof.
  intros [H0 Hlt]. destruct z as [|p|p]; try lia; [left; split; reflexivity|].
  right. unfold of_int. cbn [binary_normalize]. unfold binary_round. rewrite fexp_fexp64.
  fold (digits p). rewrite Z.add_0_r.
  pose proof (digits_bounds p) as [Dlo Dhi]. pose proof (digits_pos p) as Dpos.
  assert (Hd : digits p <= 53).
  { destruct (Z.le_gt_cases (digits p) 53); [assumption|].
    assert (2 ^ 53 <= 2 ^ (digits p - 1)) by (apply pow2_le; lia). lia. }
  assert (Hf : fexp64 (digits p) = digits p - 53) by (unfold fexp64; lia).
  rewrite Hf.
  destruct (shl_align_spec p 0 (digits p - 53)) as [(Hlt' & Hs & Hm)|(Hle & Heq)].
  - destruct (shl_align p 0 (digits p - 53)) as [mz ez]. cbn [fst snd] in Hs, Hm. subst ez.
    assert (Hdz : digits mz = 53).
    { rewrite (digits_shift_left p (0 - (digits p - 53)) mz) by (lia || exact Hm). lia. }
    assert (Hfz : fexp64 (digits mz + (digits p - 53)) = digits p - 53)
      by (rewrite Hdz; unfold fexp64; lia).
    destruct (binary_round_aux_exact false mz mz (digits p - 53)) as [Heq Hc];
      rewrite ?Hfz; try lia.
    { rewrite Z.sub_diag, Z.pow_0_r. lia. }
    rewrite Hfz in Heq, Hc. exists mz, (digits p - 53).
    split; [exact Heq|]. split; [exact Hc|]. split; [lia|].
    rewrite Hm. f_equal; f_equal; lia.
  - rewrite Heq. assert (E53 : digits p = 53) by lia.
    assert (Hfz : fexp64 (digits p + 0) = 0) by (rewrite Z.add_0_r, E53; reflexivity).
    destruct (binary_round_aux_exact false p p 0) as [Heq' Hc]; rewrite ?Hfz; try lia.
    rewrite Hfz in Heq', Hc. exists p, 0.
    split; [exact Heq'|]. split; [exact Hc|]. split; [lia|]. cbn. lia.
Qed.

Lemma whole_digits (z : Z) (m : positive) (e : Z) :
  canonical m e -> e <= 0 -> Z.pos m = z * 2 ^ (- e) -> z < 2 ^ 53 -> digits m = 53.
Proof.
  intros Hc He Hm Hz. unfold canonical, fexp64 in Hc.
  pose proof (digits_bounds m) as [Dlo Dhi]. pose proof (digits_pos m).
  destruct (Z.eq_dec (digits m) 53) as [|Hne]; [assumption|].
  assert (e = -1074 /\ digits m < 53) as [E Hd] by lia. exfalso.
  pose proof (pow2_pos (- e) ltac:(lia)).
  assert (1 <= z) by nia.
  assert (2 ^ 1074 <= Z.pos m).
  { rewrite Hm, E. change (- -1074) with 1074. nia. }
  assert (2 ^ digits m <= 2 ^ 1074) by (apply pow2_le; lia). lia.
Qed.

(** The product of two integers is exact when it is below [2 ^ 53]. *)
Lemma mul_whole (zx zy : Z) (x y : float64) :
  whole zx x -> whole zy y -> zx * zy < 2 ^ 53 -> whole (zx * zy) (mul x y).
Proof.
  intros [[-> ->]|(mx & ex & -> & Hcx & Hex & Hmx)] [[-> ->]|(my & ey & -> & Hcy & Hey & Hmy)] Hlt.
  - left. split; reflexivity.
  - left. split; reflexivity.
  - left. split; [lia|reflexivity].
  - right. unfold mul. cbn [SFmul xorb].
    pose proof (pow2_pos (- ex) ltac:(lia)) as Px. pose proof (pow2_pos (- ey) ltac:(lia)) as Py.
    assert (Hzx : 1 <= zx) by nia. assert (Hzy : 1 <= zy) by nia.
    assert (Hx53 : zx < 2 ^ 53) by nia. assert (Hy53 : zy < 2 ^ 53) by nia.
    pose proof (whole_digits zx mx ex Hcx Hex Hmx Hx53) as Dx.
    pose proof (whole_digits zy my ey Hcy Hey Hmy Hy53) as Dy.
    unfold canonical, fexp64 in Hcx, Hcy. rewrite Dx in Hcx. rewrite Dy in Hcy.
    destruct (zx * zy) as [|p|p] eqn:Ep; try nia.
    assert (Hprod : Z.pos (mx * my) = Z.pos p * 2 ^ (- (ex + ey))).
    { rewrite Pos2Z.inj_mul, Hmx, Hmy, <- Ep.
      replace (- (ex + ey)) with (- ex + - ey) by lia. rewrite pow2_split by lia. ring. }
    pose proof (digits_shift_left p (- (ex + ey)) (mx * my) ltac:(lia) Hprod) as Dprod.
    pose proof (digits_bounds p) as [Plo Phi]. pose proof (digits_pos p) as Ppos.
    assert (Hdp : digits p <= 53).
    { destruct (Z.le_gt_cases (digits p) 53); [assumption|].
      assert (2 ^ 53 <= 2 ^ (digits p - 1)) by (apply pow2_le; lia). lia. }
    assert (Hf : fexp64 (digits (mx * my) + (ex + ey)) = digits p - 53).
    { rewrite Dprod. unfold fexp64. lia. }
    assert (Hlow : 105 <= digits (mx * my)).
    { pose proof (digits_bounds mx) as [Lx _]. pose proof (digits_bounds my) as [Ly _].
      rewrite Dx in Lx. rewrite Dy in Ly. change (53 - 1) with 52 in *.
      assert (2 ^ 104 <= Z.pos (mx * my)).
      { rewrite Pos2Z.inj_mul. change 104 with (52 + 52). apply pow2_mul_le; lia. }
      pose proof (digits_bounds (mx * my)) as [_ Hd].
      assert (104 < digits (mx * my))
        by (apply pow2_lt_inv; [pose proof (digits_pos (mx * my))|]; lia).
      lia. }
    destruct (Z.pos p * 2 ^ (53 - digits p)) as [|q|q] eqn:Eq;
      try (pose proof (pow2_pos (53 - digits p) ltac:(lia)); nia).
    destruct (binary_round_aux_exact false (mx * my) q (ex + ey)) as [Heq Hc];
      rewrite ?Hf; try lia.
    { rewrite Hprod, <- Eq, <- Z.mul_assoc, <- pow2_split by lia. f_equal; f_equal; lia. }
    rewrite Hf in Heq, Hc. exists q, (digits p - 53).
    split; [exact Heq|]. split; [exact Hc|]. split; [lia|].
    rewrite <- Eq. f_equal; f_equal; lia.
Qed.

(** Converting back gives the integer. *)
Lemma to_int_whole (z : Z) (x : float64) : whole z x -> 0 <= z <= max_int -> to_int x = z.
Proof.
  intros [[-> ->]|(m & e & -> & _ & He & Hm)] Hz; [reflexivity|].
  cbn [to_int]. unfold truncate. pose proof (pow2_pos (- e) ltac:(lia)) as Hp.
  assert (Hv : (if 0 <=? e then Z.pos m * 2 ^ e else Z.pos m / 2 ^ (- e)) = z).
  { destruct (Z.leb_spec 0 e).
    - replace e with 0 in * by lia. cbn in Hm |- *. lia.
    - rewrite Hm. apply Z.div_mul. lia. }
  rewrite Hv. assert (min_int < 0) by (unfold min_int; lia).
  destruct (Z.leb_spec min_int z); [|lia]. destruct (Z.leb_spec z max_int); [|lia]. reflexivity.
Qed.

(** A whole number of seconds is measured without rounding. *)
Lemma Seconds_whole (s : Z) :
  0 <= s -> s * 1000000000 <= max_int -> whole s (Seconds (s * 1000000000)).
Proof.
  intros H0 Hhi. unfold Seconds, Second.
  rewrite Z.quot_mul, Z.rem_mul by lia.
  change (of_int 0) with (S754_zero false).
  destruct billion_between as (m & e & -> & _). cbn [div SFdiv xorb].
  assert (Hs : s < 2 ^ 53) by (unfold max_int in Hhi; lia).
  destruct (of_int_whole s ltac:(lia)) as [[-> ->]|(ms & es & Heq & Hrest)].
  - left. split; reflexivity.
  - right. rewrite Heq. exists ms, es. split; [reflexivity|exact Hrest].
Qed.

(** For a whole number of seconds the refill formula is exact: [s] seconds
    after the last refill, [tokensToAdd] is [s * refillRate], provided the
    product is below [2 ^ 53]; the bucket is then refilled to
    [min (capacity, tokens + s * refillRate)] when that sum fits the [int]. *)
Theorem whole_seconds_exact (tb : TokenBucket) (now : Time) (s : Z) :
  0 <= s -> 0 <= RefillRate tb <= max_int ->
  now - lastRefill tb = s * 1000000000 -> s * 1000000000 <= max_int ->
  s * RefillRate tb < 2 ^ 53 ->
  tokensToAdd tb now = s * RefillRate tb
  /\ (min_int <= Tokens tb <= Capacity tb -> Tokens tb + s * RefillRate tb <= max_int ->
      Tokens (refill now tb) = Z.min (Capacity tb) (Tokens tb + s * RefillRate tb)).
Proof.
  intros Hs Hr Hd Hfit Hlt.
  assert (Hk : tokensToAdd tb now = s * RefillRate tb); [|split; [exact Hk|]].
  2:{ intros Ht Hsum. unfold refill. rewrite Hk.
      destruct (Z.gtb_spec (s * RefillRate tb) 0) as [Hp|Hp]; cbn [Tokens].
      - rewrite min_spec, wrap_int_small by lia. reflexivity.
      - assert (s * RefillRate tb = 0) by nia. lia. }
  unfold tokensToAdd.
  assert (Hsub : Sub now (lastRefill tb) = s * 1000000000).
  { unfold Sub. rewrite Hd. assert (min_int < 0) by (unfold min_int; lia).
    destruct (Z.ltb_spec (s * 1000000000) min_int); [lia|].
    destruct (Z.ltb_spec max_int (s * 1000000000)); [lia|reflexivity]. }
  rewrite Hsub. pose proof (Seconds_whole s Hs Hfit) as He.
  destruct (Z.eq_dec s 0) as [->|Hne].
  - destruct He as [[_ ->]|(m & e & _ & _ & He & Hm)].
    + destruct (of_int_upto (RefillRate tb) 63 ltac:(lia)) as [->|(m & e & -> & _)];
        [unfold max_int in Hr; lia|reflexivity|reflexivity].
    + pose proof (pow2_pos (- e) ltac:(lia)). lia.
  - apply to_int_whole; [|unfold max_int; nia].
    apply mul_whole; [exact He| |exact Hlt].
    apply of_int_whole. nia.
Qed.

Lemma whole_seconds_exact_witness : tokensToAdd drained_bucket 3000000000 = 300.
Proof.
  destruct (whole_seconds_exact drained_bucket 3000000000 3) as [H _];
    cbn; unfold max_int; try lia. exact H.
Defined.

End ExactFacts.

Module RotationFacts.
Import Balancer BalancerFacts.

Lemma set_cursor_twice (lb : RoundRobinLoadBalancer) (c c' : Z) :
  set_cursor (set_cursor lb c) c' = set_cursor lb c'.
Proof. reflexivity. Qed.

(** A call returns the first live backend after the cursor. *)
Lemma first_live (k : nat) (total : Z) : forall (j : nat) (lb : RoundRobinLoadBalancer),
  (1 <= j <= k)%nat -> wrap32 total <> 0 ->
  (forall i : nat, (1 <= i < j)%nat ->
     exists b, backends lb !! Z.to_nat (wrap32 (currentIndex lb + Z.of_nat i) mod wrap32 total)
               = Some b /\ IsAlive b = false) ->
  (exists b, backends lb !! Z.to_nat (wrap32 (currentIndex lb + Z.of_nat j) mod wrap32 total)
             = Some b /\ IsAlive b = true) ->
  attempt_loop k total lb
  = (Ret (Some (Z.to_nat (wrap32 (currentIndex lb + Z.of_nat j) mod wrap32 total))),
     set_cursor lb (wrap32 (currentIndex lb + Z.of_nat j))).
Proof.
  induction k as [|k IH]; intros j lb Hj Hz Hdead Hlive; [lia|].
  cbn [attempt_loop]. destruct (Z.eqb_spec (wrap32 total) 0) as [E|_]; [contradiction|].
  destruct (Nat.eq_dec j 1%nat) as [->|Hne].
  - change (Z.of_nat 1) with 1 in *. destruct Hlive as (b & -> & ->). reflexivity.
  - destruct (Hdead 1%nat ltac:(lia)) as (b & Hb & Hd). change (Z.of_nat 1) with 1 in Hb.
    rewrite Hb, Hd.
    rewrite (IH (j - 1)%nat (set_cursor lb (wrap32 (currentIndex lb + 1)))); try lia;
      cbn [set_cursor backends currentIndex].
    + rewrite wrap32_add_l.
      replace (currentIndex lb + 1 + Z.of_nat (j - 1)) with (currentIndex lb + Z.of_nat j) by lia.
      reflexivity.
    + intros i Hi. destruct (Hdead (S i) ltac:(lia)) as (b' & Hb' & Hd').
      exists b'. rewrite wrap32_add_l.
      replace (currentIndex lb + 1 + Z.of_nat i) with (currentIndex lb + Z.of_nat (S i)) by lia.
      auto.
    + destruct Hlive as (b' & Hb' & Ha'). exists b'. rewrite wrap32_add_l.
      replace (currentIndex lb + 1 + Z.of_nat (j - 1)) with (currentIndex lb + Z.of_nat j) by lia.
      auto.
Qed.

Lemma alive_at_pool (lb lb' : RoundRobinLoadBalancer) (i : nat) :
  backends lb' = backends lb -> alive_at lb' i = alive_at lb i.
Proof. intros H. unfold alive_at. rewrite H. reflexivity. Qed.

Lemma alive_at_cases (lb : RoundRobinLoadBalancer) (i : nat) :
  (i < length (backends lb))%nat ->
  exists b, backends lb !! i = Some b /\ IsAlive b = alive_at lb i.
Proof.
  intros Hi. destruct (lookup_lt_is_Some_2 (backends lb) i Hi) as [b Hb].
  exists b. unfold alive_at. rewrite Hb. auto.
Qed.

Section Window.

Variable lb : RoundRobinLoadBalancer.

Let N : nat := length (backends lb).
Let c : Z := currentIndex lb.
Let P (i : nat) : nat := Z.to_nat ((c + Z.of_nat i) mod Z.of_nat N).

Hypothesis Hsize : Z.of_nat N < 2 ^ 32.
Hypothesis Hwrap : (0 <= c /\ c + Z.of_nat N < 2 ^ 32) \/ 2 ^ 32 mod Z.of_nat N = 0.

(** The calls that follow once the positions of the offsets up to [d] have
    been passed, the cursor standing at offset [d0]. *)
Lemma live_window (n : nat) : forall (d0 d : nat) (lb' : RoundRobinLoadBalancer),
  backends lb' = backends lb -> wrap32 (currentIndex lb') = wrap32 (c + Z.of_nat d0) ->
  (d0 <= d)%nat -> (d + n = N)%nat ->
  (forall i : nat, (d0 < i <= d)%nat -> alive_at lb (P i) = false) ->
  fst (selections (length (List.filter (alive_at lb) (map P (seq (S d) n)))) lb')
  = map (fun i => Ret (Some i)) (List.filter (alive_at lb) (map P (seq (S d) n)))
  /\ backends (snd (selections (length (List.filter (alive_at lb) (map P (seq (S d) n)))) lb'))
     = backends lb.
Proof.
  induction n as [|n IH]; intros d0 d lb' Hb Hcur Hd Hn Hdead; [cbn; auto|].
  cbn [seq map List.filter].
  assert (Hpos : (0 < N)%nat) by lia.
  assert (Hidx : forall i : nat, (1 <= i)%nat -> (d0 + i <= N)%nat ->
            Z.to_nat (wrap32 (currentIndex lb' + Z.of_nat i) mod wrap32 (Z.of_nat N))
            = P (d0 + i)).
  { intros i Hi1 Hi2. rewrite <- wrap32_add_l, Hcur, wrap32_add_l.
    rewrite (wrap32_small (Z.of_nat N)) by lia.
    replace (c + Z.of_nat d0 + Z.of_nat i) with (c + Z.of_nat (d0 + i)) by lia.
    unfold P. rewrite (reduced_index c N (d0 + i)) by (assumption || lia). reflexivity. }
  destruct (alive_at lb (P (S d))) eqn:Ea.
  - cbn [length selections map].
    assert (Hnext : NextAvailableBackend lb'
                    = (Ret (Some (P (S d))),
                       set_cursor lb' (wrap32 (currentIndex lb' + Z.of_nat (S d - d0))))).
    { unfold NextAvailableBackend. rewrite Hb. fold N.
      rewrite (first_live N (Z.of_nat N) (S d - d0) lb').
      - rewrite Hidx by lia. replace (d0 + (S d - d0))%nat with (S d) by lia. reflexivity.
      - lia.
      - rewrite wrap32_small by lia. lia.
      - intros i Hi. rewrite Hidx by lia.
        destruct (alive_at_cases lb (P (d0 + i))) as (b & Hlk & Hal).
        { apply index_in_range. exact Hpos. }
        exists b. rewrite Hb. split; [exact Hlk|]. rewrite Hal. apply Hdead. lia.
      - rewrite Hidx by lia. replace (d0 + (S d - d0))%nat with (S d) by lia.
        destruct (alive_at_cases lb (P (S d))) as (b & Hlk & Hal).
        { apply index_in_range. exact Hpos. }
        exists b. rewrite Hb. split; [exact Hlk|]. rewrite Hal. exact Ea. }
    rewrite Hnext.
    destruct (IH (S d) (S d) (set_cursor lb' (wrap32 (currentIndex lb' + Z.of_nat (S d - d0)))))
      as [IH1 IH2]; try lia.
    + exact Hb.
    + cbn [set_cursor currentIndex].
      rewrite (wrap32_small (wrap32 (currentIndex lb' + Z.of_nat (S d - d0))))
        by apply wrap32_range.
      rewrite <- wrap32_add_l, Hcur, wrap32_add_l. f_equal. lia.
    + destruct (selections _ _) as [rs lb2]. cbn [fst snd] in *. rewrite IH1. auto.
  - apply (IH d0 (S d) lb'); try assumption; try lia.
    intros i Hi. destruct (Nat.eq_dec i (S d)) as [->|Hne]; [exact Ea|]. apply Hdead. lia.
Qed.

End Window.

Lemma Permutation_filter (f : nat -> bool) (l l' : list nat) :
  Permutation l l' -> Permutation (List.filter f l) (List.filter f l').
Proof.
  induction 1 as [|x l l' _ IH|x y l|l l' l'' _ IH1 _ IH2]; cbn.
  - constructor.
  - destruct (f x); [constructor|]; exact IH.
  - destruct (f x), (f y); try reflexivity. constructor.
  - etransitivity; eassumption.
Qed.

(** Rotation among the backends that are up. When [L] backends of the pool
    are alive, [L] consecutive selections return each of them exactly once,
    in the order of the positions after the cursor, and skip the others; the
    pool has fewer than [2 ^ 32] backends and the cursor does not wrap around
    (or the pool size divides [2 ^ 32]). *)
Theorem rotation_over_live (lb : RoundRobinLoadBalancer) :
  Z.of_nat (length (backends lb)) < 2 ^ 32 ->
  (0 <= currentIndex lb /\ currentIndex lb + Z.of_nat (length (backends lb)) < 2 ^ 32)
  \/ 2 ^ 32 mod Z.of_nat (length (backends lb)) = 0 ->
  fst (selections (length (List.filter (alive_at lb) (rotation lb))) lb)
  = map (fun i => Ret (Some i)) (List.filter (alive_at lb) (rotation lb))
  /\ Permutation (List.filter (alive_at lb) (rotation lb))
                 (List.filter (alive_at lb) (seq 0 (length (backends lb))))
  /\ backends (snd (selections (length (List.filter (alive_at lb) (rotation lb))) lb))
     = backends lb.
Proof.
  intros Hsize Hwrap.
  destruct (live_window lb Hsize Hwrap (length (backends lb)) 0 0 lb) as [H1 H2];
    try reflexivity; try lia.
  { rewrite Z.add_0_r. reflexivity. }
  split; [exact H1|]. split; [|exact H2].
  apply Permutation_filter, rotation_permutation.
Qed.

Lemma rotation_over_live_witness :
  fst (selections 2 (MarkBackendUnhealthy (set_cursor pool_at_wrap 7) "http://s1:8081"))
  = [Ret (Some 2%nat); Ret (Some 1%nat)].
Proof.
  destruct (rotation_over_live
              (MarkBackendUnhealthy (set_cursor pool_at_wrap 7) "http://s1:8081"))
    as (H & _); [cbn; lia|left; cbn; lia|exact H].
Defined.

End RotationFacts.
